(** * gozip: parallel bulk extraction of ZIP archives

    A shallow embedding of [gozip.go]: the extractor [extractZip], the
    [worker] loop, and the goroutines started by [main] (the discovery
    walker, the wait-group closer and the error aggregator), together with
    the parts of the Go standard library they call ([strings],
    [path/filepath], [os], [archive/zip], [io], channels).

    The file system is a finite map from cleaned paths to nodes; every
    failure the operating system may report beyond the ones that follow
    from the shape of the tree (permission denied, I/O error, no space) is
    supplied by a fault oracle of the environment.  Goroutines are
    deterministic state machines; a schedule [nat -> actor] picks which of
    them moves at each tick, and a goroutine picked while it is blocked on
    a channel leaves the state as it is. *)

From stdpp Require Import gmap strings list fin_maps.
From Stdlib Require Import Strings.String Strings.Ascii Strings.Byte.
From Stdlib Require Import Lia.

Open Scope string_scope.

(* ===================================================================== *)
(** ** Package [strings] *)
(* ===================================================================== *)

Module Strings.

(** [strings.HasSuffix(s, suffix)]:
    [len(s) >= len(suffix) && s[len(s)-len(suffix):] == suffix]. *)
Definition HasSuffix (s suffix : string) : bool :=
  (String.length suffix <=? String.length s)%nat &&
  String.eqb
    (substring (String.length s - String.length suffix)
               (String.length suffix) s)
    suffix.

(** [strings.TrimSuffix(s, suffix)]: [s] without the trailing [suffix],
    or [s] itself when it does not end in [suffix]. *)
Definition TrimSuffix (s suffix : string) : string :=
  if HasSuffix s suffix
  then substring 0 (String.length s - String.length suffix) s
  else s.

(** [strings.Split(s, "/")] : the fields of [s] between slashes. *)
Fixpoint splitSlash (cur : string) (s : string) : list string :=
  match s with
  | EmptyString => [cur]
  | String c rest =>
      if Ascii.eqb c "/"%char
      then cur :: splitSlash "" rest
      else splitSlash (cur ++ String c "") rest
  end.

(** [strings.Join(elems, "/")]. *)
Fixpoint joinSlash (l : list string) : string :=
  match l with
  | [] => ""
  | [x] => x
  | x :: rest => x ++ "/" ++ joinSlash rest
  end.

End Strings.

(* ===================================================================== *)
(** ** Package [path/filepath] (Unix) *)
(* ===================================================================== *)

Module Filepath.

Definition rooted (path : string) : bool :=
  match path with
  | String c _ => Ascii.eqb c "/"%char
  | EmptyString => false
  end.

(** One round of the loop of [Clean], on the element [c] of the path;
    [out] holds the elements kept so far, last one first.  An empty
    element and [.] are dropped; [..] removes the last kept element when
    there is one that is not itself [..], is dropped at the root, and
    is kept otherwise. *)
Definition cleanStep (isRooted : bool) (out : list string) (c : string)
  : list string :=
  if String.eqb c "" || String.eqb c "." then out
  else if String.eqb c ".." then
    match out with
    | top :: below =>
        if String.eqb top ".." then c :: out else below
    | [] => if isRooted then [] else [c]
    end
  else c :: out.

(** [filepath.Clean(path)]: the shortest path name equivalent to [path]
    by purely lexical processing. *)
Definition Clean (path : string) : string :=
  let r := rooted path in
  let out := fold_left (cleanStep r) (Strings.splitSlash "" path) [] in
  match out, r with
  | [], true => "/"
  | [], false => "."
  | _, true => "/" ++ Strings.joinSlash (rev out)
  | _, false => Strings.joinSlash (rev out)
  end.

(** [filepath.Join(elem...)]: the elements from the first non-empty one
    on, joined with slashes, and the result cleaned; the empty string
    when every element is empty. *)
Fixpoint Join (elem : list string) : string :=
  match elem with
  | [] => ""
  | e :: rest =>
      if String.eqb e "" then Join rest
      else Clean (Strings.joinSlash elem)
  end.

(** The part of [path] up to and including its last slash. *)
Fixpoint uptoLastSlash (path : string) : string :=
  match path with
  | EmptyString => ""
  | String c rest =>
      let r := uptoLastSlash rest in
      if String.eqb r "" then
        (if Ascii.eqb c "/"%char then String c "" else "")
      else String c r
  end.

(** [filepath.Dir(path)]: all but the last element of [path], cleaned. *)
Definition Dir (path : string) : string := Clean (uptoLastSlash path).

(** The cleaned prefixes of a cleaned path, shortest first, the path
    itself last: the directories [os.MkdirAll] has to find or make. *)
Fixpoint prefixesFrom (acc : string) (comps : list string) : list string :=
  match comps with
  | [] => []
  | c :: rest =>
      let p := if String.eqb acc "" then c
               else if String.eqb acc "/" then "/" ++ c
               else acc ++ "/" ++ c in
      p :: prefixesFrom p rest
  end.

Definition ancestors (key : string) : list string :=
  let comps := filter (fun c => c <> "") (Strings.splitSlash "" key) in
  prefixesFrom (if rooted key then "/" else "") comps.

(** [path] lies in the tree below [dir] (or is [dir] itself). *)
Definition inside (dir path : string) : bool :=
  String.eqb path dir || String.prefix (dir ++ "/") path.

End Filepath.

(* ===================================================================== *)
(** ** Errors *)
(* ===================================================================== *)

(** The error numbers of the system calls the program makes. *)
Inductive errno := ENOENT | ENOTDIR | EISDIR | EACCES | EIO | ENOSPC.

(** Go error values: the sentinels of [archive/zip] and [io], and
    [*fs.PathError] around an error number. *)
Inductive err :=
  | ErrFormat            (* zip.ErrFormat: "zip: not a valid zip file" *)
  | ErrAlgorithm         (* zip.ErrAlgorithm *)
  | ErrChecksum          (* zip.ErrChecksum *)
  | ErrUnexpectedEOF     (* io.ErrUnexpectedEOF *)
  | PathError (op path : string) (e : errno).

(** A value of the interface type [error]; [None] is [nil]. *)
Definition error := option err.

#[global] Instance errno_eq_dec : EqDecision errno.
Proof. solve_decision. Defined.
#[global] Instance err_eq_dec : EqDecision err.
Proof. solve_decision. Defined.

(** [os.IsNotExist(err)]. *)
Definition IsNotExist (e : error) : bool :=
  match e with
  | Some (PathError _ _ ENOENT) => true
  | _ => false
  end.

(** [err.Error()]. *)
Definition errnoString (e : errno) : string :=
  match e with
  | ENOENT => "no such file or directory"
  | ENOTDIR => "not a directory"
  | EISDIR => "is a directory"
  | EACCES => "permission denied"
  | EIO => "input/output error"
  | ENOSPC => "no space left on device"
  end.

Definition errorString (e : err) : string :=
  match e with
  | ErrFormat => "zip: not a valid zip file"
  | ErrAlgorithm => "zip: unsupported compression algorithm"
  | ErrChecksum => "zip: checksum error"
  | ErrUnexpectedEOF => "unexpected EOF"
  | PathError op path e => op ++ " " ++ path ++ ": " ++ errnoString e
  end.

(* ===================================================================== *)
(** ** Package [os], [archive/zip], [io]: the world the program runs in *)
(* ===================================================================== *)

Inductive node :=
  | NDir
  | NFile (mode : N) (data : list byte).

(** Open file descriptors. *)
Inductive handle :=
  | HZip (key : string)      (* the archive, from [zip.OpenReader] *)
  | HOut (key : string)      (* an output file, from [os.OpenFile] *)
  | HEntry (name : string).  (* an entry's read stream, from [f.Open] *)

#[global] Instance handle_eq_dec : EqDecision handle.
Proof. solve_decision. Defined.

Record World := mkWorld {
  nodes : gmap string node;      (* the tree, by cleaned path *)
  handles : list handle;         (* descriptors open now *)
  stdout : list string           (* what [fmt.Printf] has written *)
}.

(** One entry of an archive ([*zip.File]): its stored name, whether
    [f.FileInfo().IsDir()], [f.Mode()], the result of [f.Open()], and
    what reading the stream delivers: the bytes [Data], then [ReadErr]
    (a checksum mismatch or a truncated stream) or the end of the file. *)
Record zfile := mkZfile {
  Name : string;
  IsDir : bool;
  Mode : N;
  OpenErr : error;
  Data : list byte;
  ReadErr : error
}.

Inductive fsop := OpStat | OpLstat | OpReadDir | OpMkdir | OpOpen | OpWrite.

(** Failures the operating system injects. *)
Inductive fault := FPerm | FIO | FNoSpace.

Definition faultErrno (f : fault) : errno :=
  match f with FPerm => EACCES | FIO => EIO | FNoSpace => ENOSPC end.

(** What the program cannot see into: which system calls fail for a
    reason outside the shape of the tree, and what [archive/zip] makes of
    the bytes of a file. *)
Record Env := mkEnv {
  faultOf : fsop -> string -> option fault;
  zipDecode : list byte -> list zfile + err
}.

(** The line feed that ends every message. *)
Definition nl : string := String (ascii_of_nat 10) "".

Definition setNodes (w : World) (nd : gmap string node) : World :=
  mkWorld nd (handles w) (stdout w).

Definition Printf (msg : string) (w : World) : World :=
  mkWorld (nodes w) (handles w) (stdout w ++ [msg]).

Definition openHandle (h : handle) (w : World) : World :=
  mkWorld (nodes w) (h :: handles w) (stdout w).

(** [Close()] on a descriptor. *)
Fixpoint removeFirst (h : handle) (l : list handle) : list handle :=
  match l with
  | [] => []
  | x :: rest => if decide (x = h) then rest else x :: removeFirst h rest
  end.

Definition Close (h : handle) (w : World) : World :=
  mkWorld (nodes w) (removeFirst h (handles w)) (stdout w).

(** Paths that name a directory whatever the tree holds: the root, the
    working directory and its ancestors. *)
Definition implicitDir (key : string) : bool :=
  String.eqb key "/" || String.eqb key "." ||
  forallb (String.eqb "..") (Strings.splitSlash "" key).

Definition nodeAt (nd : gmap string node) (key : string) : option node :=
  if implicitDir key then Some NDir else nd !! key.

Definition isFileAt (nd : gmap string node) (key : string) : bool :=
  match nodeAt nd key with Some (NFile _ _) => true | _ => false end.

(** Path resolution: the node a name leads to, or why there is none. *)
Definition resolve (nd : gmap string node) (name : string) : node + errno :=
  if String.eqb name "" then inr ENOENT
  else
    let key := Filepath.Clean name in
    match nodeAt nd key with
    | Some n => inl n
    | None =>
        if existsb (isFileAt nd) (Filepath.ancestors key)
        then inr ENOTDIR else inr ENOENT
    end.

(** [os.Stat(name)] and [os.Lstat(name)] (the tree has no symbolic
    links): the file's kind, or the error. *)
Definition statWith (op : fsop) (opname : string)
  (env : Env) (name : string) (w : World) : node + err :=
  match faultOf env op (Filepath.Clean name) with
  | Some f => inr (PathError opname name (faultErrno f))
  | None =>
      match resolve (nodes w) name with
      | inl n => inl n
      | inr e => inr (PathError opname name e)
      end
  end.

Definition Stat := statWith OpStat "stat".
Definition Lstat := statWith OpLstat "lstat".

Definition statErr (r : node + err) : error :=
  match r with inl _ => None | inr e => Some e end.

(** The directories of [dirs], outermost first, found or made in turn. *)
Fixpoint mkdirs (env : Env) (dirs : list string) (nd : gmap string node)
  : gmap string node * error :=
  match dirs with
  | [] => (nd, None)
  | d :: rest =>
      match nodeAt nd d with
      | Some NDir => mkdirs env rest nd
      | Some (NFile _ _) => (nd, Some (PathError "mkdir" d ENOTDIR))
      | None =>
          match faultOf env OpMkdir d with
          | Some f => (nd, Some (PathError "mkdir" d (faultErrno f)))
          | None => mkdirs env rest (<[d := NDir]> nd)
          end
      end
  end.

(** [os.MkdirAll(path, perm)]: creates the directory and any missing
    parents; nothing to do, and no error, when it is there already. *)
Definition MkdirAll (env : Env) (path : string) (w : World) : World * error :=
  if String.eqb path "" then (w, Some (PathError "mkdir" path ENOENT))
  else
    let '(nd, e) :=
      mkdirs env (Filepath.ancestors (Filepath.Clean path)) (nodes w) in
    (setNodes w nd, e).

(** [os.OpenFile(name, O_WRONLY|O_CREATE|O_TRUNC, perm)]. *)
Definition OpenFile (env : Env) (name : string) (perm : N) (w : World)
  : World * (handle + err) :=
  if String.eqb name "" then (w, inr (PathError "open" name ENOENT))
  else
    let key := Filepath.Clean name in
    match faultOf env OpOpen key with
    | Some f => (w, inr (PathError "open" name (faultErrno f)))
    | None =>
        match resolve (nodes w) (Filepath.Dir key) with
        | inr e => (w, inr (PathError "open" name e))
        | inl (NFile _ _) => (w, inr (PathError "open" name ENOTDIR))
        | inl NDir =>
            match nodeAt (nodes w) key with
            | Some NDir => (w, inr (PathError "open" name EISDIR))
            | Some (NFile m _) =>
                (openHandle (HOut key)
                   (setNodes w (<[key := NFile m []]> (nodes w))),
                 inl (HOut key))
            | None =>
                (openHandle (HOut key)
                   (setNodes w (<[key := NFile perm []]> (nodes w))),
                 inl (HOut key))
            end
        end
    end.

(** [f.Open()] on an archive entry. *)
Definition zOpen (f : zfile) (w : World) : World * (handle + err) :=
  match OpenErr f with
  | Some e => (w, inr e)
  | None => (openHandle (HEntry (Name f)) w, inl (HEntry (Name f)))
  end.

Definition handleKey (h : handle) : string :=
  match h with HZip k => k | HOut k => k | HEntry k => k end.

(** [Write] on an open output file: the bytes go to the end. *)
Definition appendData (key : string) (bs : list byte)
  (nd : gmap string node) : gmap string node :=
  match nd !! key with
  | Some (NFile m d) => <[key := NFile m (d ++ bs)]> nd
  | _ => nd
  end.

(** [io.Copy(outFile, rc)]: the bytes the stream delivers are written
    to the file; the error is the first one met, writing or reading. *)
Definition ioCopy (env : Env) (outFile : handle) (f : zfile) (w : World)
  : World * error :=
  let key := handleKey outFile in
  match faultOf env OpWrite key with
  | Some fl => (w, Some (PathError "write" key (faultErrno fl)))
  | None => (setNodes w (appendData key (Data f) (nodes w)), ReadErr f)
  end.

(** [zip.OpenReader(name)]: opens the file and reads its directory. *)
Definition OpenReader (env : Env) (name : string) (w : World)
  : World * (list zfile + err) :=
  if String.eqb name "" then (w, inr (PathError "open" name ENOENT))
  else
    let key := Filepath.Clean name in
    match faultOf env OpOpen key with
    | Some f => (w, inr (PathError "open" name (faultErrno f)))
    | None =>
        match resolve (nodes w) name with
        | inr e => (w, inr (PathError "open" name e))
        | inl NDir => (w, inr (PathError "read" name EISDIR))
        | inl (NFile _ data) =>
            match zipDecode env data with
            | inl files => (openHandle (HZip key) w, inl files)
            | inr e => (w, inr e)
            end
        end
    end.

(* ===================================================================== *)
(** ** [extractZip] *)
(* ===================================================================== *)

(** The body of the loop [for _, f := range r.File] for one entry; the
    result [Some e] is [return e], and [None] goes on to the next entry. *)
Definition extractEntry (env : Env) (destDir : string) (f : zfile)
  (w : World) : World * error :=
  let fpath := Filepath.Join [destDir; Name f] in
  if IsDir f then
    let '(w1, _) := MkdirAll env fpath w in
    (w1, None)
  else
    let '(w1, err) := MkdirAll env (Filepath.Dir fpath) w in
    match err with
    | Some e => (w1, Some e)
    | None =>
        match OpenFile env fpath (Mode f) w1 with
        | (w2, inr e) => (w2, Some e)
        | (w2, inl outFile) =>
            match zOpen f w2 with
            | (w3, inr e) => (Close outFile w3, Some e)
            | (w3, inl rc) =>
                let '(w4, err) := ioCopy env outFile f w3 in
                let w5 := Close outFile w4 in
                let w6 := Close rc w5 in
                (w6, err)
            end
        end
    end.

Fixpoint extractEntries (env : Env) (destDir : string) (fs : list zfile)
  (w : World) : World * error :=
  match fs with
  | [] => (w, None)
  | f :: rest =>
      match extractEntry env destDir f w with
      | (w1, Some e) => (w1, Some e)
      | (w1, None) => extractEntries env destDir rest w1
      end
  end.

(** [func extractZip(zipPath string, destDir string) error]. *)
Definition extractZip (env : Env) (zipPath destDir : string) (w : World)
  : World * error :=
  match OpenReader env zipPath w with
  | (w1, inr e) =>
      if decide (e = ErrFormat) then
        (Printf ("Error: " ++ zipPath ++
                 " is not a valid zip file and will be skipped." ++ nl) w1, None)
      else (w1, Some e)
  | (w1, inl files) =>
      let r := HZip (Filepath.Clean zipPath) in
      let '(w2, _) := MkdirAll env destDir w1 in
      let '(w3, res) := extractEntries env destDir files w2 in
      (Close r w3, res)                       (* defer r.Close() *)
  end.

(* ===================================================================== *)
(** ** [filepath.Walk] *)
(* ===================================================================== *)

(** [filepath.Base] of a cleaned path: its last element. *)
Definition Base (key : string) : string :=
  List.last (Strings.splitSlash "" key) "".

Fixpoint insertSorted (x : string) (l : list string) : list string :=
  match l with
  | [] => [x]
  | y :: rest =>
      if String.leb x y then x :: l else y :: insertSorted x rest
  end.

Definition sortNames (l : list string) : list string :=
  fold_right insertSorted [] l.

(** The names in a directory, sorted, as [readDirNames] of
    [path/filepath] returns them. *)
Definition readDirNames (env : Env) (dir : string) (w : World)
  : list string + err :=
  let key := Filepath.Clean dir in
  match faultOf env OpReadDir key with
  | Some f => inr (PathError "open" dir (faultErrno f))
  | None =>
      inl (sortNames
             (omap (fun kv : string * node =>
                      if implicitDir (fst kv) then None
                      else if String.eqb (Filepath.Dir (fst kv)) key
                      then Some (Base (fst kv)) else None)
                   (map_to_list (nodes w))))
  end.

(** Where the walk stands: the directories entered and not yet left,
    innermost first, each with its names still to visit. *)
Definition frames := list (string * list string).

(** The discovery goroutine of [main]. *)
Inductive walkerState :=
  | WkStart (root : string)               (* about to call [filepath.Walk] *)
  | WkWalk (stk : frames)                 (* inside [Walk] *)
  | WkSendPath (path : string) (stk : frames)   (* at [pathsChan <- path] *)
  | WkSendErr (e : err)                   (* at [errChan <- err] *)
  | WkClose                               (* at [close(pathsChan)] *)
  | WkDone.

(** The function literal passed to [filepath.Walk], up to its channel
    operation: with an error it goes to send it, and what it returns
    then ends the walk; a regular file named [*.zip] goes to the queue;
    anything else lets the walk go on. *)
Definition walkFn (path : string) (info : option node) (err : error)
  (stk : frames) : walkerState :=
  match err with
  | Some e => WkSendErr e
  | None =>
      match info with
      | Some (NFile _ _) =>
          if Strings.HasSuffix path ".zip" then WkSendPath path stk
          else WkWalk stk
      | _ => WkWalk stk
      end
  end.

(** [walk(path, info, walkFn)] of [path/filepath], up to the first
    channel operation of the callback. *)
Definition walkEnter (env : Env) (w : World) (path : string) (info : node)
  (stk : frames) : walkerState :=
  match info with
  | NFile _ _ => walkFn path (Some info) None stk
  | NDir =>
      match readDirNames env path w with
      | inr e => walkFn path (Some info) (Some e) stk
      | inl names => walkFn path (Some info) None ((path, names) :: stk)
      end
  end.

(** The next entry of the walk: [Lstat] it, then the callback. *)
Definition walkVisit (env : Env) (w : World) (path : string) (stk : frames)
  : walkerState :=
  match Lstat env path w with
  | inr e => walkFn path None (Some e) stk
  | inl info => walkEnter env w path info stk
  end.

(* ===================================================================== *)
(** ** Channels and goroutines *)
(* ===================================================================== *)

Record chan (A : Type) := mkChan {
  buf : list A;
  cap : nat;
  closed : bool
}.
Arguments mkChan {A} _ _ _.
Arguments buf {A} _.
Arguments cap {A} _.
Arguments closed {A} _.

(** [make(chan A, n)]. *)
Definition makeChan {A} (n : nat) : chan A := mkChan [] n false.

(** One [worker] goroutine, by the statement it stands at. *)
Inductive workerState :=
  | WIdle                                  (* at [range pathsChan] *)
  | WGot (path : string)                   (* at [os.Stat(destDir)] *)
  | WExtract (path destDir : string)       (* at [extractZip(path, destDir)] *)
  | WSendErr (e : err)                     (* at [errChan <- err] *)
  | WDone.                                 (* returned; [wg.Done()] ran *)

#[global] Instance workerState_eq_dec : EqDecision workerState.
Proof. solve_decision. Defined.

(** The main goroutine, in its loop [for err := range errChan]. *)
Inductive mainState :=
  | MRecv                      (* at the receive *)
  | MGot (e : error)           (* received [e], at [if err != nil] *)
  | MExited (code : nat).      (* the process is gone *)

Inductive actor :=
  | AWalker
  | AWorker (i : nat)
  | ACloser
  | AMain.

#[global] Instance actor_eq_dec : EqDecision actor.
Proof. solve_decision. Defined.

Record state := mkState {
  world : World;
  walker : walkerState;
  pathsChan : chan string;
  errChan : chan error;
  workers : list workerState;
  wg : nat;                    (* the counter of the [sync.WaitGroup] *)
  closerDone : bool;           (* [close(errChan)] ran *)
  mainSt : mainState
}.

(** What a tick did. *)
Inductive event :=
  | EvBlocked                              (* nothing: blocked, or finished *)
  | EvVisit                                (* the walk moved on, nothing sent *)
  | EvFound (path : string)                (* the walk met an archive *)
  | EvWalkErr (e : err)                    (* the walk met an error *)
  | EvEnqueue (path : string)              (* [pathsChan <- path] done *)
  | EvSendErr (a : actor) (e : err)        (* [errChan <- err] done *)
  | EvClosePaths                           (* [close(pathsChan)] *)
  | EvRecv (i : nat) (path : string)       (* worker [i] received a task *)
  | EvSkip (i : nat) (path : string)       (* destination there: skipped *)
  | EvBegin (i : nat) (path : string)      (* destination absent: extract *)
  | EvExtracted (i : nat) (path : string) (res : error)
  | EvWorkerDone (i : nat)                 (* queue drained and closed *)
  | EvCloseErrs                            (* [close(errChan)] *)
  | EvMainRecv (e : error)
  | EvMainNext                             (* a nil error: loop again *)
  | EvExit (code : nat)
  | EvPanic.                               (* send on a closed channel *)

#[global] Instance event_eq_dec : EqDecision event.
Proof. solve_decision. Defined.

Definition alive (s : state) : bool :=
  match mainSt s with MExited _ => false | _ => true end.

Definition setWorld (s : state) (w : World) : state :=
  mkState w (walker s) (pathsChan s) (errChan s) (workers s) (wg s)
    (closerDone s) (mainSt s).
Definition setWalker (s : state) (k : walkerState) : state :=
  mkState (world s) k (pathsChan s) (errChan s) (workers s) (wg s)
    (closerDone s) (mainSt s).
Definition setPaths (s : state) (c : chan string) : state :=
  mkState (world s) (walker s) c (errChan s) (workers s) (wg s)
    (closerDone s) (mainSt s).
Definition setErrs (s : state) (c : chan error) : state :=
  mkState (world s) (walker s) (pathsChan s) c (workers s) (wg s)
    (closerDone s) (mainSt s).
Definition setWorker (s : state) (i : nat) (ws : workerState) : state :=
  mkState (world s) (walker s) (pathsChan s) (errChan s)
    (<[i := ws]> (workers s)) (wg s) (closerDone s) (mainSt s).
Definition setWg (s : state) (n : nat) : state :=
  mkState (world s) (walker s) (pathsChan s) (errChan s) (workers s) n
    (closerDone s) (mainSt s).
Definition setCloser (s : state) (b : bool) : state :=
  mkState (world s) (walker s) (pathsChan s) (errChan s) (workers s) (wg s)
    b (mainSt s).
Definition setMain (s : state) (m : mainState) : state :=
  mkState (world s) (walker s) (pathsChan s) (errChan s) (workers s) (wg s)
    (closerDone s) m.

(** The outcome of a channel send attempted now. *)
Inductive sendResult :=
  | Sent (s : state)
  | WouldBlock
  | Panics.

(** [errChan <- e].  A closed channel panics; a buffer with room takes
    the value; with no buffer at all the value goes straight to the main
    goroutine when it waits at its receive; otherwise the sender blocks. *)
Definition sendErr (e : err) (s : state) : sendResult :=
  let c := errChan s in
  if closed c then Panics
  else if (List.length (buf c) <? cap c)%nat then
    Sent (setErrs s (mkChan (buf c ++ [Some e]) (cap c) (closed c)))
  else if (cap c =? 0)%nat then
    match mainSt s with
    | MRecv => Sent (setMain s (MGot (Some e)))
    | _ => WouldBlock
    end
  else WouldBlock.

(** [pathsChan <- path].  The queue has as many slots as there are
    workers, so with no slot there is no receiver either. *)
Definition sendPath (path : string) (s : state) : sendResult :=
  let c := pathsChan s in
  if closed c then Panics
  else if (List.length (buf c) <? cap c)%nat then
    Sent (setPaths s (mkChan (buf c ++ [path]) (cap c) (closed c)))
  else WouldBlock.

(** A run-time panic ends the process with status 2. *)
Definition panic (s : state) : state * event :=
  (setMain s (MExited 2), EvPanic).

Definition eventOfWalker (k : walkerState) : event :=
  match k with
  | WkSendErr e => EvWalkErr e
  | WkSendPath p _ => EvFound p
  | _ => EvVisit
  end.

(** One step of the discovery goroutine:
    [filepath.Walk(startDir, ...); close(pathsChan)]. *)
Definition stepWalker (env : Env) (s : state) : state * event :=
  match walker s with
  | WkStart root =>
      let k := walkVisit env (world s) root [] in
      (setWalker s k, eventOfWalker k)
  | WkWalk [] => (setWalker s WkClose, EvVisit)
  | WkWalk ((dir, []) :: stk) => (setWalker s (WkWalk stk), EvVisit)
  | WkWalk ((dir, name :: rest) :: stk) =>
      let k := walkVisit env (world s) (Filepath.Join [dir; name])
                 ((dir, rest) :: stk) in
      (setWalker s k, eventOfWalker k)
  | WkSendPath path stk =>
      match sendPath path s with
      | Sent s1 => (setWalker s1 (WkWalk stk), EvEnqueue path)
      | WouldBlock => (s, EvBlocked)
      | Panics => panic s
      end
  | WkSendErr e =>
      match sendErr e s with
      | Sent s1 => (setWalker s1 WkClose, EvSendErr AWalker e)
      | WouldBlock => (s, EvBlocked)
      | Panics => panic s
      end
  | WkClose =>
      let c := pathsChan s in
      (setWalker (setPaths s (mkChan (buf c) (cap c) true)) WkDone,
       EvClosePaths)
  | WkDone => (s, EvBlocked)
  end.

(** The Destination Directory of a task. *)
Definition destDirOf (path : string) : string :=
  Strings.TrimSuffix path ".zip".

(** One step of [worker(wg, pathsChan, errChan)], goroutine [i]. *)
Definition stepWorker (env : Env) (i : nat) (s : state) : state * event :=
  match workers s !! i with
  | None => (s, EvBlocked)
  | Some WIdle =>
      let c := pathsChan s in
      match buf c with
      | path :: rest =>
          (setWorker (setPaths s (mkChan rest (cap c) (closed c)))
             i (WGot path),
           EvRecv i path)
      | [] =>
          if closed c
          then (setWg (setWorker s i WDone) (wg s - 1), EvWorkerDone i)
          else (s, EvBlocked)
      end
  | Some (WGot path) =>
      let destDir := destDirOf path in
      if IsNotExist (statErr (Stat env destDir (world s))) then
        (setWorker
           (setWorld s
              (Printf ("Extracting " ++ path ++ "..." ++ nl) (world s)))
           i (WExtract path destDir),
         EvBegin i path)
      else
        (setWorker
           (setWorld s
              (Printf ("Directory " ++ destDir ++
                       " already exists, skipping..." ++ nl) (world s)))
           i WIdle,
         EvSkip i path)
  | Some (WExtract path destDir) =>
      let '(w1, res) := extractZip env path destDir (world s) in
      match res with
      | Some e =>
          (setWorker (setWorld s w1) i (WSendErr e), EvExtracted i path res)
      | None =>
          (setWorker (setWorld s w1) i WIdle, EvExtracted i path res)
      end
  | Some (WSendErr e) =>
      match sendErr e s with
      | Sent s1 =>
          (setWg (setWorker s1 i WDone) (wg s1 - 1), EvSendErr (AWorker i) e)
      | WouldBlock => (s, EvBlocked)
      | Panics => panic s
      end
  | Some WDone => (s, EvBlocked)
  end.

(** One step of [wg.Wait(); close(errChan)]. *)
Definition stepCloser (s : state) : state * event :=
  if closerDone s then (s, EvBlocked)
  else if (wg s =? 0)%nat then
    let c := errChan s in
    (setCloser (setErrs s (mkChan (buf c) (cap c) true)) true, EvCloseErrs)
  else (s, EvBlocked).

(** One step of the loop that ends [main]. *)
Definition stepMain (s : state) : state * event :=
  match mainSt s with
  | MRecv =>
      let c := errChan s in
      match buf c with
      | e :: rest =>
          (setMain (setErrs s (mkChan rest (cap c) (closed c))) (MGot e),
           EvMainRecv e)
      | [] =>
          if closed c then (setMain s (MExited 0), EvExit 0)
          else (s, EvBlocked)
      end
  | MGot (Some e) =>
      (setMain
         (setWorld s
            (Printf ("An error occurred: " ++ errorString e ++ nl) (world s)))
         (MExited 1),
       EvExit 1)
  | MGot None => (setMain s MRecv, EvMainNext)
  | MExited _ => (s, EvBlocked)
  end.

(** The goroutine [a] is given the processor for one step. *)
Definition exec (env : Env) (a : actor) (s : state) : state * event :=
  if alive s then
    match a with
    | AWalker => stepWalker env s
    | AWorker i => stepWorker env i s
    | ACloser => stepCloser s
    | AMain => stepMain s
    end
  else (s, EvBlocked).

(** [main] once the flags are read and every goroutine is started:
    [numWorkers] workers, the walker on [startDir], the closer, and the
    main goroutine at its receive. *)
Definition init (numWorkers : nat) (startDir : string) (w : World) : state :=
  mkState w (WkStart startDir) (makeChan numWorkers) (makeChan numWorkers)
    (replicate numWorkers WIdle) numWorkers false MRecv.

(** The state after [n] ticks of the schedule [sched]. *)
Fixpoint run (env : Env) (sched : nat -> actor) (s0 : state) (n : nat)
  : state :=
  match n with
  | O => s0
  | S k => fst (exec env (sched k) (run env sched s0 k))
  end.

(** What tick [n] did. *)
Definition eventAt (env : Env) (sched : nat -> actor) (s0 : state) (n : nat)
  : event :=
  snd (exec env (sched n) (run env sched s0 n)).

(** The goroutines of a run with [n] workers. *)
Definition goroutines (n : nat) : list actor :=
  AWalker :: ACloser :: AMain :: map AWorker (seq 0 n).

(** Every goroutine is given the processor again and again. *)
Definition fair (n : nat) (sched : nat -> actor) : Prop :=
  forall a, In a (goroutines n) ->
  forall t, exists u, t <= u /\ sched u = a.

(** Worker [i] is running: it has not returned and the process lives. *)
Definition running (i : nat) (s : state) : Prop :=
  alive s = true /\
  exists ws, workers s !! i = Some ws /\ ws <> WDone.

(* ===================================================================== *)
(** ** Properties of paths, of extractions and of runs *)
(* ===================================================================== *)

(** A path element: a string with no slash in it. *)
Fixpoint noSlash (s : string) : bool :=
  match s with
  | EmptyString => true
  | String c rest => negb (Ascii.eqb c "/"%char) && noSlash rest
  end.

(** An element [Clean] keeps: a name, neither empty nor [.]. *)
Definition kept (c : string) : bool :=
  noSlash c && negb (String.eqb c "") && negb (String.eqb c ".").

(** The elements [Clean] ends with, last one first: names, and below
    them, in a relative path only, the leading [..] elements. *)
Fixpoint cleaned (isRooted : bool) (out : list string) : Prop :=
  match out with
  | [] => True
  | c :: below =>
      kept c = true /\ cleaned isRooted below /\
      (c = ".." ->
       isRooted = false /\
       match below with [] => True | b :: _ => b = ".." end)
  end.

(** The output path of entry [f]: [fpath] in the loop of [extractZip]. *)
Definition outPath (destDir : string) (f : zfile) : string :=
  Filepath.Join [destDir; Name f].

(** Entry [f] is a file, its parent directory is there or made, the
    output file and the entry's stream open, and then [io.Copy] returns
    the error [e]. *)
Definition copyFails (env : Env) (destDir : string) (f : zfile) (w : World)
  (e : err) : Prop :=
  IsDir f = false /\
  exists w1 w2 out w3 rc,
    MkdirAll env (Filepath.Dir (Filepath.Join [destDir; Name f])) w
      = (w1, None) /\
    OpenFile env (Filepath.Join [destDir; Name f]) (Mode f) w1
      = (w2, inl out) /\
    zOpen f w2 = (w3, inl rc) /\
    (ioCopy env out f w3).2 = Some e.

(** The reading of "every entry already written before the failure remains
    on disk unchanged" that looks at the output of each earlier entry:
    whenever the entries before [f] are extracted and the copy of [f]
    fails, [extractZip] returns the error and the output of each earlier
    file entry is as it was when [f] began. *)
Definition earlierOutputsStay (env : Env) (zipPath destDir : string)
  (w : World) : Prop :=
  forall w1 pre f post w2 e,
    OpenReader env zipPath w = (w1, inl (pre ++ f :: post)%list) ->
    extractEntries env destDir pre (MkdirAll env destDir w1).1
      = (w2, None) ->
    copyFails env destDir f w2 e ->
    (extractZip env zipPath destDir w).2 = Some e /\
    forall g, In g pre -> IsDir g = false ->
      nodes (extractZip env zipPath destDir w).1 !! outPath destDir g
      = nodes w2 !! outPath destDir g.

(** The state a worker leaves when it skips the task [path]. *)
Definition skipped (s : state) (i : nat) (path : string) : state * event :=
  (setWorker
     (setWorld s
        (Printf ("Directory " ++ destDirOf path ++
                 " already exists, skipping..." ++ nl) (world s)))
     i WIdle,
   EvSkip i path).

(** The workers that have not returned. *)
Fixpoint countLive (l : list workerState) : nat :=
  match l with
  | [] => 0
  | ws :: rest => (if decide (ws = WDone) then 0 else 1) + countLive rest
  end.

Definition errsNonNil (l : list error) : Prop := Forall (fun x => x <> None) l.

(** What holds of every state of a run. *)
Record Inv (s : state) : Prop := mkInv {
  inv_capPaths : cap (pathsChan s) = List.length (workers s);
  inv_capErrs : cap (errChan s) = List.length (workers s);
  inv_pathsBound : List.length (buf (pathsChan s)) <= cap (pathsChan s);
  inv_wg : wg s = countLive (workers s);
  inv_errsClosed : closed (errChan s) = true -> wg s = 0;
  inv_pathsClosed : closed (pathsChan s) = true -> walker s = WkDone;
  inv_errsNonNil : errsNonNil (buf (errChan s));
  inv_mainGot : mainSt s <> MGot None;
  inv_errsRoom :
    walker s <> WkClose -> walker s <> WkDone ->
    List.length (buf (errChan s)) + wg s <= List.length (workers s)
}.

(** The walker is inside [filepath.Walk]. *)
Definition walking (k : walkerState) : Prop :=
  match k with
  | WkWalk _ | WkSendPath _ _ | WkSendErr _ => True
  | _ => False
  end.

(** The events of worker [i] that take or handle a task. *)
Definition taskEvent (i : nat) (ev : event) : bool :=
  match ev with
  | EvRecv j _ | EvSkip j _ | EvBegin j _ | EvExtracted j _ _ =>
      bool_decide (i = j)
  | _ => false
  end.

(** The events of the walk: an entry visited, an archive found or put on
    the queue, an error met. *)
Definition discoveryEvent (ev : event) : bool :=
  match ev with
  | EvVisit | EvFound _ | EvWalkErr _ | EvEnqueue _ => true
  | _ => false
  end.

(** What a tick of a goroutine other than main may do to main's place
    and to the Error Channel: nothing, a panic, a value handed over to
    main at its receive, or a value added at the end of the buffer. *)
Definition mainKept (s s' : state) : Prop :=
  mainSt s' = mainSt s \/ mainSt s' = MExited 2 \/
  (mainSt s = MRecv /\ exists e, mainSt s' = MGot (Some e)).

Definition errsGrow (s s' : state) : Prop :=
  buf (errChan s') = buf (errChan s) \/
  exists e, buf (errChan s') = (buf (errChan s) ++ [Some e])%list.

(** What a tick of a goroutine other than the walker may do to the Work
    Queue: nothing, or take its first task. *)
Definition pathsShrink (s s' : state) : Prop :=
  cap (pathsChan s') = cap (pathsChan s) /\
  closed (pathsChan s') = closed (pathsChan s) /\
  (buf (pathsChan s') = buf (pathsChan s) \/
   exists p, buf (pathsChan s) = p :: buf (pathsChan s')).

(** The steps a worker still has to make before it is back at the
    receive, or gone. *)
Definition rank (ws : workerState) : nat :=
  match ws with
  | WGot _ => 3
  | WExtract _ _ => 2
  | WIdle => 1
  | WSendErr _ => 1
  | WDone => 0
  end.

Fixpoint workLeft (l : list workerState) : nat :=
  match l with
  | [] => 0
  | ws :: rest => rank ws + workLeft rest
  end.

(** The Work Queue has a free slot. *)
Definition room (s : state) : Prop :=
  List.length (buf (pathsChan s)) < cap (pathsChan s).

(** Tick [v] of the run completes the send of [p] the walker stands at:
    [p] goes to the end of the queue and the walk resumes. *)
Definition sendCompletes (env : Env) (sched : nat -> actor) (s0 : state)
  (p : string) (stk : frames) (v : nat) : Prop :=
  walker (run env sched s0 v) = WkSendPath p stk /\
  eventAt env sched s0 v = EvEnqueue p /\
  buf (pathsChan (run env sched s0 (S v)))
  = (buf (pathsChan (run env sched s0 v)) ++ [p])%list /\
  walker (run env sched s0 (S v)) = WkWalk stk.

(** The walker past the error [e]: at the send of the error, at the close
    of the queue, or done. *)
Definition pastError (e : err) (k : walkerState) : Prop :=
  k = WkSendErr e \/ k = WkClose \/ k = WkDone.

(** Consumers are running in state [s], decided: the walker is not at a
    send, or the process lives and some worker has not returned. *)
Definition consumersOk (s : state) : bool :=
  match walker s with
  | WkSendPath _ _ =>
      alive s && existsb (fun ws => bool_decide (ws <> WDone)) (workers s)
  | _ => true
  end.

(* ===================================================================== *)
(** ** Scenarios *)
(* ===================================================================== *)

Definition noFaults : fsop -> string -> option fault := fun _ _ => None.

Definition hi : list byte := [x68; x69].

Module Scenario.

(** An archive of three files whose second entry has a bad checksum. *)
Definition fileA := mkZfile "a.txt" false 420 None hi None.
Definition fileBad := mkZfile "b.txt" false 420 None [x68] (Some ErrChecksum).
Definition fileC := mkZfile "c.txt" false 420 None hi None.

(** An entry stored under the name of an earlier one, with a bad
    checksum. *)
Definition fileAgain := mkZfile "a.txt" false 420 None [] (Some ErrChecksum).

(** Entries that climb out of the destination. *)
Definition fileUp := mkZfile "../x.txt" false 420 None hi None.
Definition fileUpUp := mkZfile "../../evil.txt" false 420 None hi None.

(** The example of the specification: a file [a/b.txt] and an empty
    directory [c/]. *)
Definition fileAB := mkZfile "a/b.txt" false 420 None hi None.
Definition dirC := mkZfile "c/" true 493 None [] None.

(** The archive format, for the scenarios: the first byte of a file
    picks the archive it holds, and a file that does not start with one
    of these bytes is not an archive. *)
Definition decode (data : list byte) : list zfile + err :=
  match data with
  | x01 :: _ => inl [fileAB; dirC]
  | x02 :: _ => inl [fileA; fileBad; fileC]
  | x03 :: _ => inl [fileA; fileAgain]
  | x04 :: _ => inl [fileUp]
  | x05 :: _ => inl [fileUpUp]
  | _ => inr ErrFormat
  end.

Definition plainEnv : Env := mkEnv noFaults decode.

Definition tree (l : list (string * node)) : World :=
  mkWorld (list_to_map l) [] [].

(** [/r] holds the archive [x.zip]. *)
Definition oneArchive (kind : byte) : World :=
  tree [("/r", NDir); ("/r/x.zip", NFile 420 [kind])].

(** [/r] holds four archives, one of them not an archive at all. *)
Definition worldFour : World :=
  tree [("/r", NDir); ("/r/x.zip", NFile 420 [x01]);
        ("/r/bad.zip", NFile 420 []); ("/r/sub", NDir);
        ("/r/sub/y.zip", NFile 420 [x01]);
        ("/r/sub/z.zip", NFile 420 [x01])].

(** [/r] refuses new entries, and holds the archive [a.zip] next to a
    file [x.txt] that can be written. *)
Definition envReadOnly : Env :=
  mkEnv (fun op key =>
           match op with
           | OpMkdir => if String.eqb key "/r/a" then Some FPerm else None
           | _ => None
           end)
        decode.

Definition worldReadOnly : World :=
  tree [("/r", NDir); ("/r/a.zip", NFile 420 [x04]);
        ("/r/x.txt", NFile 420 [x00])].

(** The working directory holds an archive whose whole name is [.zip]. *)
Definition worldDotZip : World :=
  tree [(".zip", NFile 420 [x01])].

(** [/srv/in] holds an archive with an entry that climbs two levels. *)
Definition worldSrv : World :=
  tree [("/srv", NDir); ("/srv/in", NDir);
        ("/srv/in/a.zip", NFile 420 [x05])].

(** [/r] holds an archive with a bad checksum and a directory [b] that
    cannot be read. *)
Definition envUnreadable : Env :=
  mkEnv (fun op key =>
           match op with
           | OpReadDir => if String.eqb key "/r/b" then Some FPerm else None
           | _ => None
           end)
        decode.

Definition worldUnreadable : World :=
  tree [("/r", NDir); ("/r/a.zip", NFile 420 [x02]); ("/r/b", NDir)].

(** [/r] holds the archive [x.zip] and the directory [x]. *)
Definition worldExtracted : World :=
  tree [("/r", NDir); ("/r/x.zip", NFile 420 [x01]); ("/r/x", NDir)].

(** [os.Stat] on [/r/a] is refused. *)
Definition envStatDenied : Env :=
  mkEnv (fun op key =>
           match op with
           | OpStat => if String.eqb key "/r/a" then Some FPerm else None
           | _ => None
           end)
        decode.

(** One worker that has just received [path]; the walk is over. *)
Definition received (path : string) (w : World) : state :=
  mkState w WkDone (mkChan [] 1 true) (makeChan 1) [WGot path] 1 false MRecv.

(** The four goroutines of a run with one worker, each in turn. *)
Definition roundRobin (n : nat) : actor :=
  match n mod 4 with
  | 0 => AWalker
  | 1 => AMain
  | 2 => ACloser
  | _ => AWorker 0
  end.

(** The walker alone for the first [k] ticks, then each in turn. *)
Definition walkerFirst (k : nat) (n : nat) : actor :=
  if (n <? k)%nat then AWalker else roundRobin n.

(** The worker fails on its task and returns, the closer closes the
    Error Channel, and only then the walk reaches the directory it cannot
    read; main is not given the processor in between. *)
Definition walkerLate (n : nat) : actor :=
  nth n [AWalker; AWalker; AWalker;
         AWorker 0; AWorker 0; AWorker 0; AWorker 0;
         ACloser; AWalker; AWalker] AMain.

End Scenario.

(* ===================================================================== *)
(** ** Further properties of extractions and of runs *)
(* ===================================================================== *)

(** [w'] holds every directory of [w], and every file of [w] with the
    mode it had; only the bytes of files may differ. *)
Definition keepsKinds (w w' : World) : Prop :=
  forall k,
    (nodes w !! k = Some NDir -> nodes w' !! k = Some NDir) /\
    (forall m d, nodes w !! k = Some (NFile m d) ->
                 exists d', nodes w' !! k = Some (NFile m d')).

(** One more element on a path, as [prefixesFrom] adds it. *)
Definition addElem (acc c : string) : string :=
  if String.eqb acc "" then c
  else if String.eqb acc "/" then "/" ++ c
  else acc ++ "/" ++ c.

(** The ticks of [exec], one rule for each thing a goroutine can do. *)
Inductive step (env : Env) : actor -> state -> event -> state -> Prop :=
  | StBlocked a s :
      step env a s EvBlocked s
  | StWalkStart s root k :
      walker s = WkStart root ->
      k = walkVisit env (world s) root [] ->
      step env AWalker s (eventOfWalker k) (setWalker s k)
  | StWalkEnd s :
      walker s = WkWalk [] ->
      step env AWalker s EvVisit (setWalker s WkClose)
  | StWalkLeave s dir stk :
      walker s = WkWalk ((dir, []) :: stk) ->
      step env AWalker s EvVisit (setWalker s (WkWalk stk))
  | StWalkVisit s dir name rest stk k :
      walker s = WkWalk ((dir, name :: rest) :: stk) ->
      k = walkVisit env (world s) (Filepath.Join [dir; name])
            ((dir, rest) :: stk) ->
      step env AWalker s (eventOfWalker k) (setWalker s k)
  | StEnqueue s path stk :
      walker s = WkSendPath path stk ->
      closed (pathsChan s) = false ->
      List.length (buf (pathsChan s)) < cap (pathsChan s) ->
      step env AWalker s (EvEnqueue path)
        (setWalker
           (setPaths s (mkChan (buf (pathsChan s) ++ [path])%list
                          (cap (pathsChan s)) false))
           (WkWalk stk))
  | StEnqueuePanic s path stk :
      walker s = WkSendPath path stk ->
      closed (pathsChan s) = true ->
      step env AWalker s EvPanic (setMain s (MExited 2))
  | StWalkSend s e :
      walker s = WkSendErr e ->
      closed (errChan s) = false ->
      List.length (buf (errChan s)) < cap (errChan s) ->
      step env AWalker s (EvSendErr AWalker e)
        (setWalker
           (setErrs s (mkChan (buf (errChan s) ++ [Some e])%list
                         (cap (errChan s)) false))
           WkClose)
  | StWalkHand s e :
      walker s = WkSendErr e ->
      closed (errChan s) = false ->
      cap (errChan s) = 0 ->
      mainSt s = MRecv ->
      step env AWalker s (EvSendErr AWalker e)
        (setWalker (setMain s (MGot (Some e))) WkClose)
  | StWalkPanic s e :
      walker s = WkSendErr e ->
      closed (errChan s) = true ->
      step env AWalker s EvPanic (setMain s (MExited 2))
  | StClosePaths s :
      walker s = WkClose ->
      step env AWalker s EvClosePaths
        (setWalker
           (setPaths s (mkChan (buf (pathsChan s)) (cap (pathsChan s)) true))
           WkDone)
  | StRecv s i path rest :
      workers s !! i = Some WIdle ->
      buf (pathsChan s) = path :: rest ->
      step env (AWorker i) s (EvRecv i path)
        (setWorker
           (setPaths s (mkChan rest (cap (pathsChan s))
                          (closed (pathsChan s))))
           i (WGot path))
  | StDrained s i :
      workers s !! i = Some WIdle ->
      buf (pathsChan s) = [] ->
      closed (pathsChan s) = true ->
      step env (AWorker i) s (EvWorkerDone i)
        (setWg (setWorker s i WDone) (wg s - 1))
  | StBegin s i path :
      workers s !! i = Some (WGot path) ->
      IsNotExist (statErr (Stat env (destDirOf path) (world s))) = true ->
      step env (AWorker i) s (EvBegin i path)
        (setWorker
           (setWorld s
              (Printf ("Extracting " ++ path ++ "..." ++ nl) (world s)))
           i (WExtract path (destDirOf path)))
  | StSkip s i path :
      workers s !! i = Some (WGot path) ->
      IsNotExist (statErr (Stat env (destDirOf path) (world s))) = false ->
      step env (AWorker i) s (EvSkip i path) (skipped s i path).1
  | StExtracted s i path destDir w1 res :
      workers s !! i = Some (WExtract path destDir) ->
      extractZip env path destDir (world s) = (w1, res) ->
      step env (AWorker i) s (EvExtracted i path res)
        (setWorker (setWorld s w1) i
           (match res with Some e => WSendErr e | None => WIdle end))
  | StWorkerSend s i e :
      workers s !! i = Some (WSendErr e) ->
      closed (errChan s) = false ->
      List.length (buf (errChan s)) < cap (errChan s) ->
      step env (AWorker i) s (EvSendErr (AWorker i) e)
        (setWg
           (setWorker
              (setErrs s (mkChan (buf (errChan s) ++ [Some e])%list
                            (cap (errChan s)) false))
              i WDone)
           (wg s - 1))
  | StWorkerHand s i e :
      workers s !! i = Some (WSendErr e) ->
      closed (errChan s) = false ->
      cap (errChan s) = 0 ->
      mainSt s = MRecv ->
      step env (AWorker i) s (EvSendErr (AWorker i) e)
        (setWg (setWorker (setMain s (MGot (Some e))) i WDone) (wg s - 1))
  | StWorkerPanic s i e :
      workers s !! i = Some (WSendErr e) ->
      closed (errChan s) = true ->
      step env (AWorker i) s EvPanic (setMain s (MExited 2))
  | StCloseErrs s :
      closerDone s = false ->
      wg s = 0 ->
      step env ACloser s EvCloseErrs
        (setCloser
           (setErrs s (mkChan (buf (errChan s)) (cap (errChan s)) true))
           true)
  | StMainRecv s e rest :
      mainSt s = MRecv ->
      buf (errChan s) = e :: rest ->
      step env AMain s (EvMainRecv e)
        (setMain
           (setErrs s (mkChan rest (cap (errChan s)) (closed (errChan s))))
           (MGot e))
  | StMainDone s :
      mainSt s = MRecv ->
      buf (errChan s) = [] ->
      closed (errChan s) = true ->
      step env AMain s (EvExit 0) (setMain s (MExited 0))
  | StMainExit s e :
      mainSt s = MGot (Some e) ->
      step env AMain s (EvExit 1)
        (setMain
           (setWorld s
              (Printf ("An error occurred: " ++ errorString e ++ nl)
                 (world s)))
           (MExited 1))
  | StMainNext s :
      mainSt s = MGot None ->
      step env AMain s EvMainNext (setMain s MRecv).

Definition isZip (path : string) : Prop := Strings.HasSuffix path ".zip" = true.

(** Every task in the pipeline is named [*.zip], and a worker that is
    about to extract has the destination of its task. *)
Record TaskInv (s : state) : Prop := mkTaskInv {
  ti_queue : Forall isZip (buf (pathsChan s));
  ti_walker : forall p stk, walker s = WkSendPath p stk -> isZip p;
  ti_got : forall i p, workers s !! i = Some (WGot p) -> isZip p;
  ti_extract : forall i p d,
    workers s !! i = Some (WExtract p d) -> isZip p /\ d = destDirOf p
}.

(** The tasks put on the Work Queue, and the tasks taken from it, during
    the first [t] ticks of a run, oldest first. *)
Definition enqueuedBy (env : Env) (sched : nat -> actor) (s0 : state)
  (t : nat) : list string :=
  omap (fun v => match eventAt env sched s0 v with
                 | EvEnqueue p => Some p
                 | _ => None
                 end) (seq 0 t).

Definition receivedBy (env : Env) (sched : nat -> actor) (s0 : state)
  (t : nat) : list string :=
  omap (fun v => match eventAt env sched s0 v with
                 | EvRecv _ p => Some p
                 | _ => None
                 end) (seq 0 t).

(** An error has reached the Error Channel or main, or the process has
    ended on one. *)
Definition errSeen (s : state) : Prop :=
  buf (errChan s) <> [] \/ (exists e, mainSt s = MGot (Some e)) \/
  mainSt s = MExited 1 \/ mainSt s = MExited 2.

(** An error is held by a goroutine that has yet to send it, or has been
    seen. *)
Definition errorPending (s : state) : Prop :=
  (exists e, walker s = WkSendErr e) \/
  (exists i e, workers s !! i = Some (WSendErr e)) \/
  errSeen s.

(** The events that tell of a failure. *)
Definition failure (ev : event) : bool :=
  match ev with
  | EvWalkErr _ | EvSendErr _ _ | EvExtracted _ _ (Some _) | EvPanic => true
  | _ => false
  end.

Record ExitInv (s : state) : Prop := mkExitInv {
  ei_zero : mainSt s = MExited 0 ->
            closed (errChan s) = true /\ buf (errChan s) = [];
  ei_code : forall c, mainSt s = MExited c -> c <= 2;
  ei_done : forall i, workers s !! i = Some WDone ->
            (closed (pathsChan s) = true /\ buf (pathsChan s) = []) \/
            errSeen s
}.


(** The line [main] prints for the error [e]. *)
Definition errorLine (e : err) : string :=
  "An error occurred: " ++ errorString e ++ nl.


(** The states of a run on a start directory that [Lstat] refuses with
    [e]: no task is ever queued, the workers wait or have returned, and
    the error is on its way from the walker to the last line of the
    output. *)
Definition rootRefused (root : string) (e : err) (w0 : World) (s : state)
  : Prop :=
  buf (pathsChan s) = [] /\
  (forall i ws, workers s !! i = Some ws ->
     ws = WIdle \/ (ws = WDone /\ closed (pathsChan s) = true)) /\
  (((walker s = WkStart root \/ walker s = WkSendErr e) /\
    closed (pathsChan s) = false /\ world s = w0 /\
    buf (errChan s) = [] /\ mainSt s = MRecv)
   \/
   ((walker s = WkClose \/ walker s = WkDone) /\
    ((world s = w0 /\ buf (errChan s) = [Some e] /\ mainSt s = MRecv) \/
     (world s = w0 /\ buf (errChan s) = [] /\ mainSt s = MGot (Some e)) \/
     (world s = Printf (errorLine e) w0 /\ mainSt s = MExited 1)))).

(* ===================================================================== *)
(** ** Sanity checks of the model *)
(* ===================================================================== *)

Example clean_1 : Filepath.Clean "/srv/in/a/../../evil.txt" = "/srv/evil.txt".
Proof. reflexivity. Qed.
Example clean_2 : Filepath.Clean "a//b/./c/.." = "a/b".
Proof. reflexivity. Qed.
Example clean_3 : Filepath.Clean "../../a/../.." = "../../..".
Proof. reflexivity. Qed.
Example clean_4 : Filepath.Clean "" = "." /\ Filepath.Clean "/.." = "/".
Proof. split; reflexivity. Qed.
Example join_1 : Filepath.Join ["/srv/a"; "x/y.txt"] = "/srv/a/x/y.txt".
Proof. reflexivity. Qed.
Example join_2 : Filepath.Join [""; "x"] = "x" /\ Filepath.Join [""; ""] = "".
Proof. split; reflexivity. Qed.
Example dir_1 : Filepath.Dir "/srv/a/x/y.txt" = "/srv/a/x"
  /\ Filepath.Dir "y.txt" = "." /\ Filepath.Dir "/y" = "/".
Proof. repeat split; reflexivity. Qed.
Example anc_1 : Filepath.ancestors "/srv/a/x" = ["/srv"; "/srv/a"; "/srv/a/x"].
Proof. reflexivity. Qed.
Example anc_2 : Filepath.ancestors "a/x" = ["a"; "a/x"]
  /\ Filepath.ancestors "/" = [] /\ Filepath.ancestors "." = ["."].
Proof. repeat split; reflexivity. Qed.
Example trim_1 : Strings.TrimSuffix "/srv/a.zip" ".zip" = "/srv/a"
  /\ Strings.TrimSuffix "/srv/a.txt" ".zip" = "/srv/a.txt"
  /\ Strings.TrimSuffix "zip" ".zip" = "zip".
Proof. repeat split; reflexivity. Qed.

(** The archive of [a/b.txt] holding "hi" and the empty directory [c/],
    extracted to [/r/x]. *)
Example extract_tree :
  let done := extractZip Scenario.plainEnv "/r/x.zip" "/r/x"
                (Scenario.oneArchive x01) in
  done.2 = None /\
  nodes done.1 !! "/r/x/a/b.txt" = Some (NFile 420 hi) /\
  nodes done.1 !! "/r/x/c" = Some NDir /\
  handles done.1 = [] /\ stdout done.1 = [].
Proof. vm_compute. repeat split; reflexivity. Qed.

(** A zero-byte file named [*.zip]: a notice, no error. *)
Example extract_empty_file :
  let w := Scenario.tree [("/r", NDir); ("/r/x.zip", NFile 420 [])] in
  extractZip Scenario.plainEnv "/r/x.zip" "/r/x" w
  = (Printf ("Error: /r/x.zip is not a valid zip file and will be skipped."
             ++ nl) w, None).
Proof. reflexivity. Qed.

(** A whole run, one worker, each goroutine in turn: the four archives
    under [/r] are found in the order of the walk, three are extracted and
    one is reported, and the process exits with status 0. *)
Example run_four :
  let s := run Scenario.plainEnv Scenario.roundRobin
             (init 1 "/r" Scenario.worldFour) 80 in
  mainSt s = MExited 0 /\
  stdout (world s)
  = ["Extracting /r/bad.zip..." ++ nl;
     "Error: /r/bad.zip is not a valid zip file and will be skipped." ++ nl;
     "Extracting /r/sub/y.zip..." ++ nl;
     "Extracting /r/sub/z.zip..." ++ nl;
     "Extracting /r/x.zip..." ++ nl] /\
  nodes (world s) !! "/r/sub/z/a/b.txt" = Some (NFile 420 hi).
Proof. vm_compute. repeat split; reflexivity. Qed.

(** The same tree again: every destination made by the first run is
    there and its archive is skipped; the file that is not an archive is
    tried, and reported, again. *)
Example run_again :
  let s1 := run Scenario.plainEnv Scenario.roundRobin
              (init 1 "/r" Scenario.worldFour) 80 in
  let s2 := run Scenario.plainEnv Scenario.roundRobin
              (init 1 "/r" (mkWorld (nodes (world s1)) [] [])) 200 in
  mainSt s2 = MExited 0 /\
  stdout (world s2)
  = ["Extracting /r/bad.zip..." ++ nl;
     "Error: /r/bad.zip is not a valid zip file and will be skipped." ++ nl;
     "Directory /r/sub/y already exists, skipping..." ++ nl;
     "Directory /r/sub/z already exists, skipping..." ++ nl;
     "Directory /r/x already exists, skipping..." ++ nl].
Proof. vm_compute. repeat split; reflexivity. Qed.

(* ===================================================================== *)
(** ** Clean paths *)
(* ===================================================================== *)

Lemma append_String c s t : String c s ++ t = String c (s ++ t).
Proof. reflexivity. Qed.

Lemma append_nil_l s : "" ++ s = s.
Proof. reflexivity. Qed.

Lemma append_nil_r s : s ++ "" = s.
Proof. induction s as [|c s IH]; [reflexivity|]. by rewrite append_String, IH. Qed.

Lemma append_assoc' s t u : (s ++ t) ++ u = s ++ (t ++ u).
Proof. induction s as [|c s IH]; [reflexivity|]. by rewrite !append_String, IH. Qed.

Lemma noSlash_app s t : noSlash (s ++ t) = noSlash s && noSlash t.
Proof.
  induction s as [|c s IH]; [reflexivity|].
  rewrite append_String. cbn [noSlash]. by rewrite IH, andb_assoc.
Qed.

Lemma splitSlash_noSlash s : forall cur,
  noSlash s = true -> Strings.splitSlash cur s = [cur ++ s].
Proof.
  induction s as [|c s IH]; intros cur H; cbn in *.
  - by rewrite append_nil_r.
  - apply andb_true_iff in H as [Hc Hs].
    destruct (Ascii.eqb c "/"); [done|].
    rewrite IH by exact Hs. by rewrite append_assoc'.
Qed.

Lemma splitSlash_app s t : forall cur,
  noSlash s = true ->
  Strings.splitSlash cur (s ++ "/" ++ t)
  = (cur ++ s) :: Strings.splitSlash "" t.
Proof.
  induction s as [|c s IH]; intros cur H.
  - cbn. by rewrite append_nil_r.
  - cbn in H. apply andb_true_iff in H as [Hc Hs].
    rewrite append_String. cbn [Strings.splitSlash].
    destruct (Ascii.eqb c "/"); [done|].
    rewrite IH by exact Hs. by rewrite append_assoc'.
Qed.

Lemma splitSlash_elements s : forall cur c,
  noSlash cur = true -> In c (Strings.splitSlash cur s) -> noSlash c = true.
Proof.
  induction s as [|a s IH]; intros cur c Hcur Hin; cbn in Hin.
  - destruct Hin as [<-|[]]. exact Hcur.
  - destruct (Ascii.eqb a "/") eqn:Ha.
    + destruct Hin as [<-|Hin]; [exact Hcur|].
      eapply (IH ""); [reflexivity|exact Hin].
    + eapply IH; [|exact Hin].
      rewrite noSlash_app, Hcur. cbn. by rewrite Ha.
Qed.

Lemma cleanStep_cleaned r out c :
  noSlash c = true -> cleaned r out -> cleaned r (Filepath.cleanStep r out c).
Proof.
  intros Hc Hout. unfold Filepath.cleanStep.
  destruct (String.eqb_spec c ""); [exact Hout|].
  destruct (String.eqb_spec c "."); [exact Hout|]. cbn [orb].
  destruct (String.eqb_spec c "..") as [->|Hdd].
  - destruct out as [|top below].
    + destruct r; cbn; auto.
    + destruct (String.eqb_spec top "..") as [->|Htop].
      * cbn in Hout. destruct Hout as (_ & Hb & Hr). destruct (Hr eq_refl) as [-> Hbelow].
        cbn. repeat split; auto.
      * cbn in Hout. tauto.
  - cbn. unfold kept. rewrite Hc.
    destruct (String.eqb_spec c ""); [done|].
    destruct (String.eqb_spec c "."); [done|]. cbn. tauto.
Qed.

Lemma fold_cleaned r cs : forall out,
  (forall c, In c cs -> noSlash c = true) ->
  cleaned r out -> cleaned r (fold_left (Filepath.cleanStep r) cs out).
Proof.
  induction cs as [|c cs IH]; intros out Hcs Hout; cbn; [exact Hout|].
  apply IH; [intros; apply Hcs; by right|].
  apply cleanStep_cleaned; [apply Hcs; by left|exact Hout].
Qed.

(** Folding [cleanStep] over elements that are already clean keeps them all. *)
Lemma fold_keeps r out : forall acc,
  cleaned r (out ++ acc)%list ->
  fold_left (Filepath.cleanStep r) (rev out) acc = (out ++ acc)%list.
Proof.
  induction out as [|c out IH]; intros acc H; [reflexivity|].
  cbn [rev]. rewrite fold_left_app. cbn [fold_left].
  change ((c :: out) ++ acc)%list with (c :: (out ++ acc)%list) in *.
  cbn [cleaned] in H. destruct H as (Hk & Hrest & Hdd).
  rewrite IH by exact Hrest.
  unfold Filepath.cleanStep. unfold kept in Hk.
  apply andb_true_iff in Hk as [Hk H1]. apply andb_true_iff in Hk as [_ H0].
  apply negb_true_iff in H0, H1. rewrite H0, H1. cbn [orb].
  destruct (String.eqb_spec c "..") as [->|Hne]; [|reflexivity].
  destruct (Hdd eq_refl) as [-> Hbelow].
  destruct (out ++ acc)%list as [|b l]; [reflexivity|].
  subst b. reflexivity.
Qed.

Lemma splitSlash_join l : forall x cur,
  (forall c, In c (x :: l) -> noSlash c = true) ->
  Strings.splitSlash cur (Strings.joinSlash (x :: l)) = (cur ++ x) :: l.
Proof.
  induction l as [|y l IH]; intros x cur H.
  - cbn [Strings.joinSlash]. apply splitSlash_noSlash, H. by left.
  - change (Strings.joinSlash (x :: y :: l))
      with (x ++ "/" ++ Strings.joinSlash (y :: l)).
    rewrite splitSlash_app by (apply H; by left).
    rewrite IH by (intros c Hc; apply H; by right). reflexivity.
Qed.

Lemma cleaned_kept r out c : cleaned r out -> In c out -> kept c = true.
Proof.
  induction out as [|x out IH]; intros H Hin; [done|].
  cbn in H. destruct H as (Hk & Hrest & _).
  destruct Hin as [<-|Hin]; auto.
Qed.

Lemma kept_noSlash c : kept c = true -> noSlash c = true.
Proof.
  unfold kept. intros H.
  by apply andb_true_iff in H as [H%andb_true_iff _]; destruct H.
Qed.

Lemma rooted_join x l :
  kept x = true -> Filepath.rooted (Strings.joinSlash (x :: l)) = false.
Proof.
  intros Hk. unfold kept in Hk.
  apply andb_true_iff in Hk as [Hk _]. apply andb_true_iff in Hk as [Hs He].
  destruct x as [|a x]; [done|].
  cbn in Hs. apply andb_true_iff in Hs as [Ha _]. apply negb_true_iff in Ha.
  destruct l as [|y l]; cbn [Strings.joinSlash]; [exact Ha|].
  rewrite append_String. exact Ha.
Qed.

(** [Clean] on the path it has written gives that path again. *)
Lemma Clean_render r out :
  cleaned r out ->
  Filepath.Clean (match out, r with
         | [], true => "/"
         | [], false => "."
         | _, true => "/" ++ Strings.joinSlash (rev out)
         | _, false => Strings.joinSlash (rev out)
         end)
  = match out, r with
    | [], true => "/"
    | [], false => "."
    | _, true => "/" ++ Strings.joinSlash (rev out)
    | _, false => Strings.joinSlash (rev out)
    end.
Proof.
  intros Hout.
  destruct out as [|c out]; [by destruct r|].
  assert (exists x l, rev (c :: out) = x :: l) as (x & l & Hrev).
  { destruct (rev (c :: out)) as [|x l] eqn:Hr; [|eauto].
    apply (f_equal (@List.length _)) in Hr. rewrite length_rev in Hr.
    discriminate. }
  assert (forall y, In y (x :: l) -> kept y = true) as Hkept.
  { intros y Hy. apply (cleaned_kept r (c :: out)); [exact Hout|].
    apply in_rev. by rewrite Hrev. }
  assert (fold_left (Filepath.cleanStep r) (x :: l) [] = c :: out) as Hfold.
  { rewrite <- Hrev, fold_keeps; rewrite app_nil_r; [reflexivity|exact Hout]. }
  rewrite Hrev. destruct r.
  - unfold Filepath.Clean. rewrite append_String.
    cbn [Filepath.rooted Strings.splitSlash].
    change (Ascii.eqb "/" "/") with true. cbn match.
    rewrite !append_nil_l.
    rewrite splitSlash_join
      by (intros y Hy; apply kept_noSlash, Hkept, Hy).
    rewrite append_nil_l.
    change (fold_left (Filepath.cleanStep true) ("" :: x :: l) [])
      with (fold_left (Filepath.cleanStep true) (x :: l) []).
    rewrite Hfold, Hrev. reflexivity.
  - unfold Filepath.Clean. rewrite rooted_join by (apply Hkept; by left).
    rewrite splitSlash_join
      by (intros y Hy; apply kept_noSlash, Hkept, Hy).
    rewrite append_nil_l.
    rewrite Hfold, Hrev. reflexivity.
Qed.

(** [filepath.Clean] is idempotent. *)
Lemma Clean_idempotent path :
  Filepath.Clean (Filepath.Clean path) = Filepath.Clean path.
Proof.
  unfold Filepath.Clean at 2 3.
  apply Clean_render.
  apply fold_cleaned; [|exact I].
  intros c Hc. by apply (splitSlash_elements path "" c).
Qed.

(** What [filepath.Join] returns is clean, or empty. *)
Lemma Join_clean elem :
  Filepath.Join elem = "" \/
  Filepath.Clean (Filepath.Join elem) = Filepath.Join elem.
Proof.
  induction elem as [|e rest IH]; cbn [Filepath.Join]; [by left|].
  destruct (String.eqb e ""); [exact IH|].
  right. apply Clean_idempotent.
Qed.

(* ===================================================================== *)
(** ** The extractor *)
(* ===================================================================== *)

Section Extractor.
Context (env : Env).

Lemma OpenReader_failure_pure zipPath w w1 e :
  OpenReader env zipPath w = (w1, inr e) -> w1 = w.
Proof.
  unfold OpenReader. intros H.
  repeat (case_match; simplify_eq); reflexivity.
Qed.

Lemma OpenReader_success zipPath w w1 files :
  OpenReader env zipPath w = (w1, inl files) ->
  w1 = openHandle (HZip (Filepath.Clean zipPath)) w.
Proof.
  unfold OpenReader. intros H.
  repeat (case_match; simplify_eq); reflexivity.
Qed.

Lemma MkdirAll_handles path w : handles (MkdirAll env path w).1 = handles w.
Proof.
  unfold MkdirAll. case_match; [reflexivity|].
  destruct (mkdirs _ _ _); reflexivity.
Qed.

Lemma MkdirAll_stdout path w : stdout (MkdirAll env path w).1 = stdout w.
Proof.
  unfold MkdirAll. case_match; [reflexivity|].
  destruct (mkdirs _ _ _); reflexivity.
Qed.

Lemma OpenFile_handles name perm w w1 r :
  OpenFile env name perm w = (w1, r) ->
  handles w1 = match r with inl h => h :: handles w | inr _ => handles w end.
Proof.
  unfold OpenFile. intros H.
  repeat (case_match; simplify_eq); reflexivity.
Qed.

Lemma OpenFile_is_out name perm w w1 h :
  OpenFile env name perm w = (w1, inl h) -> h = HOut (Filepath.Clean name).
Proof.
  unfold OpenFile. intros H.
  repeat (case_match; simplify_eq); reflexivity.
Qed.

Lemma zOpen_handles f w w1 r :
  zOpen f w = (w1, r) ->
  handles w1 = match r with inl h => h :: handles w | inr _ => handles w end
  /\ match r with inl h => h = HEntry (Name f) | inr _ => True end.
Proof.
  unfold zOpen. intros H. case_match; simplify_eq; split; reflexivity || exact I.
Qed.

Lemma ioCopy_handles h f w : handles (ioCopy env h f w).1 = handles w.
Proof. unfold ioCopy. case_match; reflexivity. Qed.

Lemma removeFirst_head h l : removeFirst h (h :: l) = l.
Proof. simpl. case_decide; congruence. Qed.

Lemma removeFirst_cons_ne h x l :
  x <> h -> removeFirst h (x :: l) = x :: removeFirst h l.
Proof. intros Hne. simpl. case_decide; congruence. Qed.

Lemma extractEntry_handles destDir f w :
  handles (extractEntry env destDir f w).1 = handles w.
Proof.
  unfold extractEntry.
  set (fpath := Filepath.Join [destDir; Name f]).
  destruct (IsDir f).
  - pose proof (MkdirAll_handles fpath w) as H.
    destruct (MkdirAll _ _ _) as [w1 r]. exact H.
  - pose proof (MkdirAll_handles (Filepath.Dir fpath) w) as H.
    destruct (MkdirAll _ _ _) as [w1 [e|]]; [exact H|].
    cbn [fst] in H.
    destruct (OpenFile _ _ _ _) as [w2 [out|e]] eqn:Ho.
    2:{ apply OpenFile_handles in Ho. cbn [fst]. congruence. }
    pose proof (OpenFile_is_out _ _ _ _ _ Ho) as ->.
    apply OpenFile_handles in Ho.
    destruct (zOpen f w2) as [w3 [rc|e]] eqn:Hz.
    + apply zOpen_handles in Hz as [Hz ->].
      pose proof (ioCopy_handles (HOut (Filepath.Clean fpath)) f w3) as Hc.
      destruct (ioCopy _ _ _ _) as [w4 r]. cbn [fst] in *.
      unfold Close; cbn [handles].
      rewrite Hc, Hz, Ho.
      rewrite removeFirst_cons_ne by discriminate.
      rewrite !removeFirst_head. exact H.
    + apply zOpen_handles in Hz as [Hz _]. cbn [fst].
      unfold Close; cbn [handles].
      rewrite Hz, Ho, removeFirst_head. exact H.
Qed.

Lemma extractEntries_handles destDir fs w :
  handles (extractEntries env destDir fs w).1 = handles w.
Proof.
  revert w. induction fs as [|f rest IH]; intros w; [reflexivity|].
  cbn [extractEntries].
  pose proof (extractEntry_handles destDir f w) as H.
  destruct (extractEntry env destDir f w) as [w1 [e|]]; [exact H|].
  rewrite IH. exact H.
Qed.

Lemma extractZip_handles zipPath destDir w :
  handles (extractZip env zipPath destDir w).1 = handles w.
Proof.
  unfold extractZip.
  destruct (OpenReader env zipPath w) as [w1 [files|e]] eqn:Ho.
  - apply OpenReader_success in Ho as ->.
    pose proof (MkdirAll_handles destDir
                  (openHandle (HZip (Filepath.Clean zipPath)) w)) as Hm.
    destruct (MkdirAll _ _ _) as [w2 r].
    pose proof (extractEntries_handles destDir files w2) as He.
    destruct (extractEntries _ _ _ _) as [w3 res]. cbn [fst] in *.
    unfold Close; cbn [handles]. rewrite He, Hm. cbn [openHandle handles].
    apply removeFirst_head.
  - apply OpenReader_failure_pure in Ho as ->.
    case_decide; reflexivity.
Qed.

(** C2: when the archive cannot be opened, [extractZip] looks at the
    error: for [zip.ErrFormat], the error of a file that is not a
    well-formed archive, it prints the notice and returns nil, leaving
    the world as it was; any other error of the open is returned. *)
Theorem malformed_archive_is_skipped zipPath destDir w e :
  (OpenReader env zipPath w).2 = inr e ->
  (e = ErrFormat ->
     extractZip env zipPath destDir w =
     (Printf ("Error: " ++ zipPath ++
              " is not a valid zip file and will be skipped." ++ nl) w,
      None))
  /\ (e <> ErrFormat -> extractZip env zipPath destDir w = (w, Some e)).
Proof.
  intros H. unfold extractZip.
  destruct (OpenReader env zipPath w) as [w1 r] eqn:Ho.
  cbn [snd] in H. subst r.
  apply OpenReader_failure_pure in Ho as ->.
  split; intros He; case_decide; congruence.
Qed.

Lemma mkdirs_keeps dirs : forall nd nd' e k n,
  mkdirs env dirs nd = (nd', e) -> nd !! k = Some n -> nd' !! k = Some n.
Proof.
  induction dirs as [|d rest IH]; intros nd nd' e k n H Hk; cbn in H.
  - by simplify_eq.
  - unfold nodeAt in H. destruct (implicitDir d) eqn:Himp.
    + eauto.
    + destruct (nd !! d) as [[|m dt]|] eqn:Hd; [eauto|by simplify_eq|].
      destruct (faultOf env OpMkdir d); [by simplify_eq|].
      eapply IH; [exact H|].
      rewrite lookup_insert_ne; [exact Hk|]. congruence.
Qed.

Lemma MkdirAll_keeps path w w' e k n :
  MkdirAll env path w = (w', e) ->
  nodes w !! k = Some n -> nodes w' !! k = Some n.
Proof.
  unfold MkdirAll. case_match; [by intros; simplify_eq|].
  destruct (mkdirs _ _ _) as [nd r] eqn:Hm. intros ? Hk; simplify_eq.
  cbn. eapply mkdirs_keeps; eauto.
Qed.

Lemma OpenFile_nodes name perm w w1 r :
  OpenFile env name perm w = (w1, r) ->
  match r with
  | inl _ => exists m, nodes w1 = <[Filepath.Clean name := NFile m []]> (nodes w)
  | inr _ => w1 = w
  end.
Proof.
  unfold OpenFile. intros H.
  repeat (case_match; simplify_eq); eauto.
Qed.

(** An output file that opens has a clean, non-empty name. *)
Lemma OpenFile_key elem perm w w1 h :
  OpenFile env (Filepath.Join elem) perm w = (w1, inl h) ->
  Filepath.Clean (Filepath.Join elem) = Filepath.Join elem.
Proof.
  intros H. destruct (Join_clean elem) as [He|He]; [|exact He].
  unfold OpenFile in H. rewrite He in H. discriminate.
Qed.

Lemma zOpen_nodes f w w1 r : zOpen f w = (w1, r) -> nodes w1 = nodes w.
Proof. unfold zOpen. intros H. case_match; by simplify_eq. Qed.

Lemma appendData_other key bs nd k :
  k <> key -> appendData key bs nd !! k = nd !! k.
Proof.
  intros Hne. unfold appendData.
  destruct (nd !! key) as [[|m d]|]; try reflexivity.
  by rewrite lookup_insert_ne.
Qed.

Lemma ioCopy_other h f w k :
  k <> handleKey h ->
  nodes (ioCopy env h f w).1 !! k = nodes w !! k.
Proof.
  intros Hne. unfold ioCopy. case_match; [reflexivity|].
  cbn. by apply appendData_other.
Qed.

(** An entry leaves every file and directory alone except the file at
    its own output path. *)
Lemma extractEntry_other_files destDir f w w' r k n :
  extractEntry env destDir f w = (w', r) ->
  k <> outPath destDir f ->
  nodes w !! k = Some n ->
  nodes w' !! k = Some n.
Proof.
  unfold extractEntry.
  set (fpath := Filepath.Join [destDir; Name f]).
  intros H Hne Hk. destruct (IsDir f).
  - destruct (MkdirAll env fpath w) as [w1 e] eqn:Hm. simplify_eq.
    eapply MkdirAll_keeps; eauto.
  - destruct (MkdirAll env (Filepath.Dir fpath) w) as [w1 e] eqn:Hm.
    pose proof (MkdirAll_keeps _ _ _ _ _ _ Hm Hk) as Hk1.
    destruct e as [e|]; [by simplify_eq|].
    destruct (OpenFile _ _ _ _) as [w2 [out|e]] eqn:Ho.
    2:{ apply OpenFile_nodes in Ho. by simplify_eq. }
    pose proof (OpenFile_is_out _ _ _ _ _ Ho) as ->.
    pose proof (OpenFile_key [destDir; Name f] _ _ _ _ Ho) as Hkey.
    fold fpath in Hkey. unfold outPath in Hne. fold fpath in Hne.
    apply OpenFile_nodes in Ho as [m' Ho]. rewrite Hkey in *.
    assert (nodes w2 !! k = Some n) as Hk2.
    { rewrite Ho, lookup_insert_ne; [exact Hk1|congruence]. }
    destruct (zOpen f w2) as [w3 [rc|e]] eqn:Hz;
      apply zOpen_nodes in Hz.
    + pose proof (ioCopy_other (HOut fpath) f w3 k Hne) as Hc.
      destruct (ioCopy _ _ _ _) as [w4 r']. simplify_eq. cbn in *.
      congruence.
    + simplify_eq. cbn. congruence.
Qed.

(** An entry that is extracted leaves its bytes at the join of the
    destination and its stored name. *)
Lemma extractEntry_writes destDir f w w' :
  IsDir f = false ->
  extractEntry env destDir f w = (w', None) ->
  exists m, nodes w' !! outPath destDir f = Some (NFile m (Data f)).
Proof.
  unfold extractEntry.
  set (fpath := Filepath.Join [destDir; Name f]).
  intros -> H.
  destruct (MkdirAll env (Filepath.Dir fpath) w) as [w1 [e|]] eqn:Hm;
    [by simplify_eq|].
  destruct (OpenFile _ _ _ _) as [w2 [out|e]] eqn:Ho; [|by simplify_eq].
  pose proof (OpenFile_is_out _ _ _ _ _ Ho) as ->.
  pose proof (OpenFile_key [destDir; Name f] _ _ _ _ Ho) as Hkey.
  fold fpath in Hkey. unfold outPath. fold fpath.
  apply OpenFile_nodes in Ho as [m' Ho]. rewrite Hkey in *.
  destruct (zOpen f w2) as [w3 [rc|e]] eqn:Hz; [|by simplify_eq].
  apply zOpen_nodes in Hz.
  unfold ioCopy in H. cbn [handleKey] in H.
  destruct (faultOf env OpWrite fpath); [by simplify_eq|].
  simplify_eq. cbn. exists m'.
  unfold appendData. rewrite Hz, Ho, lookup_insert_eq.
  by rewrite lookup_insert_eq.
Qed.
End Extractor.

(** C6: an entry leaves the table of open descriptors as it found it,
    whatever its outcome: the output file and the entry's stream, when
    they were opened, are closed before the loop goes on or [extractZip]
    returns; and [extractZip] as a whole leaves the table as it found it,
    the archive included. *)
Theorem streams_are_released env destDir :
  (forall f w, handles (extractEntry env destDir f w).1 = handles w) /\
  (forall fs w, handles (extractEntries env destDir fs w).1 = handles w) /\
  (forall zipPath w, handles (extractZip env zipPath destDir w).1 = handles w).
Proof.
  split; [|split].
  - apply extractEntry_handles.
  - apply extractEntries_handles.
  - intros. apply extractZip_handles.
Qed.

Section ExtractorClaims.
Context (env : Env).

Lemma extractEntries_app destDir pre rest : forall w w1,
  extractEntries env destDir pre w = (w1, None) ->
  extractEntries env destDir (pre ++ rest) w
  = extractEntries env destDir rest w1.
Proof.
  induction pre as [|g pre IH]; intros w w1 H; cbn in *.
  - by simplify_eq.
  - destruct (extractEntry env destDir g w) as [wg [e|]]; [by simplify_eq|].
    by apply IH.
Qed.

Lemma copyFails_entry destDir f w e :
  copyFails env destDir f w e ->
  exists w2, extractEntry env destDir f w = (w2, Some e).
Proof.
  intros (Hd & w1 & w2 & out & w3 & rc & Hm & Ho & Hz & Hc).
  unfold extractEntry. rewrite Hd, Hm, Ho, Hz.
  destruct (ioCopy env out f w3) as [w4 r]. cbn in Hc. subst r. eauto.
Qed.

(** C5, as amended: when copying the bytes of an entry fails,
    [extractZip] returns that error; what it leaves is the world as the
    failing entry left it, with the archive closed, so that no later
    entry is processed and nothing is rolled back; and every file and
    directory at a path other than the output path of the failing entry
    is as the earlier entries left it. *)
Theorem copy_failure_aborts zipPath destDir pre f post w w1 w2 e :
  OpenReader env zipPath w = (w1, inl (pre ++ f :: post)%list) ->
  extractEntries env destDir pre (MkdirAll env destDir w1).1 = (w2, None) ->
  copyFails env destDir f w2 e ->
  exists w3,
    extractEntry env destDir f w2 = (w3, Some e) /\
    extractZip env zipPath destDir w
    = (Close (HZip (Filepath.Clean zipPath)) w3, Some e) /\
    (forall k n,
       k <> outPath destDir f ->
       nodes w2 !! k = Some n ->
       nodes w3 !! k = Some n).
Proof.
  intros Hopen Hpre Hf.
  destruct (copyFails_entry _ _ _ _ Hf) as [w3 He].
  exists w3. split; [exact He|]. split.
  - unfold extractZip. rewrite Hopen.
    destruct (MkdirAll env destDir w1) as [wm em]. cbn [fst] in Hpre.
    rewrite (extractEntries_app _ _ _ _ _ Hpre).
    cbn [extractEntries]. by rewrite He.
  - intros k n Hne Hk.
    eapply extractEntry_other_files; eauto.
Qed.
End ExtractorClaims.

Import Scenario.

Lemma copy_failure_aborts_witness :
  let w1 := openHandle (HZip "/r/x.zip") (oneArchive x02) in
  let w2 := (extractEntries plainEnv "/r/x" [fileA]
               (MkdirAll plainEnv "/r/x" w1).1).1 in
  exists w3,
    extractEntry plainEnv "/r/x" fileBad w2 = (w3, Some ErrChecksum) /\
    extractZip plainEnv "/r/x.zip" "/r/x" (oneArchive x02)
    = (Close (HZip (Filepath.Clean "/r/x.zip")) w3, Some ErrChecksum) /\
    (forall k n,
       k <> outPath "/r/x" fileBad ->
       nodes w2 !! k = Some n ->
       nodes w3 !! k = Some n).
Proof.
  apply (copy_failure_aborts plainEnv "/r/x.zip" "/r/x" [fileA] fileBad
           [fileC] (oneArchive x02)
           (openHandle (HZip "/r/x.zip") (oneArchive x02))).
  - reflexivity.
  - vm_compute. reflexivity.
  - split; [reflexivity|].
    do 5 eexists. repeat split; vm_compute; reflexivity.
Defined.

(** C5, as stated, fails: the archive stores [a.txt] twice and the second
    copy has a bad checksum; opening its output truncates the file the
    first entry wrote. *)
Lemma earlier_output_truncated :
  ~ earlierOutputsStay plainEnv "/r/x.zip" "/r/x" (oneArchive x03).
Proof.
  intros H.
  destruct (H (openHandle (HZip "/r/x.zip") (oneArchive x03))
              [fileA] fileAgain []
              (extractEntries plainEnv "/r/x" [fileA]
                 (MkdirAll plainEnv "/r/x"
                    (openHandle (HZip "/r/x.zip") (oneArchive x03))).1).1
              ErrChecksum) as [_ Hstay].
  - reflexivity.
  - vm_compute. reflexivity.
  - split; [reflexivity|].
    do 5 eexists. repeat split; vm_compute; reflexivity.
  - specialize (Hstay fileA (or_introl eq_refl) eq_refl).
    vm_compute in Hstay. discriminate.
Qed.

(** C7: the code departs from the claim.  [extractZip] drops the error of
    [os.MkdirAll(destDir, 0755)].  Here the destination [/r/a] is absent
    ([os.Stat] says so, hence the worker extracts), making it is refused,
    and the one entry of the archive, [../x.txt], has its parent [/r] in
    place: its output is opened and written while [/r/a] does not exist,
    and [extractZip] returns nil. *)
Theorem destination_missing_at_first_open :
  let w1 := (OpenReader envReadOnly "/r/a.zip" worldReadOnly).1 in
  let w2 := (MkdirAll envReadOnly "/r/a" w1).1 in
  let fpath := Filepath.Join ["/r/a"; Name fileUp] in
  let w3 := (MkdirAll envReadOnly (Filepath.Dir fpath) w2).1 in
  let done := extractZip envReadOnly "/r/a.zip" "/r/a" worldReadOnly in
  IsNotExist (statErr (Stat envReadOnly "/r/a" worldReadOnly)) = true /\
  (OpenReader envReadOnly "/r/a.zip" worldReadOnly).2 = inl [fileUp] /\
  (MkdirAll envReadOnly "/r/a" w1).2
    = Some (PathError "mkdir" "/r/a" EACCES) /\
  (MkdirAll envReadOnly (Filepath.Dir fpath) w2).2 = None /\
  nodeAt (nodes w3) "/r/a" = None /\
  (OpenFile envReadOnly fpath (Mode fileUp) w3).2 = inl (HOut "/r/x.txt") /\
  done.2 = None /\
  nodes done.1 !! "/r/a" = None /\
  nodes done.1 !! "/r/x.txt" = Some (NFile 420 hi).
Proof. vm_compute. repeat split; reflexivity. Qed.

(** The same with no failure injected: an archive whose whole name is
    [.zip] has the empty string for destination, which [os.MkdirAll]
    cannot make, and its entries land in the working directory. *)
Lemma destination_empty_name :
  let done := extractZip plainEnv ".zip" (destDirOf ".zip") worldDotZip in
  destDirOf ".zip" = "" /\
  IsNotExist (statErr (Stat plainEnv "" worldDotZip)) = true /\
  (MkdirAll plainEnv "" (OpenReader plainEnv ".zip" worldDotZip).1).2
    = Some (PathError "mkdir" "" ENOENT) /\
  done.2 = None /\
  nodes done.1 !! "a/b.txt" = Some (NFile 420 hi).
Proof. vm_compute. repeat split; reflexivity. Qed.

(** C10: the output of an entry goes to the join of the destination
    directory and the stored name, whatever the name is; and there is an
    archive with an entry whose name has [..] elements, for which that
    join lies outside the destination directory and extraction writes the
    file there. *)
Theorem entry_path_is_plain_join :
  (forall env destDir f w w',
     IsDir f = false ->
     extractEntry env destDir f w = (w', None) ->
     exists m, nodes w' !! outPath destDir f = Some (NFile m (Data f)))
  /\
  (exists env w zipPath destDir f,
     let fpath := Filepath.Join [destDir; Name f] in
     let done := extractZip env zipPath destDir w in
     In ".." (Strings.splitSlash "" (Name f)) /\
     (OpenReader env zipPath w).2 = inl [f] /\
     Filepath.inside destDir fpath = false /\
     nodes w !! fpath = None /\
     done.2 = None /\
     nodes done.1 !! fpath = Some (NFile (Mode f) (Data f))).
Proof.
  split.
  - intros env0 destDir f w w' Hd He.
    eapply extractEntry_writes; eauto.
  - exists plainEnv, worldSrv, "/srv/in/a.zip", "/srv/in/a", fileUpUp.
    vm_compute. repeat split; try reflexivity. tauto.
Qed.

(* ===================================================================== *)
(** ** The worker at [os.Stat] *)
(* ===================================================================== *)

(** *** The suffix of a task *)

Lemma substring_all s : substring 0 (String.length s) s = s.
Proof. induction s as [|c s IH]; cbn; [reflexivity|by rewrite IH]. Qed.

Lemma substring_split s : forall n,
  n <= String.length s ->
  s = substring 0 n s ++ substring n (String.length s - n) s.
Proof.
  induction s as [|c s IH]; intros [|n] Hn.
  - reflexivity.
  - cbn in Hn. lia.
  - rewrite Nat.sub_0_r, substring_all. by destruct c.
  - cbn in *.
    change (String c s
            = String c (substring 0 n s
                        ++ substring n (String.length s - n) s)).
    f_equal. apply IH. lia.
Qed.

(** [strings.TrimSuffix] takes off what [strings.HasSuffix] finds. *)
Lemma TrimSuffix_HasSuffix s suffix :
  Strings.HasSuffix s suffix = true ->
  s = Strings.TrimSuffix s suffix ++ suffix.
Proof.
  intros H. unfold Strings.TrimSuffix. rewrite H.
  unfold Strings.HasSuffix in H.
  apply andb_true_iff in H as [Hlen Heq].
  apply Nat.leb_le in Hlen. apply String.eqb_eq in Heq.
  pose proof (substring_split s (String.length s - String.length suffix)
                ltac:(lia)) as Hs.
  replace (String.length s - (String.length s - String.length suffix))
    with (String.length suffix) in Hs by lia.
  by rewrite Heq in Hs.
Qed.

(** *** C1 and C9: the skip branch of the worker *)


Lemma step_WGot env s i path :
  alive s = true ->
  workers s !! i = Some (WGot path) ->
  IsNotExist (statErr (Stat env (destDirOf path) (world s))) = false ->
  exec env (AWorker i) s = skipped s i path.
Proof.
  intros Ha Hi Hst. unfold exec, stepWorker. by rewrite Ha, Hi, Hst.
Qed.

Lemma Stat_present env name w :
  name <> "" ->
  nodeAt (nodes w) (Filepath.Clean name) = Some NDir ->
  IsNotExist (statErr (Stat env name w)) = false.
Proof.
  intros Hne Hd. unfold Stat, statWith.
  destruct (faultOf env OpStat (Filepath.Clean name)) as [[| |]|];
    try reflexivity.
  unfold resolve. rewrite Hd.
  by destruct (String.eqb_spec name "").
Qed.

(** C1: the destination of a task is its path without the suffix [.zip],
    and a task whose destination directory is there is skipped: the
    worker prints the notice and is back at the receive; the tree, the
    Error Channel and everything else are as they were. *)
Theorem existing_destination_is_skipped env s i path :
  alive s = true ->
  workers s !! i = Some (WGot path) ->
  destDirOf path <> "" ->
  nodeAt (nodes (world s)) (Filepath.Clean (destDirOf path)) = Some NDir ->
  (Strings.HasSuffix path ".zip" = true -> path = destDirOf path ++ ".zip") /\
  exec env (AWorker i) s = skipped s i path /\
  nodes (world (exec env (AWorker i) s).1) = nodes (world s) /\
  errChan (exec env (AWorker i) s).1 = errChan s.
Proof.
  intros Ha Hi Hne Hd.
  split; [apply TrimSuffix_HasSuffix|].
  rewrite (step_WGot env s i path Ha Hi (Stat_present env _ _ Hne Hd)).
  repeat split.
Qed.

(** C9: when [os.Stat] on the destination fails with an error that is
    not a not-exist error, the worker does what it does for a destination
    that is there: the notice, no extraction, no error sent. *)
Theorem stat_failure_is_skipped env s i path e :
  alive s = true ->
  workers s !! i = Some (WGot path) ->
  Stat env (destDirOf path) (world s) = inr e ->
  IsNotExist (Some e) = false ->
  exec env (AWorker i) s = skipped s i path /\
  nodes (world (exec env (AWorker i) s).1) = nodes (world s) /\
  errChan (exec env (AWorker i) s).1 = errChan s.
Proof.
  intros Ha Hi Hst He.
  rewrite (step_WGot env s i path Ha Hi); [repeat split|].
  by rewrite Hst.
Qed.

(* ===================================================================== *)
(** ** What holds of every state of a run *)
(* ===================================================================== *)

Lemma countLive_insert l : forall i x y,
  l !! i = Some x ->
  countLive (<[i := y]> l) + (if decide (x = WDone) then 0 else 1)
  = countLive l + (if decide (y = WDone) then 0 else 1).
Proof.
  induction l as [|z l IH]; intros [|i] x y H; simplify_eq/=.
  - repeat case_decide; lia.
  - specialize (IH _ _ y H). repeat case_decide; lia.
Qed.

Lemma countLive_replicate n : countLive (replicate n WIdle) = n.
Proof. induction n; cbn; [reflexivity|]. case_decide; [discriminate|]. lia. Qed.

Lemma Inv_init N root w : Inv (init N root w).
Proof.
  split; cbn; try done.
  - by rewrite length_replicate.
  - by rewrite length_replicate.
  - lia.
  - by rewrite countLive_replicate.
  - constructor.
  - rewrite length_replicate. lia.
Qed.


Lemma walkFn_walking path info e stk : walking (walkFn path info e stk).
Proof. unfold walkFn. repeat case_match; exact I. Qed.

Lemma walkVisit_walking env w path stk : walking (walkVisit env w path stk).
Proof.
  unfold walkVisit, walkEnter. repeat case_match; apply walkFn_walking.
Qed.

Lemma errsNonNil_snoc l e : errsNonNil l -> errsNonNil (l ++ [Some e]).
Proof.
  intros H. apply Forall_app. split; [exact H|].
  constructor; [discriminate|constructor].
Qed.

Lemma sendPath_Sent path s s1 :
  sendPath path s = Sent s1 ->
  closed (pathsChan s) = false /\
  List.length (buf (pathsChan s)) < cap (pathsChan s) /\
  s1 = setPaths s (mkChan (buf (pathsChan s) ++ [path])
                     (cap (pathsChan s)) false).
Proof.
  unfold sendPath. destruct (closed (pathsChan s)); [done|].
  destruct (Nat.ltb_spec (List.length (buf (pathsChan s))) (cap (pathsChan s)));
    [|done].
  intros; simplify_eq. done.
Qed.

Lemma sendErr_Sent e s s1 :
  sendErr e s = Sent s1 ->
  closed (errChan s) = false /\
  ((List.length (buf (errChan s)) < cap (errChan s) /\
    s1 = setErrs s (mkChan (buf (errChan s) ++ [Some e])
                      (cap (errChan s)) false))
   \/ (cap (errChan s) = 0 /\ mainSt s = MRecv /\
       s1 = setMain s (MGot (Some e)))).
Proof.
  unfold sendErr. destruct (closed (errChan s)); [done|].
  destruct (Nat.ltb_spec (List.length (buf (errChan s))) (cap (errChan s))).
  { intros; simplify_eq. split; [done|]. left. done. }
  destruct (Nat.eqb_spec (cap (errChan s)) 0); [|done].
  destruct (mainSt s) eqn:Hm; try done.
  intros; simplify_eq. split; [done|]. right. done.
Qed.

Lemma Inv_stepWalker env s : Inv s -> Inv (stepWalker env s).1.
Proof.
  intros [H1 H2 H0 H3 H4 H5 H6 H7 H8].
  destruct s as [w k pc ec ws g cd m]. cbn in *.
  unfold stepWalker; cbn [walker world].
  destruct k as [root|[|[dir [|name rest]] stk]|path stk|e| |].
  - pose proof (walkVisit_walking env w root []) as Hw.
    destruct (walkVisit env w root []); try done; cbn;
      split; cbn; auto; try done; intros Hc; specialize (H5 Hc); done.
  - split; cbn; auto; try done; intros Hc; specialize (H5 Hc); done.
  - split; cbn; auto; try done; intros Hc; specialize (H5 Hc); done.
  - pose proof (walkVisit_walking env w (Filepath.Join [dir; name])
                  ((dir, rest) :: stk)) as Hw.
    destruct (walkVisit env w _ _); try done; cbn;
      split; cbn; auto; try done; intros Hc; specialize (H5 Hc); done.
  - destruct (sendPath path _) as [s1| |] eqn:Hs; unfold panic; cbn.
    + apply sendPath_Sent in Hs as (Hcl & Hroom & ->); cbn in *.
      split; cbn; auto; try done.
      rewrite length_app. cbn. lia.
    + split; cbn; auto; done.
    + split; cbn; auto; done.
  - destruct (sendErr e _) as [s1| |] eqn:Hs; unfold panic; cbn.
    + apply sendErr_Sent in Hs as (Hcl & [(_ & ->)|(_ & _ & ->)]); cbn in *;
        split; cbn; auto; try done.
      all: try (intros Hc; specialize (H5 Hc); done).
      by apply errsNonNil_snoc.
    + split; cbn; auto; done.
    + split; cbn; auto; done.
  - split; cbn; auto; done.
  - split; cbn; auto; done.
Qed.

Lemma Inv_stepCloser s : Inv s -> Inv (stepCloser s).1.
Proof.
  intros [H1 H2 H0 H3 H4 H5 H6 H7 H8].
  destruct s as [w k pc ec ws g cd m]. cbn in *.
  unfold stepCloser; cbn.
  repeat case_match; cbn; split; cbn; auto; try done.
  intros _. by apply Nat.eqb_eq.
Qed.

Lemma Inv_stepMain s : Inv s -> Inv (stepMain s).1.
Proof.
  intros [H1 H2 H0 H3 H4 H5 H6 H7 H8].
  destruct s as [w k pc ec ws g cd m]. cbn in *.
  unfold stepMain; cbn [mainSt errChan world].
  destruct m as [|[e|]|code].
  - destruct (buf ec) as [|x rest] eqn:Hb.
    + destruct (closed ec) eqn:Hcl; cbn; split; cbn; rewrite ?Hb, ?Hcl; auto; done.
    + inversion H6; subst.
      cbn; split; cbn; auto; try congruence.
      intros Ha Hb'. specialize (H8 Ha Hb'). cbn in H8. lia.
  - cbn; split; cbn; auto; done.
  - done.
  - cbn; split; cbn; auto; done.
Qed.

Lemma countLive_pos l i x :
  l !! i = Some x -> x <> WDone -> 0 < countLive l.
Proof.
  revert i. induction l as [|z l IH]; intros [|i] H Hx; simplify_eq/=.
  - case_decide; [done|lia].
  - specialize (IH _ H Hx). lia.
Qed.

Lemma Inv_stepWorker env i s : Inv s -> Inv (stepWorker env i s).1.
Proof.
  intros [H1 H2 H0 H3 H4 H5 H6 H7 H8].
  destruct s as [w k pc ec ws g cd m]. cbn in *.
  unfold stepWorker; cbn [workers pathsChan world].
  destruct (ws !! i) as [x|] eqn:Hi; [|split; cbn; auto; done].
  assert (forall y, List.length (<[i := y]> ws) = List.length ws) as Hlen
      by (intros; apply length_insert).
  assert (forall y, y <> WDone -> x <> WDone ->
            countLive (<[i := y]> ws) = countLive ws) as Hlive.
  { intros y Hy Hx. pose proof (countLive_insert ws i x y Hi) as Hc.
    repeat case_decide; try done; lia. }
  assert (x <> WDone -> countLive (<[i := WDone]> ws) = countLive ws - 1
                        /\ 0 < countLive ws) as Hdone.
  { intros Hx. pose proof (countLive_insert ws i x WDone Hi) as Hc.
    pose proof (countLive_pos ws i x Hi Hx).
    repeat case_decide; try done; lia. }
  destruct x as [|path|path destDir|e|].
  - destruct (buf pc) as [|p rest] eqn:Hb; cbn.
    + destruct (closed pc) eqn:Hcl; cbn; [|split; cbn; rewrite ?Hb, ?Hcl; auto; done].
      destruct Hdone as [Hd Hp]; [done|].
      split; cbn; rewrite ?Hb, ?Hlen; auto; try done.
      * lia.
      * intros Hc. specialize (H4 Hc). lia.
      * intros Ha Hb'. specialize (H8 Ha Hb'). lia.
    + split; cbn; rewrite ?Hlen, ?Hlive; auto; try done.
      cbn in H0. lia.
  - case_match; cbn; split; cbn; rewrite ?Hlen, ?Hlive; auto; done.
  - destruct (extractZip env path destDir w) as [w1 [e|]]; cbn;
      split; cbn; rewrite ?Hlen, ?Hlive; auto; done.
  - destruct Hdone as [Hd Hp]; [done|].
    destruct (sendErr e _) as [s1| |] eqn:Hs; unfold panic; cbn.
    + apply sendErr_Sent in Hs as (Hcl & [(_ & ->)|(_ & _ & ->)]); cbn in *;
        split; cbn; rewrite ?Hlen; auto; try done.
      all: try lia.
      * by apply errsNonNil_snoc.
      * intros Ha Hb. specialize (H8 Ha Hb). rewrite length_app. cbn. lia.
      * intros Hc. congruence.
      * intros Ha Hb. specialize (H8 Ha Hb). lia.
    + split; cbn; auto; done.
    + split; cbn; auto; done.
  - split; cbn; auto; done.
Qed.

Lemma Inv_exec env a s : Inv s -> Inv (exec env a s).1.
Proof.
  intros H. unfold exec. destruct (alive s); [|exact H].
  destruct a.
  - by apply Inv_stepWalker.
  - by apply Inv_stepWorker.
  - by apply Inv_stepCloser.
  - by apply Inv_stepMain.
Qed.

Lemma Inv_run env sched N root w n : Inv (run env sched (init N root w) n).
Proof.
  induction n as [|n IH]; cbn; [apply Inv_init|by apply Inv_exec].
Qed.

(* ===================================================================== *)
(** ** Ticks *)
(* ===================================================================== *)

(** *** How a tick of one goroutine touches the others *)

Lemma exec_dead env a s : alive s = false -> exec env a s = (s, EvBlocked).
Proof. unfold exec. by intros ->. Qed.

Lemma stepWalker_workers env s : workers (stepWalker env s).1 = workers s.
Proof.
  unfold stepWalker.
  destruct (walker s) as [root|[|[dir [|name rest]] stk]|path stk|e| |];
    try reflexivity.
  - destruct (sendPath path s) as [s1| |] eqn:Hs; try reflexivity.
    by apply sendPath_Sent in Hs as (_ & _ & ->).
  - destruct (sendErr e s) as [s1| |] eqn:Hs; try reflexivity.
    by apply sendErr_Sent in Hs as (_ & [(_ & ->)|(_ & _ & ->)]).
Qed.

Lemma stepCloser_workers s : workers (stepCloser s).1 = workers s.
Proof. unfold stepCloser. by repeat case_match. Qed.

Lemma stepMain_workers s : workers (stepMain s).1 = workers s.
Proof. unfold stepMain. by repeat case_match. Qed.

Lemma stepWorker_workers env j s i :
  i <> j -> workers (stepWorker env j s).1 !! i = workers s !! i.
Proof.
  intros Hne. unfold stepWorker.
  destruct (workers s !! j) as [[|path|path destDir|e|]|]; try reflexivity.
  - destruct (buf (pathsChan s)); [destruct (closed (pathsChan s))|];
      cbn; try reflexivity; by rewrite list_lookup_insert_ne.
  - case_match; cbn; by rewrite list_lookup_insert_ne.
  - destruct (extractZip _ _ _ _) as [w1 [e|]]; cbn;
      by rewrite list_lookup_insert_ne.
  - destruct (sendErr e s) as [s1| |] eqn:Hs; try reflexivity.
    apply sendErr_Sent in Hs as (_ & [(_ & ->)|(_ & _ & ->)]); cbn;
      by rewrite list_lookup_insert_ne.
Qed.

(** A worker's place in its code changes at its own ticks only. *)
Lemma exec_workers_other env a s i :
  a <> AWorker i -> workers (exec env a s).1 !! i = workers s !! i.
Proof.
  intros Hne. unfold exec. destruct (alive s); [|reflexivity].
  destruct a as [|j| |].
  - by rewrite stepWalker_workers.
  - apply stepWorker_workers. congruence.
  - by rewrite stepCloser_workers.
  - by rewrite stepMain_workers.
Qed.


Lemma stepWalker_event env s i : taskEvent i (stepWalker env s).2 = false.
Proof.
  unfold stepWalker, panic.
  destruct (walker s) as [root|[|[dir [|name rest]] stk]|path stk|e| |];
    try reflexivity.
  - destruct (walkVisit _ _ _ _); reflexivity.
  - destruct (walkVisit _ _ _ _); reflexivity.
  - destruct (sendPath path s); reflexivity.
  - destruct (sendErr e s); reflexivity.
Qed.

Lemma stepWorker_event env j s i :
  i <> j -> taskEvent i (stepWorker env j s).2 = false.
Proof.
  intros Hne. unfold stepWorker, panic.
  destruct (workers s !! j) as [[|path|path destDir|e|]|]; try reflexivity.
  - destruct (buf (pathsChan s)); [destruct (closed (pathsChan s))|];
      cbn; try reflexivity. by apply bool_decide_eq_false.
  - case_match; cbn; by apply bool_decide_eq_false.
  - destruct (extractZip _ _ _ _) as [w1 [e|]]; cbn;
      by apply bool_decide_eq_false.
  - destruct (sendErr e s); reflexivity.
Qed.

Lemma exec_event_other env a s i :
  a <> AWorker i -> taskEvent i (exec env a s).2 = false.
Proof.
  intros Hne. unfold exec. destruct (alive s); [|reflexivity].
  destruct a as [|j| |].
  - apply stepWalker_event.
  - apply stepWorker_event. congruence.
  - unfold stepCloser. by repeat case_match.
  - unfold stepMain. by repeat case_match.
Qed.

(** The event of a completed send names the goroutine that moved. *)
Lemma exec_sendErr_actor env a s b e :
  (exec env a s).2 = EvSendErr b e -> a = b.
Proof.
  unfold exec. destruct (alive s); [|done].
  destruct a as [|j| |].
  - unfold stepWalker, panic.
    destruct (walker s) as [root|[|[dir [|name rest]] stk]|path stk|e'| |];
      try done.
    + destruct (walkVisit _ _ _ _); done.
    + destruct (walkVisit _ _ _ _); done.
    + destruct (sendPath path s); done.
    + destruct (sendErr e' s); cbn; congruence.
  - unfold stepWorker, panic.
    destruct (workers s !! j) as [[|path|path destDir|e'|]|]; try done.
    + destruct (buf (pathsChan s)); [destruct (closed (pathsChan s))|]; done.
    + case_match; done.
    + destruct (extractZip _ _ _ _) as [w1 [e'|]]; done.
    + destruct (sendErr e' s); cbn; congruence.
  - unfold stepCloser. by repeat case_match.
  - unfold stepMain. by repeat case_match.
Qed.

(** *** A worker after a fatal outcome *)

Lemma step_fatal env s i path destDir e :
  alive s = true ->
  workers s !! i = Some (WExtract path destDir) ->
  (extractZip env path destDir (world s)).2 = Some e ->
  (exec env (AWorker i) s).2 = EvExtracted i path (Some e) /\
  workers (exec env (AWorker i) s).1 !! i = Some (WSendErr e).
Proof.
  intros Ha Hi He. unfold exec, stepWorker. rewrite Ha, Hi.
  destruct (extractZip env path destDir (world s)) as [w1 res].
  cbn in He. subst res. cbn. split; [reflexivity|].
  apply list_lookup_insert_eq. by eapply lookup_lt_Some.
Qed.

(** At [errChan <- err] a worker either stays blocked or completes the
    send and returns; the channel cannot be closed under it. *)
Lemma step_WSendErr env s i e :
  Inv s -> alive s = true ->
  workers s !! i = Some (WSendErr e) ->
  exec env (AWorker i) s = (s, EvBlocked)
  \/ ((exec env (AWorker i) s).2 = EvSendErr (AWorker i) e /\
      workers (exec env (AWorker i) s).1 !! i = Some WDone /\
      buf (errChan (exec env (AWorker i) s).1)
      = (buf (errChan s) ++ [Some e])%list).
Proof.
  intros HI Ha Hi. unfold exec, stepWorker. rewrite Ha, Hi.
  pose proof (lookup_lt_Some _ _ _ Hi) as Hlt.
  destruct (sendErr e s) as [s1| |] eqn:Hs.
  - right. apply sendErr_Sent in Hs as (_ & [(_ & ->)|(Hc & _ & _)]).
    + cbn. repeat split. by apply list_lookup_insert_eq.
    + rewrite (inv_capErrs _ HI) in Hc. lia.
  - by left.
  - exfalso. unfold sendErr in Hs.
    destruct (closed (errChan s)) eqn:Hcl.
    + pose proof (inv_errsClosed _ HI Hcl) as H0.
      rewrite (inv_wg _ HI) in H0.
      pose proof (countLive_pos _ _ _ Hi ltac:(done)). lia.
    + repeat case_match; done.
Qed.

Lemma step_WDone env s i :
  workers s !! i = Some WDone ->
  exec env (AWorker i) s = (s, EvBlocked).
Proof.
  intros Hi. unfold exec, stepWorker. rewrite Hi. by destruct (alive s).
Qed.

Lemma stepWalker_frame env s :
  mainKept s (stepWalker env s).1 /\ errsGrow s (stepWalker env s).1.
Proof.
  unfold mainKept, errsGrow, stepWalker, panic.
  destruct (walker s) as [root|[|[dir [|name rest]] stk]|path stk|e| |];
    cbn; auto.
  - destruct (sendPath path s) as [s1| |] eqn:Hs; cbn; auto.
    apply sendPath_Sent in Hs as (_ & _ & ->); cbn; auto.
  - destruct (sendErr e s) as [s1| |] eqn:Hs; cbn; auto.
    apply sendErr_Sent in Hs as (_ & [(_ & ->)|(_ & Hm & ->)]); cbn.
    + eauto.
    + split; [right; right; eauto|auto].
Qed.

Lemma stepWorker_frame env j s :
  mainKept s (stepWorker env j s).1 /\ errsGrow s (stepWorker env j s).1 /\
  walker (stepWorker env j s).1 = walker s /\
  pathsShrink s (stepWorker env j s).1.
Proof.
  unfold mainKept, errsGrow, pathsShrink, stepWorker, panic.
  destruct (workers s !! j) as [[|path|path destDir|e|]|]; cbn; auto 10.
  - destruct (buf (pathsChan s)) eqn:Hb;
      [destruct (closed (pathsChan s)) eqn:Hcl|];
      cbn; rewrite ?Hb, ?Hcl; repeat split; eauto.
  - case_match; cbn; auto 10.
  - destruct (extractZip _ _ _ _) as [w1 [e|]]; cbn; auto 10.
  - destruct (sendErr e s) as [s1| |] eqn:Hs; cbn; auto 10.
    apply sendErr_Sent in Hs as (_ & [(_ & ->)|(_ & Hm & ->)]); cbn.
    + split; [auto|]. split; [eauto|]. auto.
    + split; [right; right; eauto|]. auto 10.
Qed.

Lemma stepCloser_frame s :
  mainSt (stepCloser s).1 = mainSt s /\
  buf (errChan (stepCloser s).1) = buf (errChan s) /\
  walker (stepCloser s).1 = walker s /\
  pathsChan (stepCloser s).1 = pathsChan s.
Proof. unfold stepCloser. repeat case_match; cbn; auto. Qed.

Lemma stepMain_frame s :
  walker (stepMain s).1 = walker s /\
  pathsChan (stepMain s).1 = pathsChan s.
Proof. unfold stepMain. repeat case_match; cbn; auto. Qed.

Lemma exec_mainKept env a s :
  a <> AMain ->
  mainKept s (exec env a s).1 /\ errsGrow s (exec env a s).1.
Proof.
  intros Hne. unfold exec.
  destruct (alive s); [|unfold mainKept, errsGrow; auto].
  destruct a as [|j| |]; [| | |done].
  - apply stepWalker_frame.
  - pose proof (stepWorker_frame env j s). tauto.
  - pose proof (stepCloser_frame s) as (H1 & H2 & _).
    unfold mainKept, errsGrow. auto.
Qed.

Lemma exec_walker_other env a s :
  a <> AWalker ->
  walker (exec env a s).1 = walker s /\ pathsShrink s (exec env a s).1.
Proof.
  intros Hne. unfold exec.
  destruct (alive s); [|unfold pathsShrink; auto].
  destruct a as [|j| |]; [done| | |].
  - pose proof (stepWorker_frame env j s). tauto.
  - pose proof (stepCloser_frame s) as (_ & _ & H1 & H2).
    unfold pathsShrink. rewrite H1, H2. auto.
  - pose proof (stepMain_frame s) as (H1 & H2).
    unfold pathsShrink. rewrite H1, H2. auto.
Qed.

Lemma exec_workers_length env a s :
  List.length (workers (exec env a s).1) = List.length (workers s).
Proof.
  unfold exec. destruct (alive s); [|reflexivity].
  destruct a as [|j| |].
  - by rewrite stepWalker_workers.
  - unfold stepWorker, panic.
    destruct (workers s !! j) as [[|path|path destDir|e|]|]; try reflexivity.
    + destruct (buf (pathsChan s)); [destruct (closed (pathsChan s))|];
        cbn; by rewrite ?length_insert.
    + case_match; cbn; by rewrite length_insert.
    + destruct (extractZip _ _ _ _) as [w1 [e|]]; cbn;
        by rewrite length_insert.
    + destruct (sendErr e s) as [s1| |] eqn:Hs; try reflexivity.
      apply sendErr_Sent in Hs as (_ & [(_ & ->)|(_ & _ & ->)]); cbn;
        by rewrite length_insert.
  - by rewrite stepCloser_workers.
  - by rewrite stepMain_workers.
Qed.

(** *** The producer at a send *)


Lemma workLeft_insert l : forall i x y,
  l !! i = Some x ->
  workLeft (<[i := y]> l) + rank x = workLeft l + rank y.
Proof.
  induction l as [|z l IH]; intros [|i] x y H; simplify_eq/=.
  - lia.
  - specialize (IH _ _ y H). lia.
Qed.

(** While the walker is not done with its sends, a worker that has an
    error to send finds the Error Channel open and with a free slot. *)
Lemma sendErr_room s i ws e :
  Inv s ->
  walker s <> WkClose -> walker s <> WkDone ->
  workers s !! i = Some ws -> ws <> WDone ->
  sendErr e s
  = Sent (setErrs s (mkChan (buf (errChan s) ++ [Some e])%list
                       (cap (errChan s)) false)).
Proof.
  intros HI Hk1 Hk2 Hi Hws. unfold sendErr.
  pose proof (countLive_pos _ _ _ Hi Hws) as Hpos.
  rewrite <- (inv_wg _ HI) in Hpos.
  destruct (closed (errChan s)) eqn:Hcl.
  { pose proof (inv_errsClosed _ HI Hcl). lia. }
  pose proof (inv_errsRoom _ HI Hk1 Hk2) as Hroom.
  rewrite <- (inv_capErrs _ HI) in Hroom.
  destruct (Nat.ltb_spec (List.length (buf (errChan s))) (cap (errChan s)));
    [reflexivity|lia].
Qed.

(** A tick while the walker waits at a send on a full queue: the walker
    still waits, and either nothing changed for the queue and the
    workers, or a slot is free, or the workers are closer to the
    receive; a tick of a worker that has not returned is of the last two
    kinds. *)
Lemma full_step env s a p stk :
  Inv s -> alive s = true ->
  walker s = WkSendPath p stk ->
  cap (pathsChan s) <= List.length (buf (pathsChan s)) ->
  walker (exec env a s).1 = WkSendPath p stk /\
  ((workers (exec env a s).1 = workers s /\
    pathsChan (exec env a s).1 = pathsChan s /\
    forall i ws, a = AWorker i -> workers s !! i = Some ws -> ws = WDone)
   \/ room (exec env a s).1
   \/ (pathsChan (exec env a s).1 = pathsChan s /\
       workLeft (workers (exec env a s).1) < workLeft (workers s))).
Proof.
  intros HI Ha Hk Hfull. unfold exec. rewrite Ha.
  destruct a as [|j| |].
  - unfold stepWalker. rewrite Hk. unfold sendPath.
    destruct (closed (pathsChan s)) eqn:Hcl.
    { pose proof (inv_pathsClosed _ HI Hcl). congruence. }
    destruct (Nat.ltb_spec (List.length (buf (pathsChan s)))
                (cap (pathsChan s))); [lia|].
    cbn. split; [exact Hk|]. left. repeat split. intros; discriminate.
  - unfold stepWorker.
    destruct (workers s !! j) as [ws|] eqn:Hj.
    2:{ cbn. split; [exact Hk|]. left. repeat split.
        intros i ws [= <-]. congruence. }
    pose proof (lookup_lt_Some _ _ _ Hj) as Hlt.
    pose proof (fun y => workLeft_insert (workers s) j ws y Hj) as Hwl.
    destruct ws as [|path|path destDir|e|].
    + destruct (buf (pathsChan s)) as [|q rest] eqn:Hb.
      { rewrite (inv_capPaths _ HI) in Hfull. cbn in Hfull. lia. }
      cbn. split; [exact Hk|]. right. left. unfold room. cbn.
      pose proof (inv_pathsBound _ HI) as Hbd. rewrite Hb in Hbd.
      cbn in Hbd. lia.
    + specialize (Hwl WIdle) as Hw1. specialize (Hwl (WExtract path (destDirOf path))) as Hw2.
      case_match; cbn; (split; [exact Hk|]); right; right;
        (split; [reflexivity|]); cbn in *; lia.
    + destruct (extractZip _ _ _ _) as [w1 [e|]]; cbn;
        (split; [exact Hk|]); right; right; (split; [reflexivity|]).
      * specialize (Hwl (WSendErr e)). cbn in *; lia.
      * specialize (Hwl WIdle). cbn in *; lia.
    + rewrite (sendErr_room s j (WSendErr e) e HI) by (congruence || done).
      cbn. split; [exact Hk|]. right; right. split; [reflexivity|].
      specialize (Hwl WDone). cbn in *; lia.
    + cbn. split; [exact Hk|]. left. repeat split.
      intros i ws [= <-]. congruence.
  - pose proof (stepCloser_frame s) as (_ & _ & H1 & H2).
    rewrite H1, H2, stepCloser_workers.
    split; [exact Hk|]. left. repeat split. intros; discriminate.
  - pose proof (stepMain_frame s) as (H1 & H2).
    rewrite H1, H2, stepMain_workers.
    split; [exact Hk|]. left. repeat split. intros; discriminate.
Qed.

(** A free slot stays free until the walker takes it. *)
Lemma room_step env s a p stk :
  a <> AWalker ->
  walker s = WkSendPath p stk -> room s ->
  walker (exec env a s).1 = WkSendPath p stk /\ room (exec env a s).1.
Proof.
  intros Hne Hk Hroom.
  destruct (exec_walker_other env a s Hne) as (H1 & H2 & _ & H3).
  split; [congruence|]. unfold room in *. rewrite H2.
  destruct H3 as [->|[q Hq]]; [exact Hroom|].
  rewrite Hq in Hroom. cbn in Hroom. lia.
Qed.

Lemma enqueue_step env s p stk :
  Inv s -> alive s = true ->
  walker s = WkSendPath p stk -> room s ->
  (exec env AWalker s).2 = EvEnqueue p /\
  walker (exec env AWalker s).1 = WkWalk stk /\
  buf (pathsChan (exec env AWalker s).1)
  = (buf (pathsChan s) ++ [p])%list.
Proof.
  intros HI Ha Hk Hroom. unfold exec, stepWalker. rewrite Ha, Hk.
  unfold sendPath.
  destruct (closed (pathsChan s)) eqn:Hcl.
  { pose proof (inv_pathsClosed _ HI Hcl). congruence. }
  unfold room in Hroom.
  destruct (Nat.ltb_spec (List.length (buf (pathsChan s)))
              (cap (pathsChan s))); [|lia].
  cbn. auto.
Qed.


(* ===================================================================== *)
(** ** Runs *)
(* ===================================================================== *)

Section Runs.
Context (env : Env) (N : nat) (root : string) (w0 : World).
Context (sched : nat -> actor).

Local Abbreviation r := (run env sched (init N root w0)).
Local Abbreviation ev := (eventAt env sched (init N root w0)).

Lemma run_S u : r (S u) = (exec env (sched u) (r u)).1.
Proof. reflexivity. Qed.

Lemma run_Inv u : Inv (r u).
Proof. apply Inv_run. Qed.

Lemma run_workers_length u : List.length (workers (r u)) = N.
Proof.
  induction u as [|u IH]; [cbn; apply length_replicate|].
  rewrite run_S, exec_workers_length. exact IH.
Qed.

Lemma dead_forever u v : u <= v -> alive (r u) = false -> alive (r v) = false.
Proof.
  intros Hle Hd. induction Hle as [|v Hle IH]; [exact Hd|].
  rewrite run_S, exec_dead; auto.
Qed.

Hypothesis Hfair : fair N sched.

Lemma fair_main t : exists u, t <= u /\ sched u = AMain.
Proof. apply Hfair. cbn. auto. Qed.

Lemma fair_walker t : exists u, t <= u /\ sched u = AWalker.
Proof. apply Hfair. cbn. auto. Qed.

Lemma fair_worker i t : i < N -> exists u, t <= u /\ sched u = AWorker i.
Proof.
  intros Hi. apply Hfair. cbn. do 3 right.
  apply in_map, in_seq. lia.
Qed.

(** Once main holds an error it exits at its next tick. *)
Lemma main_got_exits u e :
  mainSt (r u) = MGot (Some e) -> exists v, u <= v /\ alive (r v) = false.
Proof.
  destruct (fair_main u) as (m & Hm & Hs).
  remember (m - u) as d eqn:Hd. revert u Hm Hd.
  induction d as [|d IH]; intros u Hm Hd Hg.
  - assert (m = u) as -> by lia.
    exists (S u). split; [lia|].
    rewrite run_S, Hs. unfold exec, alive. rewrite Hg.
    unfold stepMain. rewrite Hg. reflexivity.
  - destruct (decide (sched u = AMain)) as [Hu|Hu].
    + exists (S u). split; [lia|].
      rewrite run_S, Hu. unfold exec, alive. rewrite Hg.
      unfold stepMain. rewrite Hg. reflexivity.
    + destruct (exec_mainKept env (sched u) (r u) Hu) as [[Hk|[Hk|Hk]] _].
      * destruct (IH (S u)) as (v & Hv & Hdead); [lia|lia| |].
        { rewrite run_S, Hk. exact Hg. }
        exists v. split; [lia|exact Hdead].
      * exists (S u). split; [lia|]. rewrite run_S. unfold alive.
        by rewrite Hk.
      * destruct Hk as [Hk _]. congruence.
Qed.

(** An error in the Error Channel ends the process: main receives it
    and exits. *)
Lemma errs_pending_exits u :
  buf (errChan (r u)) <> [] -> exists v, u <= v /\ alive (r v) = false.
Proof.
  destruct (fair_main u) as (m & Hm & Hs).
  remember (m - u) as d eqn:Hd. revert u Hm Hd.
  assert (forall u, sched u = AMain -> buf (errChan (r u)) <> [] ->
            exists v, u <= v /\ alive (r v) = false) as Hstep.
  { intros u Hu Hb.
    destruct (alive (r u)) eqn:Ha; [|exists u; split; [lia|exact Ha]].
    pose proof (run_Inv u) as HI.
    destruct (mainSt (r u)) as [|[e|]|code] eqn:Hmain.
    - destruct (buf (errChan (r u))) as [|x rest] eqn:Hbuf; [done|].
      pose proof (inv_errsNonNil _ HI) as Hnn. rewrite Hbuf in Hnn.
      inversion Hnn as [|? ? Hx _]; subst.
      destruct x as [e|]; [|done].
      destruct (main_got_exits (S u) e) as (v & Hv & Hdead).
      { rewrite run_S, Hu. unfold exec. rewrite Ha.
        unfold stepMain. rewrite Hmain, Hbuf. reflexivity. }
      exists v. split; [lia|exact Hdead].
    - eapply main_got_exits; eauto.
    - by destruct (inv_mainGot _ HI).
    - unfold alive in Ha. by rewrite Hmain in Ha. }
  induction d as [|d IH]; intros u Hm Hd Hb.
  - assert (m = u) as -> by lia. by apply Hstep.
  - destruct (decide (sched u = AMain)) as [Hu|Hu]; [by apply Hstep|].
    destruct (exec_mainKept env (sched u) (r u) Hu) as [_ Hg].
    destruct (IH (S u)) as (v & Hv & Hdead); [lia|lia| |].
    { rewrite run_S. destruct Hg as [->|[e ->]]; [exact Hb|].
      by destruct (buf (errChan (r u))). }
    exists v. split; [lia|exact Hdead].
Qed.

(** *** C3 *)

(** A worker that stands at the send of [e], or has returned, stays
    there or returns, whoever moves; its own ticks are blocked ones,
    but for the one that completes the send. *)
Lemma after_fatal_step s a i e :
  Inv s ->
  workers s !! i = Some (WSendErr e) \/ workers s !! i = Some WDone ->
  (workers (exec env a s).1 !! i = Some (WSendErr e) \/
   workers (exec env a s).1 !! i = Some WDone) /\
  taskEvent i (exec env a s).2 = false /\
  (a = AWorker i ->
   (exec env a s).2 = EvBlocked \/
   ((exec env a s).2 = EvSendErr (AWorker i) e /\
    workers (exec env a s).1 !! i = Some WDone /\
    buf (errChan (exec env a s).1) = (buf (errChan s) ++ [Some e])%list)).
Proof.
  intros HI HQ.
  destruct (decide (a = AWorker i)) as [->|Hne].
  - destruct HQ as [HQ|HQ].
    + destruct (alive s) eqn:Ha.
      * destruct (step_WSendErr env s i e HI Ha HQ) as [Hb|(H1 & H2 & H3)].
        -- rewrite Hb. cbn. auto.
        -- rewrite H1, H2. cbn. auto 10.
      * rewrite exec_dead by exact Ha. cbn. auto.
    + rewrite (step_WDone env s i HQ). cbn. auto.
  - rewrite (exec_workers_other env a s i Hne).
    rewrite (exec_event_other env a s i Hne). by auto.
Qed.

Section Fatal.
Context (t i : nat) (path destDir : string) (e : err).
Hypothesis Halive : alive (r t) = true.
Hypothesis Hsched : sched t = AWorker i.
Hypothesis Hat : workers (r t) !! i = Some (WExtract path destDir).
Hypothesis Hres : (extractZip env path destDir (world (r t))).2 = Some e.

Lemma after_fatal u :
  t < u ->
  workers (r u) !! i = Some (WSendErr e) \/
  workers (r u) !! i = Some WDone.
Proof.
  intros Hlt. induction Hlt as [|u Hlt IH].
  - left. rewrite run_S, Hsched.
    by apply (step_fatal env (r t) i path destDir e).
  - rewrite run_S.
    by apply (after_fatal_step (r u) (sched u) i e (run_Inv u) IH).
Qed.

Lemma done_after_send v u :
  t < v -> v < u -> ev v = EvSendErr (AWorker i) e ->
  workers (r u) !! i = Some WDone.
Proof.
  intros Htv Hvu Hev.
  pose proof (exec_sendErr_actor _ _ _ _ _ Hev) as Ha.
  induction Hvu as [|u Hvu IH].
  - destruct (after_fatal_step (r v) (sched v) i e (run_Inv v)
                (after_fatal v Htv)) as (_ & _ & H3).
    destruct (H3 Ha) as [Hb|(_ & Hd & _)]; [|by rewrite run_S].
    unfold eventAt in Hev. congruence.
  - rewrite run_S.
    destruct (decide (sched u = AWorker i)) as [Hu|Hu].
    + rewrite Hu, (step_WDone env (r u) i IH). exact IH.
    + by rewrite (exec_workers_other env _ _ i Hu).
Qed.

Lemma send_before_done u :
  t < u -> workers (r u) !! i = Some WDone ->
  exists v, t < v /\ v < u /\ ev v = EvSendErr (AWorker i) e.
Proof.
  intros Hlt. induction Hlt as [|u Hlt IH]; intros Hd.
  - rewrite run_S, Hsched in Hd.
    destruct (step_fatal env (r t) i path destDir e Halive Hat Hres)
      as [_ H2]. congruence.
  - destruct (after_fatal u ltac:(lia)) as [HQ|HQ].
    + destruct (after_fatal_step (r u) (sched u) i e (run_Inv u)
                  (or_introl HQ)) as (_ & _ & H3).
      destruct (decide (sched u = AWorker i)) as [Hu|Hu].
      * destruct (H3 Hu) as [Hb|(Hev & _)].
        -- rewrite run_S in Hd.
           destruct (alive (r u)) eqn:Ha.
           ++ destruct (step_WSendErr env (r u) i e (run_Inv u) Ha HQ)
                as [Hb'|(Hev & _)].
              ** rewrite Hu, Hb' in Hd. cbn in Hd. congruence.
              ** exists u. repeat split; [lia|lia|].
                 unfold eventAt. by rewrite Hu.
           ++ rewrite exec_dead in Hd by exact Ha. cbn in Hd. congruence.
        -- exists u. repeat split; [lia|lia|exact Hev].
      * rewrite run_S, (exec_workers_other env _ _ i Hu) in Hd. congruence.
    + destruct (IH HQ) as (v & H1 & H2 & H3).
      exists v. repeat split; [lia|lia|exact H3].
Qed.

Lemma fatal_is_sent_or_process_ends :
  exists u, t < u /\ (ev u = EvSendErr (AWorker i) e \/ alive (r u) = false).
Proof.
  pose proof (lookup_lt_Some _ _ _ Hat) as Hi.
  rewrite run_workers_length in Hi.
  destruct (fair_worker i (S t) Hi) as (m & Hm & Hs).
  destruct (after_fatal m ltac:(lia)) as [HQ|HQ].
  - destruct (alive (r m)) eqn:Ha; [|exists m; split; [lia|by right]].
    destruct (step_WSendErr env (r m) i e (run_Inv m) Ha HQ)
      as [Hb|(Hev & _)].
    + destruct (errs_pending_exits m) as (v & Hv & Hdead).
      { pose proof (run_Inv m) as HI.
        unfold exec, stepWorker in Hb. rewrite Ha, HQ in Hb.
        destruct (sendErr e (r m)) as [s1| |] eqn:Hsend; [| |done].
        - apply sendErr_Sent in Hsend
            as (_ & [(_ & ->)|(Hc & _ & _)]).
          + cbn in Hb. injection Hb as Hb.
            apply (f_equal workers) in Hb. cbn in Hb.
            apply (f_equal (fun l => l !! i)) in Hb.
            rewrite list_lookup_insert_eq in Hb
              by (rewrite run_workers_length; exact Hi). congruence.
          + rewrite (inv_capErrs _ HI), run_workers_length in Hc. lia.
        - unfold sendErr in Hsend.
          destruct (closed (errChan (r m))); [done|].
          destruct (Nat.ltb_spec (List.length (buf (errChan (r m))))
                      (cap (errChan (r m)))) as [|Hge]; [done|].
          rewrite (inv_capErrs _ HI), run_workers_length in Hge.
          destruct (buf (errChan (r m))); [cbn in Hge; lia|done]. }
      destruct (decide (v = m)) as [->|Hne]; [congruence|].
      exists v. split; [lia|by right].
    + exists m. split; [lia|]. left. unfold eventAt. by rewrite Hs.
  - destruct (send_before_done m ltac:(lia) HQ) as (v & H1 & H2 & H3).
    exists v. split; [exact H1|by left].
Qed.
End Fatal.

(** C3: once [extractZip] has returned an error [e] to worker [i], the
    tick is the last one at which the worker handles a task: every later
    tick of the worker is a blocked one or the one that puts [e] on the
    Error Channel; after that one the worker has returned and all its
    ticks are blocked; and the send does come, unless the process ends
    first. *)
Theorem fatal_outcome_ends_worker t i path destDir e :
  alive (r t) = true ->
  sched t = AWorker i ->
  workers (r t) !! i = Some (WExtract path destDir) ->
  (extractZip env path destDir (world (r t))).2 = Some e ->
  ev t = EvExtracted i path (Some e) /\
  (forall u, t < u -> taskEvent i (ev u) = false) /\
  (forall u, t < u -> sched u = AWorker i ->
     ev u = EvBlocked \/
     (ev u = EvSendErr (AWorker i) e /\
      buf (errChan (r (S u))) = (buf (errChan (r u)) ++ [Some e])%list)) /\
  (forall v u, t < v -> v < u -> ev v = EvSendErr (AWorker i) e ->
     workers (r u) !! i = Some WDone /\
     (sched u = AWorker i -> ev u = EvBlocked)) /\
  (exists u, t < u /\
     (ev u = EvSendErr (AWorker i) e \/ alive (r u) = false)).
Proof.
  intros Halive Hsched Hat Hres. repeat split.
  - unfold eventAt. rewrite Hsched.
    by apply (step_fatal env (r t) i path destDir e).
  - intros u Hu.
    by apply (after_fatal_step (r u) (sched u) i e (run_Inv u)
                (after_fatal t i path destDir e Halive Hsched Hat Hres u Hu)).
  - intros u Hu Hs.
    destruct (after_fatal_step (r u) (sched u) i e (run_Inv u)
                (after_fatal t i path destDir e Halive Hsched Hat Hres u Hu))
      as (_ & _ & H3).
    destruct (H3 Hs) as [Hb|(H4 & _ & H5)]; [by left|right].
    split; [exact H4|]. rewrite run_S. exact H5.
  - by eapply done_after_send.
  - intros Hs. unfold eventAt. rewrite Hs.
    rewrite (step_WDone env (r u) i); [reflexivity|].
    by eapply done_after_send.
  - by eapply fatal_is_sent_or_process_ends.
Qed.

(** *** C8 *)

Section Producer.
(** Consumers are running: whenever the walker stands at a send on
    the Work Queue, some worker has not returned and the process
    lives. *)
Hypothesis Hconsumers :
  forall u p stk,
    walker (r u) = WkSendPath p stk -> exists i, running i (r u).


Lemma completes_with_room p stk u :
  walker (r u) = WkSendPath p stk -> room (r u) ->
  exists v, u <= v /\ sendCompletes env sched (init N root w0) p stk v.
Proof.
  destruct (fair_walker u) as (m & Hm & Hs).
  remember (m - u) as d eqn:Hd. revert u Hm Hd.
  assert (forall u, sched u = AWalker ->
            walker (r u) = WkSendPath p stk -> room (r u) ->
            exists v, u <= v /\ sendCompletes env sched (init N root w0) p stk v) as Hstep.
  { intros u Hu Hk Hroom. exists u. split; [lia|].
    destruct (Hconsumers u p stk Hk) as (i & Ha & _).
    destruct (enqueue_step env (r u) p stk (run_Inv u) Ha Hk Hroom)
      as (H1 & H2 & H3).
    unfold sendCompletes, eventAt. rewrite run_S, Hu. auto. }
  induction d as [|d IH]; intros u Hm Hd Hk Hroom.
  - assert (m = u) as -> by lia. by apply Hstep.
  - destruct (decide (sched u = AWalker)) as [Hu|Hu]; [by apply Hstep|].
    destruct (room_step env (r u) (sched u) p stk Hu Hk Hroom)
      as [Hk' Hroom'].
    destruct (IH (S u)) as (v & Hv & Hdone); [lia|lia|exact Hk'|exact Hroom'|].
    exists v. split; [lia|exact Hdone].
Qed.

Lemma completes_when_full p stk n : forall u,
  workLeft (workers (r u)) <= n ->
  walker (r u) = WkSendPath p stk ->
  cap (pathsChan (r u)) <= List.length (buf (pathsChan (r u))) ->
  exists v, u <= v /\ sendCompletes env sched (init N root w0) p stk v.
Proof.
  induction n as [n IHn] using lt_wf_ind. intros u Hn Hk Hfull.
  destruct (Hconsumers u p stk Hk) as (i & _ & ws & Hi & Hws).
  pose proof (lookup_lt_Some _ _ _ Hi) as HiN.
  rewrite run_workers_length in HiN.
  destruct (fair_worker i u HiN) as (m & Hm & Hs).
  remember (m - u) as d eqn:Hd. revert u Hn Hk Hfull ws Hi Hws Hm Hd.
  induction d as [|d IH]; intros u Hn Hk Hfull ws Hi Hws Hm Hd.
  - assert (m = u) as -> by lia.
    destruct (Hconsumers u p stk Hk) as (j & Ha & _).
    destruct (full_step env (r u) (sched u) p stk (run_Inv u) Ha Hk Hfull)
      as (Hk' & [(_ & _ & Hno)|[Hroom|(Hpc & Hless)]]).
    + by specialize (Hno i ws Hs Hi).
    + destruct (completes_with_room p stk (S u)) as (v & Hv & Hdone);
        [exact Hk'|exact Hroom|].
      exists v. split; [lia|exact Hdone].
    + destruct (IHn (workLeft (workers (r (S u)))) ltac:(rewrite run_S; lia)
                  (S u)) as (v & Hv & Hdone);
        [lia|exact Hk'|rewrite run_S, Hpc; exact Hfull|].
      exists v. split; [lia|exact Hdone].
  - destruct (Hconsumers u p stk Hk) as (j & Ha & _).
    destruct (full_step env (r u) (sched u) p stk (run_Inv u) Ha Hk Hfull)
      as (Hk' & [(Hw & Hpc & Hno)|[Hroom|(Hpc & Hless)]]).
    + assert (sched u <> AWorker i) as Hne.
      { intros Hu. by specialize (Hno i ws Hu Hi). }
      assert (m <> u) by congruence.
      destruct (IH (S u)) with (ws := ws) as (v & Hv & Hdone);
        try rewrite run_S; try rewrite Hw; try rewrite Hpc;
        try done; try lia.
      exists v. split; [lia|exact Hdone].
    + destruct (completes_with_room p stk (S u)) as (v & Hv & Hdone);
        [exact Hk'|exact Hroom|].
      exists v. split; [lia|exact Hdone].
    + destruct (IHn (workLeft (workers (r (S u)))) ltac:(rewrite run_S; lia)
                  (S u)) as (v & Hv & Hdone);
        [lia|exact Hk'|rewrite run_S, Hpc; exact Hfull|].
      exists v. split; [lia|exact Hdone].
Qed.

(** C8: in a run in which every goroutine is given the processor again
    and again and in which consumers are running (whenever the walker
    stands at a send on the Work Queue, some worker has not returned and
    the process lives), every send the walker stands at completes: at a
    later tick the path goes onto the queue and the walk resumes. *)
Theorem producer_send_completes t p stk :
  walker (r t) = WkSendPath p stk ->
  exists u, t <= u /\ sendCompletes env sched (init N root w0) p stk u.
Proof.
  intros Hk.
  destruct (Nat.lt_ge_cases (List.length (buf (pathsChan (r t))))
              (cap (pathsChan (r t)))) as [Hroom|Hfull].
  - by apply completes_with_room.
  - by eapply completes_when_full.
Qed.
End Producer.
End Runs.

(* ===================================================================== *)
(** ** The walk after an error *)
(* ===================================================================== *)

Lemma eventOfWalker_err k e : eventOfWalker k = EvWalkErr e -> k = WkSendErr e.
Proof. destruct k; cbn; congruence. Qed.

(** The tick that meets the error is a tick of the walker, and leaves it
    at [errChan <- err]. *)
Lemma exec_walkErr env a s e :
  (exec env a s).2 = EvWalkErr e ->
  a = AWalker /\ walker (exec env a s).1 = WkSendErr e.
Proof.
  unfold exec. destruct (alive s); [|done].
  destruct a as [|j| |].
  - unfold stepWalker, panic.
    destruct (walker s) as [root|[|[dir [|name rest]] stk]|path stk|e'| |];
      try done.
    + cbn. intros H. by apply eventOfWalker_err in H.
    + cbn. intros H. by apply eventOfWalker_err in H.
    + destruct (sendPath path s); done.
    + destruct (sendErr e' s); done.
  - unfold stepWorker, panic.
    destruct (workers s !! j) as [[|path|path destDir|e'|]|]; try done.
    + destruct (buf (pathsChan s)); [destruct (closed (pathsChan s))|]; done.
    + case_match; done.
    + destruct (extractZip _ _ _ _) as [w1 [e'|]]; done.
    + destruct (sendErr e' s); done.
  - unfold stepCloser. by repeat case_match.
  - unfold stepMain. by repeat case_match.
Qed.

Lemma exec_discovery_other env a s :
  a <> AWalker -> discoveryEvent (exec env a s).2 = false.
Proof.
  intros Hne. unfold exec. destruct (alive s); [|done].
  destruct a as [|j| |]; [done| | |].
  - unfold stepWorker, panic.
    destruct (workers s !! j) as [[|path|path destDir|e'|]|]; try done.
    + destruct (buf (pathsChan s)); [destruct (closed (pathsChan s))|]; done.
    + case_match; done.
    + destruct (extractZip _ _ _ _) as [w1 [e'|]]; done.
    + destruct (sendErr e' s); done.
  - unfold stepCloser. by repeat case_match.
  - unfold stepMain. by repeat case_match.
Qed.

Lemma pastError_step env a s e :
  pastError e (walker s) ->
  pastError e (walker (exec env a s).1) /\
  discoveryEvent (exec env a s).2 = false /\
  (buf (pathsChan (exec env a s).1) = buf (pathsChan s) \/
   exists p, buf (pathsChan s) = p :: buf (pathsChan (exec env a s).1)).
Proof.
  intros Hk. destruct (decide (a = AWalker)) as [->|Hne].
  - unfold exec. destruct (alive s); [|by auto].
    unfold stepWalker, panic, pastError in *.
    destruct Hk as [Hk|[Hk|Hk]]; rewrite Hk.
    + destruct (sendErr e s) as [s1| |] eqn:Hs; cbn; rewrite ?Hk; auto.
      apply sendErr_Sent in Hs as (_ & [(_ & ->)|(_ & _ & ->)]); cbn; auto.
    + cbn. auto.
    + cbn. rewrite Hk. auto.
  - destruct (exec_walker_other env a s Hne) as (H1 & _ & _ & H3).
    rewrite H1. split; [exact Hk|]. split; [|exact H3].
    by apply exec_discovery_other.
Qed.

Section WalkError.
Context (env : Env) (sched : nat -> actor) (s0 : state).

Local Abbreviation r := (run env sched s0).
Local Abbreviation ev := (eventAt env sched s0).

(** Once the walk has met an error, nothing is discovered and nothing is
    put on the Work Queue any more: no later tick is one of the walk, the
    queue only loses tasks, and the walker is at the send of the error,
    at the close of the queue, or done. *)
Lemma walk_error_stops_discovery t e :
  ev t = EvWalkErr e ->
  forall u, t < u ->
    pastError e (walker (r u)) /\
    discoveryEvent (ev u) = false /\
    (buf (pathsChan (r (S u))) = buf (pathsChan (r u)) \/
     exists p, buf (pathsChan (r u)) = p :: buf (pathsChan (r (S u)))).
Proof.
  intros Hev.
  assert (forall u, t < u -> pastError e (walker (r u))) as Hpast.
  { intros u Hlt. induction Hlt as [|u Hlt IH].
    - left. by apply exec_walkErr in Hev as [_ Hk].
    - by apply (pastError_step env (sched u) (r u) e IH). }
  intros u Hlt. split; [by apply Hpast|].
  by apply (pastError_step env (sched u) (r u) e (Hpast u Hlt)).
Qed.

(** A process that has ended stays as it is. *)
Lemma dead_frozen u v : u <= v -> alive (r u) = false -> r v = r u.
Proof.
  intros Hle Hd. induction Hle as [|v Hle IH]; [reflexivity|].
  cbn [run]. rewrite IH, exec_dead; auto.
Qed.
End WalkError.

Import Scenario.

(** C4: the code departs from the claim.  The Error Channel is closed as
    soon as the workers have returned, and the walker is not one of them.
    Here the only worker fails on [/r/a.zip], puts its error on the Error
    Channel and returns (ticks 3 to 6); the closer closes the channel
    (tick 7); the walk then finds that [/r/b] cannot be read (tick 8) and
    the send of that error panics (tick 9): the process ends with status
    2, the error of the walk never reaches the Error Channel, and the
    Work Queue is never closed. *)
Theorem walk_error_send_panics :
  let s0 := init 1 "/r" worldUnreadable in
  let r := run envUnreadable walkerLate s0 in
  let ev := eventAt envUnreadable walkerLate s0 in
  let e := PathError "open" "/r/b" EACCES in
  ev 5 = EvExtracted 0 "/r/a.zip" (Some ErrChecksum) /\
  ev 6 = EvSendErr (AWorker 0) ErrChecksum /\
  ev 7 = EvCloseErrs /\
  ev 8 = EvWalkErr e /\
  ev 9 = EvPanic /\
  forall u, 10 <= u ->
    mainSt (r u) = MExited 2 /\
    walker (r u) = WkSendErr e /\
    buf (errChan (r u)) = [Some ErrChecksum] /\
    closed (pathsChan (r u)) = false.
Proof.
  cbv zeta.
  assert (alive (run envUnreadable walkerLate
                   (init 1 "/r" worldUnreadable) 10) = false) as Hdead
    by (vm_compute; reflexivity).
  do 5 (split; [vm_compute; reflexivity|]).
  intros u Hu.
  rewrite (dead_frozen envUnreadable walkerLate
             (init 1 "/r" worldUnreadable) 10 u Hu Hdead).
  vm_compute. repeat split; reflexivity.
Qed.

(* ===================================================================== *)
(** ** The theorems at work on the scenarios *)
(* ===================================================================== *)

Lemma roundRobin_at j t :
  j < 4 ->
  roundRobin (j + t * 4)
  = match j with 0 => AWalker | 1 => AMain | 2 => ACloser | _ => AWorker 0 end.
Proof.
  intros Hj. unfold roundRobin.
  rewrite Nat.Div0.mod_add, Nat.mod_small by exact Hj. reflexivity.
Qed.

Lemma walkerFirst_at k j t :
  j < 4 -> walkerFirst k (j + (t + k) * 4) = roundRobin (j + (t + k) * 4).
Proof.
  intros Hj. unfold walkerFirst.
  destruct (Nat.ltb_spec (j + (t + k) * 4) k); [lia|reflexivity].
Qed.

Lemma walkerFirst_fair k : fair 1 (walkerFirst k).
Proof.
  intros a Ha t. cbn in Ha.
  destruct Ha as [<-|[<-|[<-|[<-|[]]]]].
  - exists (0 + (t + k) * 4). split; [lia|].
    by rewrite walkerFirst_at, roundRobin_at by lia.
  - exists (2 + (t + k) * 4). split; [lia|].
    by rewrite walkerFirst_at, roundRobin_at by lia.
  - exists (1 + (t + k) * 4). split; [lia|].
    by rewrite walkerFirst_at, roundRobin_at by lia.
  - exists (3 + (t + k) * 4). split; [lia|].
    by rewrite walkerFirst_at, roundRobin_at by lia.
Qed.

Lemma roundRobin_fair : fair 1 roundRobin.
Proof.
  intros a Ha t.
  destruct (walkerFirst_fair 0 a Ha t) as (u & Hu & Hs).
  exists u. split; [exact Hu|]. exact Hs.
Qed.

Lemma consumersOk_sound s p stk :
  consumersOk s = true ->
  walker s = WkSendPath p stk -> exists i, running i s.
Proof.
  unfold consumersOk, running. intros H Hk. rewrite Hk in H.
  apply andb_true_iff in H as [Ha Hex].
  apply existsb_exists in Hex as (ws & Hin & Hws).
  apply bool_decide_eq_true in Hws.
  apply list_elem_of_In, list_elem_of_lookup in Hin as [i Hi].
  exists i. split; [exact Ha|]. eauto.
Qed.

Lemma walker_done_forever env sched s0 u v :
  u <= v ->
  walker (run env sched s0 u) = WkDone ->
  walker (run env sched s0 v) = WkDone.
Proof.
  intros Hle Hd. induction Hle as [|v Hle IH]; [exact Hd|].
  cbn [run]. destruct (decide (sched v = AWalker)) as [Hv|Hv].
  - rewrite Hv. unfold exec, stepWalker. rewrite IH.
    by destruct (alive _).
  - by destruct (exec_walker_other env _ (run env sched s0 v) Hv) as [-> _].
Qed.

(** Consumers are running in a run whose first [k] states pass the
    check and whose walker is done by then. *)
Lemma consumers_checked env sched s0 k :
  walker (run env sched s0 k) = WkDone ->
  forallb (fun u => consumersOk (run env sched s0 u)) (seq 0 k) = true ->
  forall u p stk,
    walker (run env sched s0 u) = WkSendPath p stk ->
    exists i, running i (run env sched s0 u).
Proof.
  intros Hdone Hall u p stk Hk.
  destruct (Nat.lt_ge_cases u k) as [Hlt|Hge].
  - eapply consumersOk_sound; [|exact Hk].
    rewrite forallb_forall in Hall. apply Hall, in_seq. lia.
  - rewrite (walker_done_forever env sched s0 k u Hge Hdone) in Hk.
    discriminate.
Qed.

Lemma malformed_archive_is_skipped_witness :
  (ErrFormat = ErrFormat ->
     extractZip plainEnv "/r/x.zip" "/r/x" (oneArchive x00) =
     (Printf ("Error: " ++ "/r/x.zip" ++
              " is not a valid zip file and will be skipped." ++ nl)
        (oneArchive x00),
      None))
  /\ (ErrFormat <> ErrFormat ->
      extractZip plainEnv "/r/x.zip" "/r/x" (oneArchive x00)
      = (oneArchive x00, Some ErrFormat)).
Proof.
  apply (malformed_archive_is_skipped plainEnv "/r/x.zip" "/r/x"
           (oneArchive x00) ErrFormat).
  vm_compute. reflexivity.
Defined.

Lemma existing_destination_is_skipped_witness :
  let s := received "/r/x.zip" worldExtracted in
  (Strings.HasSuffix "/r/x.zip" ".zip" = true ->
   "/r/x.zip" = destDirOf "/r/x.zip" ++ ".zip") /\
  exec plainEnv (AWorker 0) s = skipped s 0 "/r/x.zip" /\
  nodes (world (exec plainEnv (AWorker 0) s).1) = nodes (world s) /\
  errChan (exec plainEnv (AWorker 0) s).1 = errChan s.
Proof.
  apply (existing_destination_is_skipped plainEnv
           (received "/r/x.zip" worldExtracted) 0 "/r/x.zip").
  - reflexivity.
  - reflexivity.
  - vm_compute. discriminate.
  - vm_compute. reflexivity.
Defined.

Lemma stat_failure_is_skipped_witness :
  let s := received "/r/a.zip" worldReadOnly in
  exec envStatDenied (AWorker 0) s = skipped s 0 "/r/a.zip" /\
  nodes (world (exec envStatDenied (AWorker 0) s).1) = nodes (world s) /\
  errChan (exec envStatDenied (AWorker 0) s).1 = errChan s.
Proof.
  apply (stat_failure_is_skipped envStatDenied
           (received "/r/a.zip" worldReadOnly) 0 "/r/a.zip"
           (PathError "stat" "/r/a" EACCES)).
  - reflexivity.
  - reflexivity.
  - vm_compute. reflexivity.
  - reflexivity.
Defined.

Lemma fatal_outcome_ends_worker_witness :
  let s0 := init 1 "/r" (oneArchive x02) in
  let r := run plainEnv roundRobin s0 in
  let ev := eventAt plainEnv roundRobin s0 in
  ev 19 = EvExtracted 0 "/r/x.zip" (Some ErrChecksum) /\
  (forall u, 19 < u -> taskEvent 0 (ev u) = false) /\
  (forall u, 19 < u -> roundRobin u = AWorker 0 ->
     ev u = EvBlocked \/
     (ev u = EvSendErr (AWorker 0) ErrChecksum /\
      buf (errChan (r (S u)))
      = (buf (errChan (r u)) ++ [Some ErrChecksum])%list)) /\
  (forall v u, 19 < v -> v < u -> ev v = EvSendErr (AWorker 0) ErrChecksum ->
     workers (r u) !! 0 = Some WDone /\
     (roundRobin u = AWorker 0 -> ev u = EvBlocked)) /\
  (exists u, 19 < u /\
     (ev u = EvSendErr (AWorker 0) ErrChecksum \/ alive (r u) = false)).
Proof.
  apply (fatal_outcome_ends_worker plainEnv 1 "/r" (oneArchive x02)
           roundRobin roundRobin_fair 19 0 "/r/x.zip" "/r/x" ErrChecksum).
  - vm_compute. reflexivity.
  - reflexivity.
  - vm_compute. reflexivity.
  - vm_compute. reflexivity.
Defined.

Lemma producer_send_completes_witness :
  exists u, 5 <= u /\
    sendCompletes plainEnv (walkerFirst 12) (init 1 "/r" worldFour)
      "/r/sub/y.zip" [("/r/sub", ["z.zip"]); ("/r", ["x.zip"])] u.
Proof.
  apply (producer_send_completes plainEnv 1 "/r" worldFour (walkerFirst 12)
           (walkerFirst_fair 12)).
  - apply (consumers_checked plainEnv (walkerFirst 12)
             (init 1 "/r" worldFour) 60); vm_compute; reflexivity.
  - vm_compute. reflexivity.
Defined.
(* ===================================================================== *)
(** ** More on the extractor *)
(* ===================================================================== *)

Section Kinds.
Context (env : Env).

Lemma keepsKinds_refl w : keepsKinds w w.
Proof. intros k. split; eauto. Qed.

Lemma keepsKinds_trans w1 w2 w3 :
  keepsKinds w1 w2 -> keepsKinds w2 w3 -> keepsKinds w1 w3.
Proof.
  intros H12 H23 k. destruct (H12 k) as [Hd Hf], (H23 k) as [Hd' Hf'].
  split; [auto|]. intros m d Hk. destruct (Hf m d Hk) as [d' Hk']. eauto.
Qed.

Lemma keepsKinds_same w w' : nodes w' = nodes w -> keepsKinds w w'.
Proof. intros H k. rewrite H. split; eauto. Qed.

Lemma MkdirAll_keepsKinds path w : keepsKinds w (MkdirAll env path w).1.
Proof.
  destruct (MkdirAll env path w) as [w' e] eqn:Hm. intros k.
  split; [intros Hk|intros m d Hk; exists d];
    eapply MkdirAll_keeps; eauto.
Qed.

Lemma OpenFile_keepsKinds name perm w :
  keepsKinds w (OpenFile env name perm w).1.
Proof.
  unfold OpenFile.
  destruct (String.eqb name ""); [apply keepsKinds_refl|].
  destruct (faultOf env OpOpen _); [apply keepsKinds_refl|].
  destruct (resolve _ _) as [[|]|]; try apply keepsKinds_refl.
  unfold nodeAt.
  destruct (implicitDir (Filepath.Clean name)); [apply keepsKinds_refl|].
  destruct (nodes w !! Filepath.Clean name) as [[|m0 d0]|] eqn:Hk;
    try apply keepsKinds_refl; intros k; cbn;
    (destruct (decide (k = Filepath.Clean name)) as [->|Hne];
     [rewrite lookup_insert_eq, Hk|rewrite lookup_insert_ne by done]);
    split; try done; try (intros; simplify_eq); eauto.
Qed.

Lemma appendData_keepsKinds key bs w :
  keepsKinds w (setNodes w (appendData key bs (nodes w))).
Proof.
  unfold appendData.
  destruct (nodes w !! key) as [[|m0 d0]|] eqn:Hk;
    try (apply keepsKinds_same; reflexivity).
  intros k. cbn.
  destruct (decide (k = key)) as [->|Hne];
    [rewrite lookup_insert_eq, Hk|rewrite lookup_insert_ne by done];
    split; try done; try (intros; simplify_eq); eauto.
Qed.

Lemma ioCopy_keepsKinds h f w : keepsKinds w (ioCopy env h f w).1.
Proof.
  unfold ioCopy. destruct (faultOf env OpWrite _); [apply keepsKinds_refl|].
  apply appendData_keepsKinds.
Qed.

Lemma extractEntry_keepsKinds destDir f w :
  keepsKinds w (extractEntry env destDir f w).1.
Proof.
  unfold extractEntry.
  set (fpath := Filepath.Join [destDir; Name f]).
  destruct (IsDir f).
  - pose proof (MkdirAll_keepsKinds fpath w) as H.
    by destruct (MkdirAll env fpath w).
  - pose proof (MkdirAll_keepsKinds (Filepath.Dir fpath) w) as H1.
    destruct (MkdirAll env (Filepath.Dir fpath) w) as [w1 [e|]]; [exact H1|].
    pose proof (OpenFile_keepsKinds fpath (Mode f) w1) as H2.
    destruct (OpenFile env fpath (Mode f) w1) as [w2 [out|e]];
      [|exact (keepsKinds_trans _ _ _ H1 H2)].
    pose proof (keepsKinds_trans _ _ _ H1 H2) as H12.
    destruct (zOpen f w2) as [w3 [rc|e]] eqn:Hz; apply zOpen_nodes in Hz.
    + pose proof (ioCopy_keepsKinds out f w3) as H3.
      destruct (ioCopy env out f w3) as [w4 r]. cbn in *.
      eapply keepsKinds_trans; [exact H12|].
      eapply keepsKinds_trans; [apply keepsKinds_same; exact Hz|].
      eapply keepsKinds_trans; [exact H3|]. by apply keepsKinds_same.
    + cbn. eapply keepsKinds_trans; [exact H12|]. by apply keepsKinds_same.
Qed.

Lemma extractEntries_keepsKinds destDir fs : forall w,
  keepsKinds w (extractEntries env destDir fs w).1.
Proof.
  induction fs as [|f fs IH]; intros w; [apply keepsKinds_refl|].
  cbn [extractEntries].
  pose proof (extractEntry_keepsKinds destDir f w) as H.
  destruct (extractEntry env destDir f w) as [w1 [e|]]; [exact H|].
  exact (keepsKinds_trans _ _ _ H (IH w1)).
Qed.

Lemma extractZip_keepsKinds zipPath destDir w :
  keepsKinds w (extractZip env zipPath destDir w).1.
Proof.
  unfold extractZip.
  destruct (OpenReader env zipPath w) as [w1 [files|e]] eqn:Ho.
  - apply OpenReader_success in Ho as ->.
    pose proof (MkdirAll_keepsKinds destDir
                  (openHandle (HZip (Filepath.Clean zipPath)) w)) as H1.
    destruct (MkdirAll env destDir _) as [w2 r].
    pose proof (extractEntries_keepsKinds destDir files w2) as H2.
    destruct (extractEntries env destDir files w2) as [w3 res]. cbn in *.
    eapply keepsKinds_trans; [apply keepsKinds_same; reflexivity|].
    eapply keepsKinds_trans; [exact H1|].
    eapply keepsKinds_trans; [exact H2|]. by apply keepsKinds_same.
  - apply OpenReader_failure_pure in Ho as ->.
    case_decide; by apply keepsKinds_same.
Qed.

(** X1: [extractZip] never removes a node and never turns a directory
    into a file or a file into a directory, and a file that was there
    keeps its mode: whatever the archive holds and whatever fails, only
    the bytes of files that were there can differ afterwards. *)
Theorem extraction_keeps_kinds zipPath destDir w k n :
  nodes w !! k = Some n ->
  exists n',
    nodes (extractZip env zipPath destDir w).1 !! k = Some n' /\
    match n with
    | NDir => n' = NDir
    | NFile m _ => exists d', n' = NFile m d'
    end.
Proof.
  intros Hk.
  destruct (extractZip_keepsKinds zipPath destDir w k) as [Hd Hf].
  destruct n as [|m d].
  - exists NDir. split; [by apply Hd|reflexivity].
  - destruct (Hf m d Hk) as [d' Hk']. exists (NFile m d'). eauto.
Qed.
End Kinds.

Section Entries.
Context (env : Env).

Lemma dir_entry_never_fails destDir f w :
  IsDir f = true -> (extractEntry env destDir f w).2 = None.
Proof.
  intros H. unfold extractEntry. rewrite H.
  by destruct (MkdirAll env _ w).
Qed.

(** X2: an error that the loop of [extractZip] returns is the error of
    one file entry, never of a directory entry: the entries before it
    were extracted, it failed, and the world is left as it left it. *)
Theorem first_failing_entry destDir fs : forall w w' e,
  extractEntries env destDir fs w = (w', Some e) ->
  exists pre f post w1,
    fs = (pre ++ f :: post)%list /\
    IsDir f = false /\
    extractEntries env destDir pre w = (w1, None) /\
    extractEntry env destDir f w1 = (w', Some e).
Proof.
  induction fs as [|g fs IH]; intros w w' e H; [discriminate|].
  cbn [extractEntries] in H.
  destruct (extractEntry env destDir g w) as [wg [eg|]] eqn:Hg.
  - simplify_eq. exists [], g, fs, w. repeat split; [|exact Hg].
    destruct (IsDir g) eqn:Hd; [|reflexivity].
    pose proof (dir_entry_never_fails destDir g w Hd) as Hn.
    rewrite Hg in Hn. discriminate.
  - destruct (IH _ _ _ H) as (pre & f & post & w1 & -> & Hd & Hpre & Hf).
    exists (g :: pre), f, post, w1. repeat split; try done.
    cbn [extractEntries]. by rewrite Hg.
Qed.

(** X3: after a loop that went through, the file at the output path of
    a file entry holds the bytes of that entry, unless a later file entry
    has the same output path: the last one wins. *)
Theorem last_entry_wins destDir pre f post w w' :
  extractEntries env destDir (pre ++ f :: post) w = (w', None) ->
  IsDir f = false ->
  (forall g, In g post -> IsDir g = false ->
             outPath destDir g <> outPath destDir f) ->
  exists m, nodes w' !! outPath destDir f = Some (NFile m (Data f)).
Proof.
  intros H Hd Hlast.
  destruct (extractEntries env destDir pre w) as [w1 [e|]] eqn:Hpre.
  { exfalso. clear -H Hpre. revert w H Hpre.
    induction pre as [|g pre IH]; intros w H Hpre; [discriminate|].
    cbn [app extractEntries] in *.
    destruct (extractEntry env destDir g w) as [wg [eg|]]; [discriminate|].
    eauto. }
  rewrite (extractEntries_app env _ _ _ _ _ Hpre) in H.
  cbn [extractEntries] in H.
  destruct (extractEntry env destDir f w1) as [w2 [e|]] eqn:Hf;
    [discriminate|].
  destruct (extractEntry_writes env destDir f w1 w2 Hd Hf) as [m Hm].
  exists m. clear Hpre Hf. revert w2 H Hm.
  induction post as [|g post IH]; intros w2 H Hm.
  - cbn in H. by simplify_eq.
  - cbn [extractEntries] in H.
    destruct (extractEntry env destDir g w2) as [w3 [e|]] eqn:Hg;
      [discriminate|].
    apply (IH (fun g' Hin => Hlast g' (or_intror Hin)) w3 H).
    destruct (IsDir g) eqn:Hgd.
    + unfold extractEntry in Hg. rewrite Hgd in Hg.
      destruct (MkdirAll env _ w2) as [wm em] eqn:Hmk. simplify_eq.
      eapply MkdirAll_keeps; eauto.
    + eapply extractEntry_other_files; [exact Hg| |exact Hm].
      intros Heq. by apply (Hlast g (or_introl eq_refl) Hgd).
Qed.

(** X4: when the stream of an entry cannot be opened, the output file
    is there already: created, or emptied if it existed.  [extractZip]
    closes it, returns the error, and the file stays, with no bytes. *)
Theorem entry_open_failure_leaves_empty_file destDir f w w1 w2 out e :
  IsDir f = false ->
  MkdirAll env (Filepath.Dir (Filepath.Join [destDir; Name f])) w
    = (w1, None) ->
  OpenFile env (Filepath.Join [destDir; Name f]) (Mode f) w1
    = (w2, inl out) ->
  OpenErr f = Some e ->
  extractEntry env destDir f w = (Close out w2, Some e) /\
  handles (Close out w2) = handles w /\
  exists m,
    nodes (Close out w2) !! outPath destDir f = Some (NFile m []) /\
    (forall m0 d0, nodes w !! outPath destDir f = Some (NFile m0 d0) ->
                   m = m0).
Proof.
  intros Hd Hm Ho He.
  assert (extractEntry env destDir f w = (Close out w2, Some e)) as Hx.
  { unfold extractEntry. rewrite Hd, Hm, Ho. unfold zOpen. by rewrite He. }
  split; [exact Hx|]. split.
  { rewrite <- (extractEntry_handles env destDir f w). by rewrite Hx. }
  pose proof (OpenFile_key env [destDir; Name f] _ _ _ _ Ho) as Hkey.
  unfold OpenFile in Ho. fold (outPath destDir f) in *.
  destruct (String.eqb (outPath destDir f) ""); [discriminate|].
  rewrite Hkey in Ho.
  destruct (faultOf env OpOpen _); [discriminate|].
  destruct (resolve _ _) as [[|]|]; try discriminate.
  unfold nodeAt in Ho.
  destruct (implicitDir (outPath destDir f)); [discriminate|].
  destruct (nodes w1 !! outPath destDir f) as [[|m1 d1]|] eqn:Hk;
    [discriminate| |]; simplify_eq; cbn [nodes Close openHandle setNodes].
  - exists m1. rewrite lookup_insert_eq. split; [reflexivity|].
    intros m0 d0 Hw. pose proof (MkdirAll_keeps env _ _ _ _ _ _ Hm Hw).
    congruence.
  - exists (Mode f). rewrite lookup_insert_eq. split; [reflexivity|].
    intros m0 d0 Hw. pose proof (MkdirAll_keeps env _ _ _ _ _ _ Hm Hw).
    congruence.
Qed.
End Entries.

Lemma splitSlash_app_any a b : forall cur,
  Strings.splitSlash cur (a ++ "/" ++ b)
  = (Strings.splitSlash cur a ++ Strings.splitSlash "" b)%list.
Proof.
  induction a as [|c a IH]; intros cur.
  - reflexivity.
  - rewrite append_String. cbn [Strings.splitSlash].
    destruct (Ascii.eqb c "/"); by rewrite IH.
Qed.

Lemma rooted_app a b : a <> "" -> Filepath.rooted (a ++ b) = Filepath.rooted a.
Proof. by destruct a. Qed.

Lemma prefix_app a b : String.prefix a (a ++ b) = true.
Proof.
  induction a as [|c a IH]; [by destruct b|].
  rewrite append_String. cbn. by destruct (ascii_dec c c).
Qed.

(** Elements other than [..] only add to what [Clean] has kept. *)
Lemma fold_plain r cs : forall out,
  ~ In ".." cs ->
  exists top, fold_left (Filepath.cleanStep r) cs out = (top ++ out)%list.
Proof.
  induction cs as [|c cs IH]; intros out H; [by exists []|].
  cbn [fold_left].
  destruct (IH (Filepath.cleanStep r out c)) as [top Htop].
  { intros Hin. apply H. by right. }
  rewrite Htop. unfold Filepath.cleanStep.
  destruct (String.eqb c "" || String.eqb c "."); [by exists top|].
  destruct (String.eqb_spec c "..") as [->|_]; [destruct H; by left|].
  exists (top ++ [c])%list. by rewrite <- app_assoc.
Qed.

Lemma joinSlash_app l1 : forall l2,
  l1 <> [] -> l2 <> [] ->
  Strings.joinSlash (l1 ++ l2)
  = Strings.joinSlash l1 ++ "/" ++ Strings.joinSlash l2.
Proof.
  induction l1 as [|x l1 IH]; intros l2 H1 H2; [done|].
  destruct l1 as [|y l1].
  - destruct l2 as [|z l2]; [done|]. reflexivity.
  - change (Strings.joinSlash ((x :: y :: l1) ++ l2))
      with (x ++ "/" ++ Strings.joinSlash ((y :: l1) ++ l2)).
    rewrite IH by done.
    change (Strings.joinSlash (x :: y :: l1))
      with (x ++ "/" ++ Strings.joinSlash (y :: l1)).
    by rewrite !append_assoc'.
Qed.

(** X5: an entry whose stored name has no [..] element stays in the
    destination: its output path is the
    destination or lies below it. *)
Theorem plain_names_stay_inside destDir name :
  destDir <> "" ->
  Filepath.Clean destDir <> "/" ->
  Filepath.Clean destDir <> "." ->
  ~ In ".." (Strings.splitSlash "" name) ->
  Filepath.inside (Filepath.Clean destDir) (Filepath.Join [destDir; name])
  = true.
Proof.
  intros Hne Hroot Hdot Hplain.
  cbn [Filepath.Join]. destruct (String.eqb_spec destDir ""); [done|].
  cbn [Strings.joinSlash]. unfold Filepath.Clean in *.
  rewrite rooted_app by exact Hne.
  rewrite splitSlash_app_any, fold_left_app.
  set (r := Filepath.rooted destDir) in *.
  set (out := fold_left (Filepath.cleanStep r)
                (Strings.splitSlash "" destDir) []) in *.
  destruct (fold_plain r (Strings.splitSlash "" name) out Hplain)
    as [top ->].
  unfold Filepath.inside.
  destruct out as [|c out]; [by destruct r|].
  destruct top as [|t top].
  - cbn [app]. destruct r; by rewrite String.eqb_refl.
  - apply orb_true_iff. right.
    assert (((t :: top) ++ c :: out)%list <> []) as Hnil by done.
    destruct ((t :: top) ++ c :: out)%list as [|z l] eqn:Hz; [done|].
    rewrite <- Hz, rev_app_distr.
    rewrite joinSlash_app.
    2:{ intros H. apply (f_equal (@List.length _)) in H.
        rewrite length_rev in H. discriminate. }
    2:{ intros H. apply (f_equal (@List.length _)) in H.
        rewrite length_rev in H. discriminate. }
    set (J := Strings.joinSlash (rev (c :: out))).
    set (K := Strings.joinSlash (rev (t :: top))).
    destruct r.
    + rewrite <- (append_assoc' "/" J), <- (append_assoc' ("/" ++ J) "/" K).
      apply prefix_app.
    + rewrite <- (append_assoc' J "/" K). apply prefix_app.
Qed.

Lemma length_append s t :
  String.length (s ++ t) = String.length s + String.length t.
Proof.
  induction s as [|c s IH]; [reflexivity|].
  rewrite append_String. cbn. by rewrite IH.
Qed.

Lemma kept_nonempty c : kept c = true -> c <> "" /\ c <> "/".
Proof.
  unfold kept. intros H.
  apply andb_true_iff in H as [H _]. apply andb_true_iff in H as [Hs He].
  split; intros ->; discriminate.
Qed.

Lemma addElem_long acc c :
  kept c = true -> addElem acc c <> "" /\ addElem acc c <> "/".
Proof.
  intros Hk. destruct (kept_nonempty c Hk) as [H1 H2]. unfold addElem.
  destruct (String.eqb_spec acc ""); [done|].
  destruct (String.eqb_spec acc "/").
  - destruct c; [done|]. split; discriminate.
  - split; intros H; apply (f_equal String.length) in H;
      rewrite !length_append in H; cbn in H;
      destruct acc; cbn in H; try done; lia.
Qed.

Lemma fold_addElem l : forall acc,
  acc <> "" -> acc <> "/" -> l <> [] ->
  (forall c, In c l -> kept c = true) ->
  fold_left addElem l acc = acc ++ "/" ++ Strings.joinSlash l.
Proof.
  induction l as [|c l IH]; intros acc H1 H2 Hl Hk; [done|].
  cbn [fold_left].
  assert (addElem acc c = acc ++ "/" ++ c) as Hc.
  { unfold addElem. destruct (String.eqb_spec acc ""); [done|].
    by destruct (String.eqb_spec acc "/"). }
  destruct l as [|d l]; [exact Hc|].
  destruct (addElem_long acc c (Hk c (or_introl eq_refl))) as [H3 H4].
  rewrite IH; [|exact H3|exact H4|done|intros; apply Hk; by right].
  rewrite Hc.
  change (Strings.joinSlash (c :: d :: l))
    with (c ++ "/" ++ Strings.joinSlash (d :: l)).
  by rewrite !append_assoc'.
Qed.

Lemma fold_addElem_start x l (r : bool) :
  (forall c, In c (x :: l) -> kept c = true) ->
  fold_left addElem (x :: l) (if r then "/" else "")
  = if r then "/" ++ Strings.joinSlash (x :: l) else Strings.joinSlash (x :: l).
Proof.
  intros Hk. cbn [fold_left].
  destruct (addElem_long (if r then "/" else "") x (Hk x (or_introl eq_refl)))
    as [H1 H2].
  destruct l as [|y l]; [by destruct r|].
  rewrite fold_addElem; [|exact H1|exact H2|done|intros; apply Hk; by right].
  change (Strings.joinSlash (x :: y :: l))
    with (x ++ "/" ++ Strings.joinSlash (y :: l)).
  destruct r; reflexivity.
Qed.

Lemma prefixesFrom_last l : forall acc,
  l <> [] -> In (fold_left addElem l acc) (Filepath.prefixesFrom acc l).
Proof.
  induction l as [|c l IH]; intros acc Hl; [done|].
  cbn [Filepath.prefixesFrom fold_left]. fold (addElem acc c).
  destruct l as [|d l]; [by left|]. right. by apply IH.
Qed.

(** A clean path is the last of its own ancestors, when it has any. *)
Lemma ancestors_self path :
  implicitDir (Filepath.Clean path) = true \/
  In (Filepath.Clean path) (Filepath.ancestors (Filepath.Clean path)).
Proof.
  unfold Filepath.Clean.
  set (r := Filepath.rooted path).
  set (out := fold_left (Filepath.cleanStep r)
                (Strings.splitSlash "" path) []).
  assert (cleaned r out) as Hout.
  { apply fold_cleaned; [|exact I].
    intros c Hc. by apply (splitSlash_elements path "" c). }
  destruct out as [|c out]; [left; by destruct r|]. right.
  assert (exists x l, rev (c :: out) = x :: l) as (x & l & Hrev).
  { destruct (rev (c :: out)) as [|x l] eqn:Hr; [|eauto].
    apply (f_equal (@List.length _)) in Hr. rewrite length_rev in Hr.
    discriminate. }
  assert (forall y, In y (x :: l) -> kept y = true) as Hkept.
  { intros y Hy. apply (cleaned_kept r (c :: out)); [exact Hout|].
    apply in_rev. by rewrite Hrev. }
  assert (filter (fun c => c <> "") (x :: l) = x :: l) as Hfil.
  { clear -Hkept. induction (x :: l) as [|y l' IH]; [reflexivity|].
    rewrite filter_cons.
    destruct (kept_nonempty y (Hkept y (or_introl eq_refl))) as [Hy _].
    case_decide; [|done]. f_equal. apply IH. intros; apply Hkept. by right. }
  rewrite Hrev. unfold Filepath.ancestors.
  destruct r.
  - rewrite append_String. cbn [Filepath.rooted Strings.splitSlash].
    change (Ascii.eqb "/" "/") with true. cbn match.
    rewrite !append_nil_l.
    rewrite splitSlash_join
      by (intros y Hy; apply kept_noSlash, Hkept, Hy).
    rewrite append_nil_l, filter_cons. case_decide; [done|]. rewrite Hfil.
    pose proof (fold_addElem_start x l true Hkept) as Hf. cbv iota in Hf.
    change (String "/" (Strings.joinSlash (x :: l)))
      with ("/" ++ Strings.joinSlash (x :: l)).
    rewrite <- Hf. by apply prefixesFrom_last.
  - rewrite rooted_join by (apply Hkept; by left).
    rewrite splitSlash_join
      by (intros y Hy; apply kept_noSlash, Hkept, Hy).
    rewrite append_nil_l, Hfil.
    pose proof (fold_addElem_start x l false Hkept) as Hf. cbv iota in Hf.
    rewrite <- Hf. by apply prefixesFrom_last.
Qed.

Section Retry.
Context (env : Env).

Lemma nodeAt_insert_dir nd d k :
  nodeAt nd k = Some NDir -> nodeAt (<[d := NDir]> nd) k = Some NDir.
Proof.
  unfold nodeAt. destruct (implicitDir k); [done|].
  intros H. destruct (decide (d = k)) as [->|Hne].
  - by rewrite lookup_insert_eq.
  - by rewrite lookup_insert_ne.
Qed.

Lemma mkdirs_keeps_dirs dirs : forall nd nd' e k,
  mkdirs env dirs nd = (nd', e) ->
  nodeAt nd k = Some NDir -> nodeAt nd' k = Some NDir.
Proof.
  induction dirs as [|d rest IH]; intros nd nd' e k H Hk; cbn in H.
  - by simplify_eq.
  - destruct (nodeAt nd d) as [[|m dt]|]; [eauto|by simplify_eq|].
    destruct (faultOf env OpMkdir d); [by simplify_eq|].
    eapply IH; [exact H|]. by apply nodeAt_insert_dir.
Qed.

(** [os.MkdirAll] that returns nil has found or made every directory. *)
Lemma mkdirs_made dirs : forall nd nd' d,
  mkdirs env dirs nd = (nd', None) ->
  In d dirs -> nodeAt nd' d = Some NDir.
Proof.
  induction dirs as [|x rest IH]; intros nd nd' d H Hin; [done|].
  cbn in H.
  destruct (nodeAt nd x) as [[|m dt]|] eqn:Hx; [|by simplify_eq|].
  - destruct Hin as [<-|Hin]; [|eauto].
    eapply mkdirs_keeps_dirs; eauto.
  - destruct (faultOf env OpMkdir x); [by simplify_eq|].
    destruct Hin as [<-|Hin]; [|eauto].
    eapply mkdirs_keeps_dirs; [exact H|].
    unfold nodeAt in *. destruct (implicitDir x); [done|].
    by rewrite lookup_insert_eq.
Qed.

Lemma MkdirAll_made path w w' :
  MkdirAll env path w = (w', None) ->
  nodeAt (nodes w') (Filepath.Clean path) = Some NDir.
Proof.
  unfold MkdirAll. destruct (String.eqb path ""); [discriminate|].
  destruct (mkdirs env _ (nodes w)) as [nd e] eqn:Hm.
  intros H. simplify_eq. cbn.
  destruct (ancestors_self path) as [Hi|Hin].
  - unfold nodeAt. by rewrite Hi.
  - eapply mkdirs_made; eauto.
Qed.

Lemma keepsKinds_nodeAt w w' k :
  keepsKinds w w' ->
  nodeAt (nodes w) k = Some NDir -> nodeAt (nodes w') k = Some NDir.
Proof.
  intros H. unfold nodeAt. destruct (implicitDir k); [done|].
  apply H.
Qed.

(** X6: once [extractZip] has opened the archive and made the
    destination,
    the destination is there when it returns, whatever it returns: a
    worker that is handed the same path again skips it, so an extraction
    that failed half-way is not taken up again. *)
Theorem attempted_extraction_is_not_retried zipPath destDir w w1 files :
  OpenReader env zipPath w = (w1, inl files) ->
  (MkdirAll env destDir w1).2 = None ->
  nodeAt (nodes (extractZip env zipPath destDir w).1)
    (Filepath.Clean destDir) = Some NDir /\
  forall s i path,
    alive s = true ->
    world s = (extractZip env zipPath destDir w).1 ->
    workers s !! i = Some (WGot path) ->
    destDirOf path = destDir ->
    exec env (AWorker i) s = skipped s i path.
Proof.
  intros Ho Hm.
  assert (destDir <> "") as Hne.
  { intros ->. unfold MkdirAll in Hm. cbn in Hm. discriminate. }
  assert (nodeAt (nodes (extractZip env zipPath destDir w).1)
            (Filepath.Clean destDir) = Some NDir) as Hdir.
  { unfold extractZip. rewrite Ho.
    destruct (MkdirAll env destDir w1) as [w2 e] eqn:Hmk.
    cbn in Hm. subst e.
    pose proof (MkdirAll_made _ _ _ Hmk) as Hd.
    pose proof (extractEntries_keepsKinds env destDir files w2) as Hk.
    destruct (extractEntries env destDir files w2) as [w3 res]. cbn in *.
    by apply (keepsKinds_nodeAt w2 w3). }
  split; [exact Hdir|].
  intros s i path Ha Hw Hi Hd.
  apply step_WGot; [exact Ha|exact Hi|].
  rewrite Hd, Hw. by apply Stat_present.
Qed.
End Retry.

(* ===================================================================== *)
(** ** The ticks as rules, and what every run keeps *)
(* ===================================================================== *)

(** Every tick of [exec] is one of the rules. *)
Lemma exec_step env a s : step env a s (exec env a s).2 (exec env a s).1.
Proof.
  unfold exec. destruct (alive s); [|constructor].
  destruct a as [|i| |].
  - unfold stepWalker, panic.
    destruct (walker s) as [root|[|[dir [|name rest]] stk]|path stk|e| |]
      eqn:Hk; cbn [fst snd].
    + by eapply StWalkStart.
    + by apply StWalkEnd.
    + by eapply StWalkLeave.
    + by eapply StWalkVisit.
    + destruct (sendPath path s) as [s1| |] eqn:Hs; cbn [fst snd].
      * apply sendPath_Sent in Hs as (Hc & Hl & ->). by apply StEnqueue.
      * constructor.
      * eapply StEnqueuePanic; [exact Hk|]. unfold sendPath in Hs.
        destruct (closed (pathsChan s)); [done|]. by case_match.
    + destruct (sendErr e s) as [s1| |] eqn:Hs; cbn [fst snd].
      * apply sendErr_Sent in Hs as (Hc & [(Hl & ->)|(H0 & Hm & ->)]).
        -- by apply StWalkSend.
        -- by apply StWalkHand.
      * constructor.
      * eapply StWalkPanic; [exact Hk|]. unfold sendErr in Hs.
        destruct (closed (errChan s)); [done|]. by repeat case_match.
    + by apply StClosePaths.
    + constructor.
  - unfold stepWorker, panic.
    destruct (workers s !! i) as [[|path|path destDir|e|]|] eqn:Hi;
      cbn [fst snd]; try constructor.
    + destruct (buf (pathsChan s)) as [|p rest] eqn:Hb.
      * destruct (closed (pathsChan s)) eqn:Hc; cbn [fst snd].
        -- by apply StDrained.
        -- constructor.
      * by apply StRecv.
    + destruct (IsNotExist _) eqn:Hst; cbn [fst snd].
      * by apply StBegin.
      * by apply StSkip.
    + destruct (extractZip env path destDir (world s)) as [w1 res] eqn:Hx.
      destruct res as [e|]; cbn [fst snd].
      * by apply (StExtracted env s i path destDir w1 (Some e)).
      * by apply (StExtracted env s i path destDir w1 None).
    + destruct (sendErr e s) as [s1| |] eqn:Hs; cbn [fst snd].
      * apply sendErr_Sent in Hs as (Hc & [(Hl & ->)|(H0 & Hm & ->)]).
        -- exact (StWorkerSend env s i e Hi Hc Hl).
        -- exact (StWorkerHand env s i e Hi Hc H0 Hm).
      * constructor.
      * eapply StWorkerPanic; [exact Hi|]. unfold sendErr in Hs.
        destruct (closed (errChan s)); [done|]. by repeat case_match.
  - unfold stepCloser.
    destruct (closerDone s) eqn:Hc; [constructor|].
    destruct (Nat.eqb_spec (wg s) 0); cbn [fst snd]; [|constructor].
    by apply StCloseErrs.
  - unfold stepMain.
    destruct (mainSt s) as [|[e|]|code] eqn:Hm; cbn [fst snd].
    + destruct (buf (errChan s)) as [|x rest] eqn:Hb.
      * destruct (closed (errChan s)) eqn:Hc; cbn [fst snd].
        -- by apply StMainDone.
        -- constructor.
      * by apply StMainRecv.
    + by apply StMainExit.
    + by apply StMainNext.
    + constructor.
Qed.

Lemma run_invariant env sched s0 (P : state -> Prop) :
  Inv s0 -> P s0 ->
  (forall a s ev s',
     Inv s -> alive s = true -> P s -> step env a s ev s' -> P s') ->
  forall t, P (run env sched s0 t).
Proof.
  intros HI0 H0 Hstep t.
  assert (Inv (run env sched s0 t) /\ P (run env sched s0 t)) as [_ H];
    [|exact H].
  induction t as [|t [HI HP]]; [by split|]. cbn [run]. split.
  - by apply Inv_exec.
  - destruct (alive (run env sched s0 t)) eqn:Ha.
    + eapply Hstep; [exact HI|exact Ha|exact HP|apply exec_step].
    + by rewrite exec_dead.
Qed.

Lemma walkFn_zip path info e stk p stk' :
  walkFn path info e stk = WkSendPath p stk' -> isZip p.
Proof.
  unfold walkFn. destruct e; [done|].
  destruct info as [[|m d]|]; try done.
  destruct (Strings.HasSuffix path ".zip") eqn:H; [|done].
  intros [= <- _]. exact H.
Qed.

Lemma walkVisit_zip env w path stk p stk' :
  walkVisit env w path stk = WkSendPath p stk' -> isZip p.
Proof.
  unfold walkVisit, walkEnter.
  destruct (Lstat env path w) as [[|m d]|e]; try apply walkFn_zip.
  destruct (readDirNames env path w); apply walkFn_zip.
Qed.

Lemma lookup_insert_cases (l : list workerState) i j x y :
  <[i := x]> l !! j = Some y -> (j = i /\ y = x) \/ l !! j = Some y.
Proof.
  intros H. destruct (decide (i = j)) as [->|Hne].
  - destruct (decide (j < List.length l)) as [Hlt|Hge].
    + rewrite list_lookup_insert_eq in H by exact Hlt. left. by simplify_eq.
    + rewrite list_insert_ge in H by lia. by right.
  - rewrite list_lookup_insert_ne in H by exact Hne. by right.
Qed.

Lemma TaskInv_step env a s ev s' :
  TaskInv s -> step env a s ev s' -> TaskInv s'.
Proof.
  intros [Hq Hw Hg Hx] Hstep.
  destruct Hstep; try (split; cbn; assumption); split; cbn;
    try assumption; try done.
  all: try (intros; simplify_eq; eauto using walkVisit_zip; fail).
  all: try (intros j p' d' Hj || intros j p' Hj);
    try (apply lookup_insert_cases in Hj as [[-> Hj]|Hj]; simplify_eq;
         eauto; fail).
  - apply Forall_app. split; [exact Hq|]. constructor; [eauto|constructor].
  - rewrite H0 in Hq. by inversion Hq.
  - apply lookup_insert_cases in Hj as [[-> Hj]|Hj]; simplify_eq; eauto.
    rewrite H0 in Hq. by inversion Hq.
  - apply lookup_insert_cases in Hj as [[-> Hj]|Hj]; eauto.
    destruct res; discriminate.
  - apply lookup_insert_cases in Hj as [[-> Hj]|Hj]; eauto.
    destruct res; discriminate.
Qed.

Lemma countLive_zero l i ws :
  countLive l = 0 -> l !! i = Some ws -> ws = WDone.
Proof.
  intros H0 Hi. destruct (decide (ws = WDone)) as [|Hne]; [done|].
  pose proof (countLive_pos l i ws Hi Hne). lia.
Qed.

Lemma step_queue env a s e s' :
  step env a s e s' ->
  (buf (pathsChan s) ++ match e with EvEnqueue p => [p] | _ => [] end
   = match e with EvRecv _ p => [p] | _ => [] end ++ buf (pathsChan s'))%list.
Proof.
  intros Hs.
  destruct Hs; cbn [buf pathsChan setWalker setPaths setErrs setMain
                     setWorker setWorld setWg setCloser skipped fst];
    rewrite ?app_nil_r; try reflexivity.
  - subst k. destruct (walkVisit env (world s) root []); cbn;
      by rewrite ?app_nil_r.
  - subst k. destruct (walkVisit env (world s) _ _); cbn;
      by rewrite ?app_nil_r.
  - by rewrite H0.
Qed.

Lemma all_done_when_closed s i ws :
  Inv s -> closed (errChan s) = true -> workers s !! i = Some ws ->
  ws = WDone.
Proof.
  intros HI Hc Hi. eapply countLive_zero; [|exact Hi].
  rewrite <- (inv_wg _ HI). by apply (inv_errsClosed _ HI).
Qed.

Section RunFacts.
Context (env : Env) (N : nat) (root : string) (w0 : World).
Context (sched : nat -> actor).

Local Abbreviation s0 := (init N root w0).
Local Abbreviation r := (run env sched (init N root w0)).
Local Abbreviation ev := (eventAt env sched (init N root w0)).

Lemma step_at t : step env (sched t) (r t) (ev t) (r (S t)).
Proof. apply exec_step. Qed.

(** X7: every path that is on the Work Queue or in the hands of a
    worker ends in [.zip], and the destination a worker extracts into is
    that path without the suffix. *)
Theorem tasks_end_in_zip t :
  Forall (fun p => p = destDirOf p ++ ".zip") (buf (pathsChan (r t))) /\
  (forall i p, workers (r t) !! i = Some (WGot p) ->
               p = destDirOf p ++ ".zip") /\
  (forall i p d, workers (r t) !! i = Some (WExtract p d) ->
                 p = d ++ ".zip").
Proof.
  assert (TaskInv (r t)) as [Hq _ Hg Hx].
  { apply run_invariant.
    - apply Inv_init.
    - split; cbn.
      + constructor.
      + done.
      + intros i p [? _]%lookup_replicate. done.
      + intros i p d [? _]%lookup_replicate. done.
    - intros a s e s' _ _. apply TaskInv_step. }
  split; [|split].
  - eapply Forall_impl; [exact Hq|]. intros p Hp.
    by apply TrimSuffix_HasSuffix.
  - intros i p Hi. apply TrimSuffix_HasSuffix. by eapply Hg.
  - intros i p d Hi. destruct (Hx i p d Hi) as [Hz ->].
    by apply TrimSuffix_HasSuffix.
Qed.

Lemma enqueuedBy_S t :
  enqueuedBy env sched s0 (S t)
  = (enqueuedBy env sched s0 t
     ++ match ev t with EvEnqueue p => [p] | _ => [] end)%list.
Proof.
  unfold enqueuedBy. rewrite seq_S, omap_app. f_equal.
  cbn. by destruct (eventAt env sched s0 t).
Qed.

Lemma receivedBy_S t :
  receivedBy env sched s0 (S t)
  = (receivedBy env sched s0 t
     ++ match ev t with EvRecv _ p => [p] | _ => [] end)%list.
Proof.
  unfold receivedBy. rewrite seq_S, omap_app. f_equal.
  cbn. by destruct (eventAt env sched s0 t).
Qed.

(** X8: the Work Queue loses and invents nothing, and keeps the order:
    the paths the walker has put on it are the paths the workers have
    taken from it, followed by the paths that wait on it. *)
Theorem queue_conserves_tasks t :
  enqueuedBy env sched s0 t
  = (receivedBy env sched s0 t ++ buf (pathsChan (r t)))%list.
Proof.
  induction t as [|t IH]; [reflexivity|].
  rewrite enqueuedBy_S, receivedBy_S, IH, <- !app_assoc. f_equal.
  eapply step_queue, step_at.
Qed.

(** X9: the counter of the wait group is the number of workers that
    have not returned, and the Error Channel is closed only when every
    worker has returned. *)
Theorem error_channel_closes_after_workers t :
  wg (r t) = countLive (workers (r t)) /\
  (closed (errChan (r t)) = true ->
   forall i ws, workers (r t) !! i = Some ws -> ws = WDone).
Proof.
  pose proof (Inv_run env sched N root w0 t) as HI.
  split; [apply HI|].
  intros Hc i ws Hi. by eapply all_done_when_closed.
Qed.

(** X10: only the walker can panic, and only at the send of a walk
    error on the Error Channel after every worker has returned and the
    channel has been closed: the Work Queue is never closed under a
    send, and no worker ever sends on the closed Error Channel. *)
Theorem only_the_walker_panics t :
  eventAt env sched (init N root w0) t = EvPanic ->
  sched t = AWalker /\
  exists e,
    walker (run env sched (init N root w0) t) = WkSendErr e /\
    closed (errChan (run env sched (init N root w0) t)) = true /\
    (forall i ws,
       workers (run env sched (init N root w0) t) !! i = Some ws ->
       ws = WDone).
Proof.
  intros Hev. pose proof (step_at t) as Hs. rewrite Hev in Hs.
  pose proof (Inv_run env sched N root w0 t) as HI.
  inversion Hs as [| | | | | |s p stk Hk Hc|
                   | |s e Hk Hc| | | | | | | |
                   |s i e Hi Hc| | | | | ]; subst;
    try match goal with
        | H : eventOfWalker ?k = EvPanic |- _ => by destruct k
        end.
  - pose proof (inv_pathsClosed _ HI Hc). congruence.
  - split; [done|]. exists e. repeat split; try done.
    intros i ws Hi. by eapply all_done_when_closed.
  - pose proof (all_done_when_closed _ i _ HI Hc Hi). discriminate.
Qed.
End RunFacts.

(* ===================================================================== *)
(** ** How a run ends *)
(* ===================================================================== *)

Lemma snoc_not_nil {A} (l : list A) x : (l ++ [x])%list <> [].
Proof. by destruct l. Qed.

Lemma errSeen_step env a s e s' :
  Inv s -> alive s = true -> errSeen s -> step env a s e s' -> errSeen s'.
Proof.
  intros HI Ha Hseen Hs. unfold errSeen in *.
  destruct Hs; cbn [buf errChan mainSt setWalker setPaths setErrs setMain
                     setWorker setWorld setWg setCloser skipped fst];
    try exact Hseen; auto using snoc_not_nil; eauto using snoc_not_nil.
  all: try (left; apply snoc_not_nil).
  all: try (right; left; eauto; fail).
  - (* main receives *)
    pose proof (inv_errsNonNil _ HI) as Hnn. rewrite H0 in Hnn.
    inversion Hnn; subst. destruct e as [e|]; [|done].
    right. left. eauto.
  - destruct Hseen as [Hb|[[e He]|[He|He]]]; congruence.
  - pose proof (inv_mainGot _ HI). congruence.
Qed.

Lemma errorPending_step env a s e s' :
  Inv s -> alive s = true -> errorPending s -> step env a s e s' ->
  errorPending s'.
Proof.
  intros HI Ha [[x Hw]|[(j & x & Hj)|Hseen]] Hs;
    [| |right; right; by eapply errSeen_step].
  - destruct Hs; try congruence;
      try (left; exists x; exact Hw);
      unfold errorPending, errSeen;
      cbn [buf errChan mainSt walker workers setWalker setPaths setErrs
           setMain setWorker setWorld setWg setCloser skipped fst];
      eauto 10 using snoc_not_nil.
  - destruct Hs;
      unfold errorPending, errSeen;
      cbn [buf errChan mainSt walker workers setWalker setPaths setErrs
           setMain setWorker setWorld setWg setCloser skipped fst];
      eauto 10 using snoc_not_nil;
      try (destruct (decide (i = j)) as [->|Hne];
           [congruence|
            right; left; exists j, x;
            by rewrite list_lookup_insert_ne]).
Qed.

Lemma failure_pending env a s e s' :
  step env a s e s' -> failure e = true -> errorPending s'.
Proof.
  intros Hs Hf. unfold errorPending, errSeen.
  destruct Hs; try discriminate;
    cbn [buf errChan mainSt walker workers setWalker setPaths setErrs
         setMain setWorker setWorld setWg setCloser skipped fst];
    eauto 10 using snoc_not_nil.
  - subst k. destruct (walkVisit env (world s) root []); try discriminate.
    eauto.
  - subst k. destruct (walkVisit env (world s) _ _); try discriminate.
    eauto.
  - destruct res as [x|]; [|discriminate]. right. left. exists i, x.
    apply list_lookup_insert_eq. by eapply lookup_lt_Some.
Qed.

Lemma ExitInv_init N root w0 : ExitInv (init N root w0).
Proof.
  split; cbn; try done.
  intros i [? _]%lookup_replicate. done.
Qed.

Lemma ExitInv_step env a s e s' :
  Inv s -> alive s = true -> ExitInv s -> step env a s e s' -> ExitInv s'.
Proof.
  intros HI Ha [Hz Hc Hd] Hs.
  assert (forall i, workers s !! i = Some WDone ->
            (closed (pathsChan s) = true /\ buf (pathsChan s) = []) \/
            errSeen s') as Hd'.
  { intros i Hi. destruct (Hd i Hi) as [H|H]; [by left|right].
    by eapply errSeen_step. }
  unfold alive in Ha.
  destruct Hs; split;
    cbn [buf errChan pathsChan mainSt walker workers closed
         setWalker setPaths setErrs
         setMain setWorker setWorld setWg setCloser skipped fst] in *;
    try done; try (intros c0 [= <-]; lia);
    try (intros ?; rewrite ?H, ?H0, ?H1, ?H2 in Ha; congruence);
       try (intros j Hj; destruct (Hd' j Hj) as [[Hcl Hb]|Hseen];
            [|by right]; try congruence; try (left; by split);
            pose proof (inv_pathsClosed _ HI Hcl); congruence);
       try (intros j Hj; apply lookup_insert_cases in Hj as [[-> Hj]|Hj];
            try discriminate;
            try (destruct res; discriminate);
            try (left; by split);
            try (right; unfold errSeen;
                 cbn [buf errChan mainSt setWalker setPaths setErrs
                        setMain setWorker setWorld setWg]; 
                 eauto using snoc_not_nil; fail);
            (destruct (Hd' j Hj) as [[Hcl Hb]|Hseen];
             [|by right]; try congruence; try (left; by split))).
Qed.

Lemma recv_step env a s i p s' :
  step env a s (EvRecv i p) s' -> workers s' !! i = Some (WGot p).
Proof.
  intros Hs.
  inversion Hs; subst;
    try match goal with
        | H : eventOfWalker ?k = _ |- _ => by destruct k
        end.
  cbn. apply list_lookup_insert_eq. by eapply lookup_lt_Some.
Qed.

Lemma handling_step env a s e s' i p :
  step env a s e s' ->
  workers s !! i = Some (WGot p) \/
  workers s !! i = Some (WExtract p (destDirOf p)) ->
  (workers s' !! i = Some (WGot p) \/
   workers s' !! i = Some (WExtract p (destDirOf p))) \/
  e = EvSkip i p \/ exists res, e = EvExtracted i p res.
Proof.
  intros Hs Hi.
  destruct Hs;
    cbn [workers setWalker setPaths setErrs setMain setWorker setWorld
         setWg setCloser skipped fst];
    try (by left);
    (destruct (decide (i = i0)) as [->|Hne];
     [|left; by rewrite list_lookup_insert_ne]);
    destruct Hi as [Hi|Hi]; simplify_eq; eauto.
  left. right. apply list_lookup_insert_eq. by eapply lookup_lt_Some.
Qed.

(** A path taken from the Work Queue by worker [i] is in its hands, or
    has been skipped or extracted by it, at every later time. *)
Lemma taken_then_handled env sched s0 t u i p :
  u < t -> eventAt env sched s0 u = EvRecv i p ->
  workers (run env sched s0 t) !! i = Some (WGot p) \/
  workers (run env sched s0 t) !! i = Some (WExtract p (destDirOf p)) \/
  exists v, u < v < t /\
    (eventAt env sched s0 v = EvSkip i p \/
     exists res, eventAt env sched s0 v = EvExtracted i p res).
Proof.
  intros Hlt Hev. induction Hlt as [|t Hlt IH].
  - left. eapply recv_step. rewrite <- Hev. apply exec_step.
  - destruct IH as [Hi|[Hi|(v & Hv & Hh)]];
      [| |right; right; exists v; split; [lia|exact Hh]].
    + destruct (handling_step env _ _ _ _ i p
                  (exec_step env (sched t) (run env sched s0 t))
                  (or_introl Hi)) as [[H|H]|H]; auto.
      right. right. exists t. split; [lia|exact H].
    + destruct (handling_step env _ _ _ _ i p
                  (exec_step env (sched t) (run env sched s0 t))
                  (or_intror Hi)) as [[H|H]|H]; auto.
      right. right. exists t. split; [lia|exact H].
Qed.

Section ExitFacts.
Context (env : Env) (N : nat) (root : string) (w0 : World).
Context (sched : nat -> actor).

Local Abbreviation s0 := (init N root w0).
Local Abbreviation r := (run env sched (init N root w0)).
Local Abbreviation ev := (eventAt env sched (init N root w0)).

Lemma run_ExitInv t : ExitInv (r t).
Proof.
  apply run_invariant.
  - apply Inv_init.
  - apply ExitInv_init.
  - intros a s e s'. apply ExitInv_step.
Qed.

Lemma dead_event u : alive (r u) = false -> ev u = EvBlocked.
Proof. intros Hd. unfold eventAt. by rewrite exec_dead. Qed.

Lemma pending_after u t :
  u < t -> failure (ev u) = true -> errorPending (r t).
Proof.
  intros Hlt Hf. induction Hlt as [|t Hlt IH].
  - eapply failure_pending; [apply step_at|exact Hf].
  - destruct (alive (r t)) eqn:Ha.
    + eapply errorPending_step; [apply Inv_run|exact Ha|exact IH|].
      apply step_at.
    + cbn [run]. by rewrite exec_dead.
Qed.

(** X11: a path a worker has taken from the Work Queue is not dropped:
    at any later time that worker still holds it, before or at the
    extraction, or it has skipped or extracted it since. *)
Theorem received_tasks_are_handled t u i p :
  u < t -> ev u = EvRecv i p ->
  workers (r t) !! i = Some (WGot p) \/
  workers (r t) !! i = Some (WExtract p (destDirOf p)) \/
  exists v, u < v < t /\
    (ev v = EvSkip i p \/ exists res, ev v = EvExtracted i p res).
Proof. apply taken_then_handled. Qed.

(** X12: a run with at least one worker that ends with status 0 is a
    clean one: no walk error, no failed extraction, no send of an error
    and no panic at any time; the walk is over, every worker has
    returned, the Work Queue is empty, and every path taken from it was
    skipped or extracted without an error. *)
Theorem exit_zero_is_clean t :
  1 <= N ->
  mainSt (r t) = MExited 0 ->
  (forall u, failure (ev u) = false) /\
  walker (r t) = WkDone /\
  (forall i ws, workers (r t) !! i = Some ws -> ws = WDone) /\
  buf (pathsChan (r t)) = [] /\
  (forall u i p, ev u = EvRecv i p ->
     exists v, u < v < t /\
       (ev v = EvSkip i p \/ ev v = EvExtracted i p None)).
Proof.
  intros HN Hexit.
  pose proof (run_ExitInv t) as [Hz _ Hd].
  destruct (Hz Hexit) as [Hcl Hbuf].
  assert (forall i ws, workers (r t) !! i = Some ws -> ws = WDone) as Hall.
  { intros i ws Hi.
    exact (all_done_when_closed _ i ws (Inv_run env sched N root w0 t)
             Hcl Hi). }
  assert (~ errSeen (r t)) as Hns.
  { intros [H|[[e H]|[H|H]]]; congruence. }
  assert (closed (pathsChan (r t)) = true /\ buf (pathsChan (r t)) = [])
    as [Hpc Hpb].
  { destruct (lookup_lt_is_Some_2 (workers (r t)) 0) as [ws H0].
    - rewrite run_workers_length. lia.
    - pose proof (Hall 0 ws H0) as ->.
      destruct (Hd 0 H0) as [H|H]; [exact H|done]. }
  pose proof (inv_pathsClosed _ (Inv_run env sched N root w0 t) Hpc) as Hw.
  assert (~ errorPending (r t)) as Hnp.
  { intros [[e H]|[(i & e & H)|H]]; [congruence| |done].
    pose proof (Hall i _ H). discriminate. }
  assert (alive (r t) = false) as Hdead by (unfold alive; by rewrite Hexit).
  assert (forall u, t <= u -> ev u = EvBlocked) as Hlate.
  { intros u Hu. apply dead_event. by eapply dead_forever. }
  assert (forall u, failure (ev u) = false) as Hnf.
  { intros u. destruct (decide (u < t)) as [Hlt|Hge].
    - destruct (failure (ev u)) eqn:Hf; [|done].
      destruct Hnp. by eapply pending_after.
    - rewrite Hlate by lia. done. }
  split; [exact Hnf|]. split; [exact Hw|]. split; [exact Hall|]. split.
  - exact Hpb.
  - intros u i p Hev.
    destruct (decide (u < t)) as [Hlt|Hge].
    + destruct (taken_then_handled env sched s0 t u i p Hlt Hev)
        as [H|[H|(v & Hv & Hh)]].
      * pose proof (Hall i _ H). discriminate.
      * pose proof (Hall i _ H). discriminate.
      * exists v. split; [exact Hv|].
        destruct Hh as [Hh|[[e|] Hh]]; auto.
        pose proof (Hnf v) as Hf. rewrite Hh in Hf. discriminate.
    + rewrite Hlate in Hev by lia. discriminate.
Qed.
End ExitFacts.

Lemma sendErr_step env a s b e s' :
  step env a s (EvSendErr b e) s' -> errSeen s'.
Proof.
  intros Hs. unfold errSeen.
  inversion Hs; subst;
    try match goal with
        | H : eventOfWalker ?k = _ |- _ => by destruct k
        end;
    cbn [buf errChan mainSt setWalker setPaths setErrs setMain setWorker
         setWorld setWg setCloser]; eauto using snoc_not_nil.
Qed.

(** With an error held or seen and a worker started, the process has not
    ended with status 0. *)
Lemma pending_not_zero s i ws :
  Inv s -> ExitInv s -> workers s !! i = Some ws ->
  errorPending s -> mainSt s <> MExited 0.
Proof.
  intros HI [Hz _ Hd] Hi Hp Hexit.
  destruct (Hz Hexit) as [Hcl Hbuf].
  assert (forall j x, workers s !! j = Some x -> x = WDone) as Hall.
  { intros j x Hj. eapply countLive_zero; [|exact Hj].
    rewrite <- (inv_wg _ HI). by apply (inv_errsClosed _ HI). }
  assert (~ errSeen s) as Hns.
  { intros [H|[[e H]|[H|H]]]; congruence. }
  destruct Hp as [[e H]|[(j & e & H)|H]]; [| |done].
  - pose proof (Hall i ws Hi) as ->.
    destruct (Hd i Hi) as [[Hpc _]|H']; [|done].
    pose proof (inv_pathsClosed _ HI Hpc). congruence.
  - pose proof (Hall j _ H). discriminate.
Qed.

Section Liveness.
Context (env : Env) (N : nat) (root : string) (w0 : World).
Context (sched : nat -> actor).
Hypothesis Hfair : fair N sched.

Local Abbreviation s0 := (init N root w0).
Local Abbreviation r := (run env sched (init N root w0)).
Local Abbreviation ev := (eventAt env sched (init N root w0)).

(** What no other goroutine disturbs holds until [a] is scheduled. *)
Lemma until_tick (a : actor) (P : state -> Prop) u :
  In a (goroutines N) ->
  (forall b s, b <> a -> P s -> P (exec env b s).1) ->
  P (r u) -> exists m, u <= m /\ sched m = a /\ P (r m).
Proof.
  intros Hin Hkeep. destruct (Hfair a Hin u) as (m & Hm & Hs).
  remember (m - u) as d eqn:Hd. revert u Hm Hd.
  induction d as [|d IH]; intros u Hm Hd HP.
  - assert (m = u) as -> by lia. eauto.
  - destruct (decide (sched u = a)) as [Hu|Hu]; [eauto|].
    destruct (IH (S u)) as (m' & H1 & H2 & H3); [lia|lia| |].
    + cbn [run]. by apply Hkeep.
    + exists m'. split; [lia|]. by split.
Qed.

Lemma seen_ends u :
  errSeen (r u) -> exists v, u <= v /\ alive (r v) = false.
Proof.
  intros [H|[[e H]|[H|H]]].
  - by apply errs_pending_exits.
  - by eapply main_got_exits.
  - exists u. split; [lia|]. unfold alive. by rewrite H.
  - exists u. split; [lia|]. unfold alive. by rewrite H.
Qed.

Lemma pending_ends u :
  1 <= N -> errorPending (r u) -> exists v, u <= v /\ alive (r v) = false.
Proof.
  intros HN [[e Hw]|[(i & e & Hi)|H]]; [| |by apply seen_ends].
  - destruct (until_tick AWalker (fun s => walker s = WkSendErr e) u)
      as (m & Hm & Hs & Hwm); [cbn; auto| |exact Hw|].
    { intros b s Hb <-. by apply exec_walker_other. }
    destruct (alive (r m)) eqn:Ha; [|by exists m].
    destruct (buf (errChan (r m))) as [|x l] eqn:Hb.
    + assert (errSeen (r (S m)) \/ alive (r (S m)) = false) as [H|H].
      { pose proof (inv_capErrs _ (Inv_run env sched N root w0 m)) as Hc.
        rewrite run_workers_length in Hc.
        cbn [run]. rewrite Hs. unfold exec. rewrite Ha.
        unfold stepWalker. rewrite Hwm. unfold sendErr, panic.
        rewrite Hb, Hc.
        destruct (closed (errChan (r m))); [by right|].
        destruct N; [lia|]. cbn. left. unfold errSeen. cbn. by left. }
      * destruct (seen_ends (S m) H) as (v & Hv & Hd).
        exists v. split; [lia|exact Hd].
      * exists (S m). split; [lia|exact H].
    + destruct (errs_pending_exits env N root w0 sched Hfair m)
        as (v & Hv & Hd); [by rewrite Hb|].
      exists v. split; [lia|exact Hd].
  - pose proof (lookup_lt_Some _ _ _ Hi) as Hlt.
    rewrite run_workers_length in Hlt.
    destruct (until_tick (AWorker i)
                (fun s => workers s !! i = Some (WSendErr e)) u)
      as (m & Hm & Hs & Him); [| |exact Hi|].
    { cbn. do 3 right. apply in_map, in_seq. lia. }
    { intros b s Hb <-. by apply exec_workers_other. }
    destruct (alive (r m)) eqn:Ha; [|by exists m].
    destruct (buf (errChan (r m))) as [|x l] eqn:Hb.
    + assert (errSeen (r (S m))) as H.
      { pose proof (Inv_run env sched N root w0 m) as HI.
        pose proof (inv_capErrs _ HI) as Hc.
        rewrite run_workers_length in Hc.
        assert (closed (errChan (r m)) = false) as Hcl.
        { destruct (closed (errChan (r m))) eqn:Hcl; [|done].
          pose proof (inv_errsClosed _ HI Hcl) as Hz.
          rewrite (inv_wg _ HI) in Hz.
          pose proof (countLive_zero _ _ _ Hz Him). discriminate. }
        cbn [run]. rewrite Hs. unfold exec. rewrite Ha.
        unfold stepWorker. rewrite Him. unfold sendErr.
        rewrite Hcl, Hb, Hc. destruct N; [lia|]. cbn.
        unfold errSeen. cbn. by left. }
      destruct (seen_ends (S m) H) as (v & Hv & Hd).
      exists v. split; [lia|exact Hd].
    + destruct (errs_pending_exits env N root w0 sched Hfair m)
        as (v & Hv & Hd); [by rewrite Hb|].
      exists v. split; [lia|exact Hd].
Qed.

(** An error that is held or seen ends the process, and not with
    status 0. *)
Lemma pending_ends_nonzero u :
  1 <= N -> errorPending (r u) ->
  exists v, u <= v /\
    (mainSt (r v) = MExited 1 \/ mainSt (r v) = MExited 2).
Proof.
  intros HN Hp.
  destruct (pending_ends u HN Hp) as (v & Hv & Hd).
  exists v. split; [exact Hv|].
  assert (errorPending (r v)) as Hpv.
  { clear Hd. induction Hv as [|v Hv IH]; [exact Hp|].
    destruct (alive (r v)) eqn:Ha.
    - eapply errorPending_step; [apply Inv_run|exact Ha|exact IH|].
      apply step_at.
    - cbn [run]. by rewrite exec_dead. }
  destruct (lookup_lt_is_Some_2 (workers (r v)) 0) as [ws H0].
  { rewrite run_workers_length. lia. }
  pose proof (pending_not_zero (r v) 0 ws (Inv_run env sched N root w0 v)
                (run_ExitInv env N root w0 sched v) H0 Hpv) as Hnz.
  pose proof (ei_code _ (run_ExitInv env N root w0 sched v)) as Hc.
  unfold alive in Hd.
  destruct (mainSt (r v)) as [| |c]; try discriminate.
  specialize (Hc c eq_refl).
  destruct c as [|[|[|c]]]; [done|by left|by right|lia].
Qed.

(** X13: with at least one worker and every goroutine scheduled again
    and again, a walk error, a failed extraction, a send of an error or
    a panic is followed by the end of the process with status 1 or 2,
    never 0. *)
Theorem failure_ends_run_nonzero u :
  1 <= N -> failure (ev u) = true ->
  exists v, u < v /\
    (mainSt (r v) = MExited 1 \/ mainSt (r v) = MExited 2).
Proof.
  intros HN Hf.
  destruct (pending_ends_nonzero (S u) HN) as (v & Hv & Hx).
  - eapply failure_pending; [apply step_at|exact Hf].
  - exists v. split; [lia|exact Hx].
Qed.
End Liveness.



Lemma keepsKinds_Printf msg w : keepsKinds w (Printf msg w).
Proof. by apply keepsKinds_same. Qed.



Section Reports.
Context (env : Env) (N : nat) (root : string) (w0 : World).
Context (sched : nat -> actor).

Local Abbreviation s0 := (init N root w0).
Local Abbreviation r := (run env sched (init N root w0)).
Local Abbreviation ev := (eventAt env sched (init N root w0)).



End Reports.

(* ===================================================================== *)
(** ** A start directory that is refused, and a run with no worker *)
(* ===================================================================== *)

Lemma rootRefused_step env root e w0 a s ev s' :
  Lstat env root w0 = inr e ->
  Inv s -> is_Some (workers s !! 0) ->
  rootRefused root e w0 s -> step env a s ev s' -> rootRefused root e w0 s'.
Proof.
  intros HL HI [ws0 H0] (Hq & Hw & Hph) Hs.
  assert (closed (errChan s) = true -> closed (pathsChan s) = true) as Hcc.
  { intros Hc. pose proof (all_done_when_closed s 0 ws0 HI Hc H0) as ->.
    destruct (Hw 0 _ H0) as [?|[_ ?]]; [discriminate|done]. }
  unfold rootRefused.
  destruct Hs;
    cbn [buf errChan pathsChan mainSt walker workers world closed
         setWalker setPaths setErrs setMain setWorker setWorld setWg
         setCloser skipped fst];
    try (split; [exact Hq|split; [exact Hw|exact Hph]]);
    try (destruct (Hw _ _ H) as [?|[? _]]; discriminate);
    try (rewrite Hq in *; discriminate).
  - (* the walk starts *)
    split; [exact Hq|]. split; [exact Hw|]. left.
    destruct Hph as [([Hk|Hk] & Hc & Hwd & Hb & Hm)|([Hk|Hk] & _)];
      try congruence.
    assert (root0 = root) as -> by congruence.
    subst k. unfold walkVisit. rewrite Hwd, HL. cbn. auto 10.
  - destruct Hph as [([Hk|Hk] & _)|([Hk|Hk] & _)]; congruence.
  - destruct Hph as [([Hk|Hk] & _)|([Hk|Hk] & _)]; congruence.
  - destruct Hph as [([Hk|Hk] & _)|([Hk|Hk] & _)]; congruence.
  - destruct Hph as [([Hk|Hk] & _)|([Hk|Hk] & _)]; congruence.
  - destruct Hph as [([Hk|Hk] & _)|([Hk|Hk] & _)]; congruence.
  - (* the walker sends *)
    split; [exact Hq|]. split; [exact Hw|]. right.
    destruct Hph as [([Hk|Hk] & Hc & Hwd & Hb & Hm)|([Hk|Hk] & _)];
      try congruence.
    assert (e0 = e) as -> by congruence.
    split; [by left|]. left. rewrite Hb. auto.
  - split; [exact Hq|]. split; [exact Hw|]. right.
    destruct Hph as [([Hk|Hk] & Hc & Hwd & Hb & Hm)|([Hk|Hk] & _)];
      try congruence.
    assert (e0 = e) as -> by congruence.
    split; [by left|]. right. left. auto.
  - destruct Hph as [([Hk|Hk] & Hc & _)|([Hk|Hk] & _)]; try congruence.
    rewrite (Hcc H1) in Hc. discriminate.
  - (* the queue is closed *)
    split; [exact Hq|]. split.
    { intros i ws Hi. destruct (Hw i ws Hi) as [?|[? _]]; auto. }
    right. destruct Hph as [([Hk|Hk] & _)|(_ & Hr)]; try congruence.
    split; [by right|exact Hr].
  - (* a worker returns *)
    split; [exact Hq|]. split; [|exact Hph].
    intros j ws Hj. apply lookup_insert_cases in Hj as [[_ ->]|Hj]; eauto.
  - (* main receives *)
    split; [exact Hq|]. split; [exact Hw|].
    destruct Hph as [(_ & _ & _ & Hb & _)|(Hk & Hr)]; [congruence|].
    right. split; [exact Hk|].
    destruct Hr as [(Hwd & Hb & Hm)|[(Hwd & Hb & Hm)|(_ & Hm)]];
      try congruence.
    rewrite Hb in H1. simplify_eq. right. left. auto.
  - (* main finds the channel closed and empty *)
    exfalso.
    destruct Hph as [(_ & Hc & _)|(_ & Hr)].
    + rewrite (Hcc H2) in Hc. discriminate.
    + destruct Hr as [(Hwd & Hb & Hm)|[(Hwd & Hb & Hm)|(_ & Hm)]];
        congruence.
  - (* main reports *)
    split; [exact Hq|]. split; [exact Hw|].
    destruct Hph as [(_ & _ & _ & _ & Hm)|(Hk & Hr)]; [congruence|].
    right. split; [exact Hk|].
    destruct Hr as [(Hwd & Hb & Hm)|[(Hwd & Hb & Hm)|(_ & Hm)]];
      try congruence.
    assert (e0 = e) as -> by congruence.
    right. right. rewrite Hwd. auto.
  - destruct Hph as [(_ & _ & _ & _ & Hm)|(Hk & Hr)]; [congruence|].
    destruct Hr as [(Hwd & Hb & Hm)|[(Hwd & Hb & Hm)|(_ & Hm)]];
      congruence.
Qed.

Section RootRefused.
Context (env : Env) (N : nat) (root : string) (w0 : World).
Context (sched : nat -> actor).

Local Abbreviation s0 := (init N root w0).
Local Abbreviation r := (run env sched (init N root w0)).
Local Abbreviation ev := (eventAt env sched (init N root w0)).

Lemma run_rootRefused e t :
  1 <= N -> Lstat env root w0 = inr e -> rootRefused root e w0 (r t).
Proof.
  intros HN HL. induction t as [|t IH].
  - split; [reflexivity|]. split.
    + intros i ws [-> _]%lookup_replicate. by left.
    + left. cbn. auto 10.
  - eapply rootRefused_step; [exact HL|apply Inv_run| |exact IH|apply step_at].
    apply lookup_lt_is_Some_2. rewrite run_workers_length. lia.
Qed.

(** X16: when [Lstat] refuses the start directory, with at least one
    worker and a fair schedule: nothing is ever put on the Work Queue,
    the tree stays as it was, and the process ends with status 1 having
    printed the one line that reports that error. *)
Theorem refused_start_directory_exits_one e :
  fair N sched -> 1 <= N ->
  Lstat env root w0 = inr e ->
  (forall t, buf (pathsChan (r t)) = [] /\ nodes (world (r t)) = nodes w0) /\
  exists v, mainSt (r v) = MExited 1 /\
            world (r v) = Printf (errorLine e) w0.
Proof.
  intros Hfair HN HL. split.
  - intros t. destruct (run_rootRefused e t HN HL) as (Hq & _ & Hph).
    split; [exact Hq|].
    destruct Hph as [(_ & _ & -> & _)|(_ & [(-> & _)|[(-> & _)|(-> & _)]])];
      reflexivity.
  - destruct (until_tick env N root w0 sched Hfair AWalker
                (fun s => walker s = WkStart root) 0)
      as (m & _ & Hs & Hk); [cbn; auto| |reflexivity|].
    { intros b s Hb <-. by apply exec_walker_other. }
    destruct (run_rootRefused e m HN HL) as (_ & _ & Hph).
    destruct Hph as [(_ & _ & Hwd & _ & Hm)|([Hk'|Hk'] & _)];
      try congruence.
    assert (ev m = EvWalkErr e) as Hev.
    { unfold eventAt, exec, alive. rewrite Hs, Hm.
      unfold stepWalker. rewrite Hk. cbn [snd].
      unfold walkVisit. rewrite Hwd, HL. reflexivity. }
    destruct (pending_ends_nonzero env N root w0 sched Hfair (S m) HN)
      as (v & _ & Hv).
    { eapply failure_pending; [apply step_at|]. by rewrite Hev. }
    exists v.
    destruct (run_rootRefused e v HN HL) as (_ & _ & Hph).
    destruct Hph as [(_ & _ & _ & _ & Hm')
                    |(_ & [(_ & _ & Hm')|[(_ & _ & Hm')|(Hw' & Hm')]])];
      destruct Hv; try congruence; auto.
Qed.
End RootRefused.

(* ------------------------------------------------------------------ *)

(** A tick of a process that has no worker: the tree stays, and no task
    is queued or taken. *)
Lemma noWorkers_tick env a s e s' :
  workers s = [] -> cap (pathsChan s) = 0 ->
  step env a s e s' ->
  nodes (world s') = nodes (world s) /\
  match e with
  | EvEnqueue _ | EvRecv _ _ | EvBegin _ _ | EvSkip _ _
  | EvExtracted _ _ _ => False
  | _ => True
  end.
Proof.
  intros Hw Hc Hs.
  destruct Hs; try (rewrite Hw in *; discriminate);
    try (split; [reflexivity|exact I]); try lia.
  - split; [reflexivity|]. subst k. by destruct (walkVisit _ _ _ _).
  - split; [reflexivity|]. subst k. by destruct (walkVisit _ _ _ _).
Qed.

(** With no worker the Error Channel has no slot and holds nothing, and
    it is closed once the closer has moved. *)
Lemma noWorkers_errs env a s e s' :
  cap (errChan s) = 0 -> wg s = 0 ->
  buf (errChan s) = [] /\
  (closerDone s = true -> closed (errChan s) = true) ->
  step env a s e s' ->
  buf (errChan s') = [] /\
  (closerDone s' = true -> closed (errChan s') = true).
Proof.
  intros Hc Hwg [Hb Hd] Hs.
  destruct Hs;
    cbn [buf errChan closerDone closed setWalker setPaths setErrs setMain
         setWorker setWorld setWg setCloser skipped fst];
    try (by split); try lia; try congruence.
Qed.

Section NoWorkers.
Context (env : Env) (root : string) (w0 : World).
Context (sched : nat -> actor).

Local Abbreviation s0 := (init 0 root w0).
Local Abbreviation r := (run env sched (init 0 root w0)).
Local Abbreviation ev := (eventAt env sched (init 0 root w0)).

Lemma no_worker t : workers (r t) = [].
Proof.
  apply length_zero_iff_nil. apply run_workers_length.
Qed.

Lemma no_worker_caps t :
  cap (pathsChan (r t)) = 0 /\ cap (errChan (r t)) = 0 /\ wg (r t) = 0.
Proof.
  pose proof (Inv_run env sched 0 root w0 t) as HI.
  rewrite (inv_capPaths _ HI), (inv_capErrs _ HI), (inv_wg _ HI), no_worker.
  by cbn.
Qed.

Lemma no_worker_errs t :
  buf (errChan (r t)) = [] /\
  (closerDone (r t) = true -> closed (errChan (r t)) = true).
Proof.
  induction t as [|t IH]; [by split|].
  destruct (no_worker_caps t) as (_ & Hc & Hwg).
  eapply noWorkers_errs; [exact Hc|exact Hwg|exact IH|apply step_at].
Qed.

Lemma closed_stays t u :
  t <= u -> closed (errChan (r t)) = true -> closed (errChan (r u)) = true.
Proof.
  intros Hle Hc. induction Hle as [|u Hle IH]; [exact Hc|].
  pose proof (step_at env 0 root w0 sched u) as Hs.
  destruct (no_worker_errs u) as [Hb _].
  revert Hs IH Hb.
  generalize (r (S u)) (r u) (ev u) (sched u). intros s' s e a Hs IH Hb.
  destruct Hs;
    cbn [buf errChan closed setWalker setPaths setErrs setMain
         setWorker setWorld setWg setCloser skipped fst];
    try done; congruence.
Qed.

(** X17: with [-n 0] there is no worker: under a fair schedule the tree
    stays as it was and nothing is ever put on the Work Queue, and the
    process still ends. *)
Theorem no_workers_nothing_extracted :
  fair 0 sched ->
  (forall t, nodes (world (r t)) = nodes w0 /\
             enqueuedBy env sched s0 t = []) /\
  exists v, alive (r v) = false.
Proof.
  intros Hfair. split.
  - intros t. induction t as [|t [IH1 IH2]]; [by split|].
    destruct (no_worker_caps t) as (Hc & _).
    destruct (noWorkers_tick env _ _ _ _ (no_worker t) Hc
                (step_at env 0 root w0 sched t)) as [Hn He].
    split; [congruence|].
    rewrite enqueuedBy_S, IH2. by destruct (eventAt env sched s0 t).
  - (* the closer moves, then main *)
    destruct (Hfair ACloser ltac:(cbn; auto) 0) as (m & _ & Hm).
    assert (closed (errChan (r (S m))) = true \/ alive (r m) = false)
      as [Hcl|Hd]; [| |by exists m].
    { destruct (alive (r m)) eqn:Ha; [left|by right].
      destruct (no_worker_caps m) as (_ & _ & Hwg).
      destruct (no_worker_errs m) as [_ Hdone].
      cbn [run]. rewrite Hm. unfold exec. rewrite Ha.
      unfold stepCloser. rewrite Hwg.
      destruct (closerDone (r m)); [by apply Hdone|reflexivity]. }
    destruct (Hfair AMain ltac:(cbn; auto) (S m)) as (k & Hk & Hsk).
    pose proof (closed_stays (S m) k Hk Hcl) as Hck.
    destruct (no_worker_errs k) as [Hb _].
    destruct (alive (r k)) eqn:Ha; [|by exists k].
    exists (S k). cbn [run]. rewrite Hsk. unfold exec. rewrite Ha.
    unfold stepMain. pose proof (inv_mainGot _ (Inv_run env sched 0 root w0 k)).
    unfold alive in *.
    destruct (mainSt (r k)) as [|[x|]|c]; try done.
    by rewrite Hb, Hck.
Qed.
End NoWorkers.

(* ===================================================================== *)
(** ** The further theorems at work on the scenarios *)
(* ===================================================================== *)

Lemma roundRobin_fair0 : fair 0 roundRobin.
Proof.
  intros a Ha. apply roundRobin_fair. cbn in *. tauto.
Qed.

Lemma extraction_keeps_kinds_witness :
  let w := oneArchive x02 in
  exists n',
    nodes (extractZip plainEnv "/r/x.zip" "/r/x" w).1 !! "/r/x.zip"
    = Some n' /\
    exists d', n' = NFile 420 d'.
Proof.
  apply (extraction_keeps_kinds plainEnv "/r/x.zip" "/r/x" (oneArchive x02)
           "/r/x.zip" (NFile 420 [x02])).
  vm_compute. reflexivity.
Defined.

Lemma first_failing_entry_witness :
  let w := oneArchive x02 in
  let fs := [fileA; fileBad; fileC] in
  exists pre f post w1,
    fs = (pre ++ f :: post)%list /\
    IsDir f = false /\
    extractEntries plainEnv "/r/x" pre w = (w1, None) /\
    extractEntry plainEnv "/r/x" f w1
    = ((extractEntries plainEnv "/r/x" fs w).1, Some ErrChecksum).
Proof.
  apply (first_failing_entry plainEnv "/r/x" [fileA; fileBad; fileC]
           (oneArchive x02)
           (extractEntries plainEnv "/r/x" [fileA; fileBad; fileC]
              (oneArchive x02)).1 ErrChecksum).
  vm_compute. reflexivity.
Defined.

Lemma last_entry_wins_witness :
  let again := mkZfile "a.txt" false 420 None [x68] None in
  exists m,
    nodes (extractEntries plainEnv "/r/x" [fileA; again; fileC]
             (oneArchive x00)).1 !! outPath "/r/x" again
    = Some (NFile m [x68]).
Proof.
  apply (last_entry_wins plainEnv "/r/x" [fileA]
           (mkZfile "a.txt" false 420 None [x68] None) [fileC]
           (oneArchive x00)).
  - vm_compute. reflexivity.
  - reflexivity.
  - intros g [<-|[]] _. vm_compute. discriminate.
Defined.

Lemma entry_open_failure_leaves_empty_file_witness :
  let f := mkZfile "a.txt" false 420 (Some ErrChecksum) hi None in
  let w := tree [("/r", NDir); ("/r/x", NDir);
                 ("/r/x/a.txt", NFile 384 hi)] in
  let w2 := (OpenFile plainEnv "/r/x/a.txt" 420 w).1 in
  let out := HOut "/r/x/a.txt" in
  extractEntry plainEnv "/r/x" f w = (Close out w2, Some ErrChecksum) /\
  handles (Close out w2) = handles w /\
  exists m,
    nodes (Close out w2) !! outPath "/r/x" f = Some (NFile m []) /\
    (forall m0 d0, nodes w !! outPath "/r/x" f = Some (NFile m0 d0) ->
                   m = m0).
Proof.
  apply (entry_open_failure_leaves_empty_file plainEnv "/r/x"
           (mkZfile "a.txt" false 420 (Some ErrChecksum) hi None)
           (tree [("/r", NDir); ("/r/x", NDir);
                  ("/r/x/a.txt", NFile 384 hi)])
           (tree [("/r", NDir); ("/r/x", NDir);
                  ("/r/x/a.txt", NFile 384 hi)])).
  - reflexivity.
  - vm_compute. reflexivity.
  - vm_compute. reflexivity.
  - reflexivity.
Defined.

Lemma plain_names_stay_inside_witness :
  Filepath.inside (Filepath.Clean "/r/x")
    (Filepath.Join ["/r/x"; "a/./b.txt"]) = true.
Proof.
  apply (plain_names_stay_inside "/r/x" "a/./b.txt").
  - discriminate.
  - vm_compute. discriminate.
  - vm_compute. discriminate.
  - vm_compute. intros [H|[H|[H|[]]]]; discriminate.
Defined.

Lemma attempted_extraction_is_not_retried_witness :
  let w := oneArchive x02 in
  let w' := (extractZip plainEnv "/r/x.zip" "/r/x" w).1 in
  nodeAt (nodes w') (Filepath.Clean "/r/x") = Some NDir /\
  forall s i path,
    alive s = true -> world s = w' ->
    workers s !! i = Some (WGot path) -> destDirOf path = "/r/x" ->
    exec plainEnv (AWorker i) s = skipped s i path.
Proof.
  apply (attempted_extraction_is_not_retried plainEnv "/r/x.zip" "/r/x"
           (oneArchive x02)
           (OpenReader plainEnv "/r/x.zip" (oneArchive x02)).1
           [fileA; fileBad; fileC]).
  - vm_compute. reflexivity.
  - vm_compute. reflexivity.
Defined.

Lemma only_the_walker_panics_witness :
  let r := run envUnreadable walkerLate (init 1 "/r" worldUnreadable) in
  walkerLate 9 = AWalker /\
  exists e,
    walker (r 9) = WkSendErr e /\
    closed (errChan (r 9)) = true /\
    (forall i ws, workers (r 9) !! i = Some ws -> ws = WDone).
Proof.
  apply (only_the_walker_panics envUnreadable 1 "/r" worldUnreadable
           walkerLate 9).
  vm_compute. reflexivity.
Defined.

Lemma received_tasks_are_handled_witness :
  let s0 := init 1 "/r" (oneArchive x01) in
  let r := run plainEnv roundRobin s0 in
  let ev := eventAt plainEnv roundRobin s0 in
  workers (r 30) !! 0 = Some (WGot "/r/x.zip") \/
  workers (r 30) !! 0 = Some (WExtract "/r/x.zip" (destDirOf "/r/x.zip")) \/
  exists v, 11 < v < 30 /\
    (ev v = EvSkip 0 "/r/x.zip" \/
     exists res, ev v = EvExtracted 0 "/r/x.zip" res).
Proof.
  apply (received_tasks_are_handled plainEnv 1 "/r" (oneArchive x01)
           roundRobin 30 11 0 "/r/x.zip").
  - lia.
  - vm_compute. reflexivity.
Defined.

Lemma exit_zero_is_clean_witness :
  let s0 := init 1 "/r" (oneArchive x01) in
  let r := run plainEnv roundRobin s0 in
  let ev := eventAt plainEnv roundRobin s0 in
  (forall u, failure (ev u) = false) /\
  walker (r 30) = WkDone /\
  (forall i ws, workers (r 30) !! i = Some ws -> ws = WDone) /\
  buf (pathsChan (r 30)) = [] /\
  (forall u i p, ev u = EvRecv i p ->
     exists v, u < v < 30 /\
       (ev v = EvSkip i p \/ ev v = EvExtracted i p None)).
Proof.
  apply (exit_zero_is_clean plainEnv 1 "/r" (oneArchive x01) roundRobin 30).
  - lia.
  - vm_compute. reflexivity.
Defined.

Lemma failure_ends_run_nonzero_witness :
  let r := run plainEnv roundRobin (init 1 "/r" (oneArchive x02)) in
  exists v, 19 < v /\
    (mainSt (r v) = MExited 1 \/ mainSt (r v) = MExited 2).
Proof.
  apply (failure_ends_run_nonzero plainEnv 1 "/r" (oneArchive x02)
           roundRobin roundRobin_fair 19).
  - lia.
  - vm_compute. reflexivity.
Defined.


Lemma refused_start_directory_exits_one_witness :
  let r := run plainEnv roundRobin (init 1 "/nowhere" (oneArchive x01)) in
  let e := PathError "lstat" "/nowhere" ENOENT in
  (forall t, buf (pathsChan (r t)) = [] /\
             nodes (world (r t)) = nodes (oneArchive x01)) /\
  exists v, mainSt (r v) = MExited 1 /\
            world (r v) = Printf (errorLine e) (oneArchive x01).
Proof.
  apply (refused_start_directory_exits_one plainEnv 1 "/nowhere"
           (oneArchive x01) roundRobin
           (PathError "lstat" "/nowhere" ENOENT) roundRobin_fair).
  - lia.
  - vm_compute. reflexivity.
Defined.

Lemma no_workers_nothing_extracted_witness :
  let s0 := init 0 "/r" worldFour in
  let r := run plainEnv roundRobin s0 in
  (forall t, nodes (world (r t)) = nodes worldFour /\
             enqueuedBy plainEnv roundRobin s0 t = []) /\
  exists v, alive (r v) = false.
Proof.
  apply (no_workers_nothing_extracted plainEnv "/r" worldFour roundRobin
           roundRobin_fair0).
Defined.

